(** * The CV extraction-and-repair pipeline of [backend/services/ai_processor.py]

    A shallow embedding of the [AIProcessor] class: the brace and bracket
    scans, the truncation handling of [_call_openrouter_api], the three JSON
    repair functions, the validators, the token budget and the two fallback
    loops, followed by the properties stated about them.

    Python [str] values are lists of Unicode code points, integers are [Z],
    indices and lengths are [nat].  Exceptions are values of [exn] carried
    by a small writer-and-error monad whose log records the calls that the
    properties speak about. *)

From Stdlib Require Import List ZArith NArith Lia Bool Ascii.
From Stdlib Require String.
Import ListNotations String.StringSyntax.

Local Open Scope Z_scope.
Set Warnings "-register-all".

(** ** Strings *)

Module Str.

Definition char := N.
Definition str := list char.

Definition chr (a : ascii) : char := N_of_ascii a.

(** An ASCII literal as a [str]. *)
Definition u (s : String.string) : str :=
  map chr (String.list_ascii_of_string s).

Definition LBRACE : char := 123%N.
Definition RBRACE : char := 125%N.
Definition LBRACK : char := 91%N.
Definition RBRACK : char := 93%N.
Definition DQUOTE : char := 34%N.
Definition SQUOTE : char := 39%N.
Definition COLON : char := 58%N.
Definition COMMA : char := 44%N.
Definition BACKSLASH : char := 92%N.

(** A JSON text literal in which the apostrophe stands for the double
    quote, so that [js] of [{'a': 1}] is a JSON object with the key a. *)
Definition js (s : String.string) : str :=
  map (fun c => if N.eqb c SQUOTE then DQUOTE else c) (u s).

Fixpoint eqb (a b : str) : bool :=
  match a, b with
  | [], [] => true
  | x :: a', y :: b' => N.eqb x y && eqb a' b'
  | _, _ => false
  end.

(** [str.isspace] for one code point, which is also what [str.strip()]
    removes and what [\s] matches in a [str] pattern. *)
Definition isspace (c : char) : bool :=
  ((9 <=? c) && (c <=? 13) || (28 <=? c) && (c <=? 32)
   || (c =? 133) || (c =? 160) || (c =? 5760)
   || (8192 <=? c) && (c <=? 8202)
   || (c =? 8232) || (c =? 8233) || (c =? 8239) || (c =? 8287)
   || (c =? 12288))%N.

Fixpoint lstrip (s : str) : str :=
  match s with
  | c :: s' => if isspace c then lstrip s' else s
  | [] => []
  end.

Definition rstrip (s : str) : str := rev (lstrip (rev s)).

(** [s.strip()] *)
Definition strip (s : str) : str := rstrip (lstrip s).

(** [s.rstrip(c)] for a one-character argument. *)
Fixpoint lstrip_char (c : char) (s : str) : str :=
  match s with
  | x :: s' => if N.eqb x c then lstrip_char c s' else s
  | [] => []
  end.

Definition rstrip_char (c : char) (s : str) : str :=
  rev (lstrip_char c (rev s)).

(** [s.endswith(c)] for a one-character argument. *)
Definition endswith_char (s : str) (c : char) : bool :=
  match rev s with
  | x :: _ => N.eqb x c
  | [] => false
  end.

Fixpoint startswith (p s : str) : bool :=
  match p, s with
  | [], _ => true
  | x :: p', y :: s' => N.eqb x y && startswith p' s'
  | _ :: _, [] => false
  end.

(** [p in s] *)
Fixpoint contains (p s : str) : bool :=
  startswith p s ||
  match s with
  | [] => false
  | _ :: s' => contains p s'
  end.

(** [s.count(c)] for a one-character argument. *)
Fixpoint count (c : char) (s : str) : Z :=
  match s with
  | [] => 0
  | x :: s' => (if N.eqb x c then 1 else 0) + count c s'
  end.

(** [s.find(c)] for a one-character argument; [None] is Python's [-1]. *)
Fixpoint find (c : char) (s : str) : option nat :=
  match s with
  | [] => None
  | x :: s' =>
      if N.eqb x c then Some O
      else match find c s' with Some i => Some (S i) | None => None end
  end.

(** [for _ in range(n): s += c] appends [c] to [s] as many times as
    [range(n)] has elements: none when [n] is negative. *)
Definition times (n : Z) (c : char) : str := repeat c (Z.to_nat n).

End Str.

Import Str.
Delimit Scope string_scope with string.
Arguments u s%_string.
Arguments js s%_string.

(** ** The brace and bracket scan *)

(** One step of the [if]/[elif] chain shared by [_fix_truncated_json] and
    [_find_last_complete_structure]. *)
Definition scan_char (c : char) (counts : Z * Z) : Z * Z :=
  let '(brace_count, bracket_count) := counts in
  if N.eqb c LBRACE then (brace_count + 1, bracket_count)
  else if N.eqb c RBRACE then (brace_count - 1, bracket_count)
  else if N.eqb c LBRACK then (brace_count, bracket_count + 1)
  else if N.eqb c RBRACK then (brace_count, bracket_count - 1)
  else (brace_count, bracket_count).

(** The loop [for i, char in enumerate(response)] with its three mutable
    variables. *)
Fixpoint scan_complete (response : str) (i : nat) (counts : Z * Z)
    (last_complete : nat) : nat :=
  match response with
  | [] => last_complete
  | c :: rest =>
      let counts' := scan_char c counts in
      let last_complete' :=
        if (fst counts' =? 0) && (snd counts' =? 0) then S i
        else last_complete in
      scan_complete rest (S i) counts' last_complete'
  end.

Definition _find_last_complete_structure (response : str) : nat :=
  scan_complete response 0 (0, 0) 0.

(** The depth of a text, by counting: openers minus closers, for braces
    and for brackets. *)
Definition depth (s : str) : Z * Z :=
  (count LBRACE s - count RBRACE s, count LBRACK s - count RBRACK s).

Definition balanced (s : str) : Prop := depth s = (0, 0).

(** [_fix_truncated_json]: the balanced prefix when there is one, else the
    stripped text with the missing closers appended, brackets first. *)
Definition _fix_truncated_json (truncated_response : str) : str :=
  let response := strip truncated_response in
  let last_complete_pos := scan_complete response 0 (0, 0) 0 in
  if (0 <? last_complete_pos)%nat then firstn last_complete_pos response
  else
    let open_braces := count LBRACE response - count RBRACE response in
    let open_brackets := count LBRACK response - count RBRACK response in
    let completed_response := response in
    let completed_response := completed_response ++ times open_brackets RBRACK in
    let completed_response := completed_response ++ times open_braces RBRACE in
    completed_response.

(** ** The patterns of [_fix_common_json_issues]

    The five patterns are sequences of literals, [\s*] and one capturing
    group over a negated class.  [rx_match] is the backtracking matcher of
    [re]: a greedy item takes the longest run first and gives characters
    back one at a time until the rest of the pattern matches. *)

Module Rx.

Inductive item :=
| Lit (c : char)                   (* a literal character *)
| Star (cls : char -> bool)        (* cls*, greedy *)
| Group (cls : char -> bool).      (* (cls+), greedy, group 1 *)

Definition pattern := list item.

(** [\s] and the two negated classes. *)
Definition space : char -> bool := isspace.
Definition not_quote_space (c : char) : bool :=
  negb (N.eqb c DQUOTE) && negb (isspace c).
Definition not_quote (c : char) : bool := negb (N.eqb c DQUOTE).

(** Length of the longest prefix of [s] inside the class. *)
Fixpoint run (cls : char -> bool) (s : str) : nat :=
  match s with
  | c :: s' => if cls c then S (run cls s') else O
  | [] => O
  end.

(** Try [k], [k-1], ..., [lo] in turn. *)
Fixpoint longest_first {A} (try : nat -> option A) (lo k : nat) : option A :=
  match try k with
  | Some r => if (lo <=? k)%nat then Some r else None
  | None =>
      match k with
      | O => None
      | S k' => if (lo <=? k')%nat then longest_first try lo k' else None
      end
  end.

(** A match of [p] at the start of [s]: the text of group 1 and what
    follows the match. *)
Fixpoint rx_match (p : pattern) (s : str) (g : str) : option (str * str) :=
  match p with
  | [] => Some (g, s)
  | Lit c :: p' =>
      match s with
      | x :: s' => if N.eqb x c then rx_match p' s' g else None
      | [] => None
      end
  | Star cls :: p' =>
      longest_first (fun k => rx_match p' (skipn k s) g) 0 (run cls s)
  | Group cls :: p' =>
      longest_first (fun k => rx_match p' (skipn k s) (firstn k s)) 1
        (run cls s)
  end.

(** [re.sub(p, repl, s)]: leftmost matches, not overlapping; [skip] is
    the number of characters of [s] still inside the previous match.
    Every pattern here starts with a literal, so no match is empty. *)
Fixpoint sub_from (p : pattern) (repl : str -> str) (s : str) (skip : nat)
    : str :=
  match s with
  | [] => []
  | c :: s' =>
      match skip with
      | S k => sub_from p repl s' k
      | O =>
          match rx_match p s [] with
          | Some (g, rest) =>
              repl g ++ sub_from p repl s' (length s' - length rest)
          | None => c :: sub_from p repl s' 0
          end
      end
  end.

Definition sub (p : pattern) (repl : str -> str) (s : str) : str :=
  sub_from p repl s 0.

End Rx.

Import Rx.

(** The patterns, with Q written for the double quote character.
    In arrays: [\[\s*{\s*([^Q\s]+):] *)
Definition KEY_IN_ARRAY : pattern :=
  [Lit LBRACK; Star space; Lit LBRACE; Star space; Group not_quote_space;
   Lit COLON].
(** In nested objects: [{\s*([^Q\s]+):] *)
Definition KEY_AFTER_BRACE : pattern :=
  [Lit LBRACE; Star space; Group not_quote_space; Lit COLON].
(** After commas: [,\s*([^Q\s]+):] *)
Definition KEY_AFTER_COMMA : pattern :=
  [Lit COMMA; Star space; Group not_quote_space; Lit COLON].
(** After colons: [:\s*{\s*([^Q\s]+):] *)
Definition KEY_AFTER_COLON : pattern :=
  [Lit COLON; Star space; Lit LBRACE; Star space; Group not_quote_space;
   Lit COLON].
(** A key that is missing altogether: [{\s*Q:\s*Q([^Q]+)Q] *)
Definition MISSING_KEY : pattern :=
  [Lit LBRACE; Star space; Lit DQUOTE; Lit COLON; Star space; Lit DQUOTE;
   Group not_quote; Lit DQUOTE].

(** [_fix_common_json_issues]: the five substitutions, each on the result
    of the one before. *)
Definition _fix_common_json_issues (ai_response : str) : str :=
  let fixed_response :=
    sub KEY_IN_ARRAY (fun g => js "[{ '" ++ g ++ js "':") ai_response in
  let fixed_response :=
    sub KEY_AFTER_BRACE (fun g => js "{ '" ++ g ++ js "':") fixed_response in
  let fixed_response :=
    sub KEY_AFTER_COMMA (fun g => js ", '" ++ g ++ js "':") fixed_response in
  let fixed_response :=
    sub KEY_AFTER_COLON (fun g => js ": { '" ++ g ++ js "':") fixed_response in
  let fixed_response :=
    sub MISSING_KEY (fun g => js "{ 'name': '" ++ g ++ js "'") fixed_response in
  fixed_response.

(** ** JSON values and [json.loads]

    What [json.loads] returns: Python's [None], [bool], [int], [float],
    [str], [list] and [dict].  A float is kept as the decimal it was read
    from; a dict is an association list with one entry per key, in order of
    first insertion. *)

Module Json.

Inductive pyfloat :=
| Fdec (neg : bool) (mantissa : N) (exponent : Z)  (* mantissa * 10^exponent *)
| Fnan
| Finf (neg : bool).

Inductive json :=
| JNull
| JBool (b : bool)
| JInt (n : Z)
| JFloat (f : pyfloat)
| JStr (s : str)
| JList (items : list json)
| JDict (members : list (str * json)).

Definition dict := list (str * json).

(** [k in d] and [d.get(k)] *)
Fixpoint dict_get (d : dict) (k : str) : option json :=
  match d with
  | [] => None
  | (k', v) :: d' => if Str.eqb k' k then Some v else dict_get d' k
  end.

Definition dict_has (d : dict) (k : str) : bool :=
  match dict_get d k with Some _ => true | None => false end.

(** [d[k] = v] *)
Fixpoint dict_set (d : dict) (k : str) (v : json) : dict :=
  match d with
  | [] => [(k, v)]
  | (k', v') :: d' =>
      if Str.eqb k' k then (k', v) :: d' else (k', v') :: dict_set d' k v
  end.

(** A decimal that rounds to the double 0.0: a zero mantissa, or a value
    of at most 2^-1075, half the least subnormal. *)
Definition float_is_zero (f : pyfloat) : bool :=
  match f with
  | Fdec _ m e =>
      (m =? 0)%N ||
      ((e <? 0) && (Z.of_N m * 2 ^ 1075 <=? 10 ^ (- e)))
  | Fnan | Finf _ => false
  end.

(** [bool(v)] *)
Definition truthy (v : json) : bool :=
  match v with
  | JNull => false
  | JBool b => b
  | JInt n => negb (n =? 0)
  | JFloat f => negb (float_is_zero f)
  | JStr s => match s with [] => false | _ => true end
  | JList l => match l with [] => false | _ => true end
  | JDict d => match d with [] => false | _ => true end
  end.

Inductive pytype := NoneType | TBool | TInt | TFloat | TStr | TList | TDict.

(** [type(v)] *)
Definition type_of (v : json) : pytype :=
  match v with
  | JNull => NoneType
  | JBool _ => TBool
  | JInt _ => TInt
  | JFloat _ => TFloat
  | JStr _ => TStr
  | JList _ => TList
  | JDict _ => TDict
  end.

Definition pytype_eqb (a b : pytype) : bool :=
  match a, b with
  | NoneType, NoneType | TBool, TBool | TInt, TInt | TFloat, TFloat
  | TStr, TStr | TList, TList | TDict, TDict => true
  | _, _ => false
  end.

(** [isinstance(v, t)] for [t] one of [dict], [list], [str], none of
    which has a subclass among the types [json.loads] produces. *)
Definition isinstance (v : json) (t : pytype) : bool :=
  pytype_eqb (type_of v) t.

(** *** The decoder

    The scanner of the [json] module in its default, strict mode:
    whitespace is space, tab, line feed and carriage return; [NaN],
    [Infinity] and [-Infinity] are accepted; a control character inside
    a string is an error; a repeated key keeps its last value.  Nesting
    and the number of digits of an integer are not bounded here, as the
    interpreter's recursion limit and its limit on integer conversion are
    left out.  The recursion runs on fuel, and a run that exhausts it is
    told apart from a syntax error. *)

Inductive parsed (A : Type) :=
| Ok (a : A) (rest : str)
| Invalid
| NoFuel.
Arguments Ok {A} a rest.
Arguments Invalid {A}.
Arguments NoFuel {A}.

Definition is_ws (c : char) : bool :=
  ((c =? 32) || (c =? 9) || (c =? 10) || (c =? 13))%N.

Fixpoint skip_ws (s : str) : str :=
  match s with
  | c :: s' => if is_ws c then skip_ws s' else s
  | [] => []
  end.

Definition is_digit (c : char) : bool := ((48 <=? c) && (c <=? 57))%N.

Definition hex_value (c : char) : option N :=
  if is_digit c then Some (c - 48)%N
  else if ((97 <=? c) && (c <=? 102))%N then Some (c - 87)%N
  else if ((65 <=? c) && (c <=? 70))%N then Some (c - 55)%N
  else None.

Definition hex4 (a b c d : char) : option N :=
  match hex_value a, hex_value b, hex_value c, hex_value d with
  | Some x, Some y, Some z, Some w => Some (((x * 16 + y) * 16 + z) * 16 + w)%N
  | _, _, _, _ => None
  end.

Definition is_high_surrogate (c : N) : bool := ((55296 <=? c) && (c <=? 56319))%N.
Definition is_low_surrogate (c : N) : bool := ((56320 <=? c) && (c <=? 57343))%N.

Definition simple_escape (c : char) : option char :=
  if (c =? 34)%N then Some 34%N            (* quote *)
  else if (c =? 92)%N then Some 92%N       (* backslash *)
  else if (c =? 47)%N then Some 47%N       (* slash *)
  else if (c =? 98)%N then Some 8%N        (* b *)
  else if (c =? 102)%N then Some 12%N      (* f *)
  else if (c =? 110)%N then Some 10%N      (* n *)
  else if (c =? 114)%N then Some 13%N      (* r *)
  else if (c =? 116)%N then Some 9%N       (* t *)
  else None.

(** The body of a string, after its opening quote: the decoded text and
    what follows the closing quote. *)
Fixpoint scanstring (s : str) (acc : str) : option (str * str) :=
  match s with
  | [] => None
  | c :: s1 =>
      if (c =? DQUOTE)%N then Some (rev acc, s1)
      else if (c =? BACKSLASH)%N then
        match s1 with
        | [] => None
        | e :: s2 =>
            if (e =? 117)%N then              (* u and four hex digits *)
              match s2 with
              | h1 :: h2 :: h3 :: h4 :: s3 =>
                  match hex4 h1 h2 h3 h4 with
                  | None => None
                  | Some hi =>
                      match s3 with
                      | b :: u' :: l1 :: l2 :: l3 :: l4 :: s4 =>
                          if is_high_surrogate hi && (b =? BACKSLASH)%N
                             && (u' =? 117)%N
                          then
                            match hex4 l1 l2 l3 l4 with
                            | None => None
                            | Some lo =>
                                if is_low_surrogate lo
                                then scanstring s4
                                       ((65536 + (hi - 55296) * 1024
                                         + (lo - 56320))%N :: acc)
                                else scanstring s3 (hi :: acc)
                            end
                          else scanstring s3 (hi :: acc)
                      | _ => scanstring s3 (hi :: acc)
                      end
                  end
              | _ => None
              end
            else
              match simple_escape e with
              | Some x => scanstring s2 (x :: acc)
              | None => None
              end
        end
      else if (c <=? 31)%N then None
      else scanstring s1 (c :: acc)
  end.

Fixpoint digits (s : str) : str * str :=
  match s with
  | c :: s' =>
      if is_digit c then let '(d, r) := digits s' in (c :: d, r) else ([], s)
  | [] => ([], [])
  end.

Definition nat_of_digits (d : str) : N :=
  fold_left (fun n c => (n * 10 + (c - 48))%N) d 0%N.

(** The integer part: a lone 0, or a non-zero digit and more digits. *)
Definition int_part (s : str) : option (str * str) :=
  match s with
  | c :: s' =>
      if (c =? 48)%N then Some ([c], s')
      else if is_digit c then let '(d, r) := digits s' in Some (c :: d, r)
      else None
  | [] => None
  end.

Definition frac_part (s : str) : str * str :=
  match s with
  | dot :: s' =>
      if (dot =? 46)%N then
        match digits s' with
        | ([], _) => ([], s)
        | (d, r) => (dot :: d, r)
        end
      else ([], s)
  | [] => ([], s)
  end.

(** The exponent, when a digit follows the [e] and its optional sign:
    whether one was read, its value, and the rest. *)
Definition exp_part (s : str) : bool * Z * str :=
  match s with
  | e :: s' =>
      if ((e =? 101) || (e =? 69))%N then
        let '(sign, s'') :=
          match s' with
          | c :: t =>
              if (c =? 45)%N then (-1, t)
              else if (c =? 43)%N then (1, t) else (1, s')
          | [] => (1, s')
          end in
        match digits s'' with
        | ([], _) => (false, 0, s)
        | (d, r) => (true, sign * Z.of_N (nat_of_digits d), r)
        end
      else (false, 0, s)
  | [] => (false, 0, s)
  end.

Definition number (s : str) : option (json * str) :=
  let '(neg, s0) :=
    match s with
    | c :: s' => if (c =? 45)%N then (true, s') else (false, s)
    | [] => (false, s)
    end in
  match int_part s0 with
  | None => None
  | Some (ip, s1) =>
      let '(fp, s2) := frac_part s1 in
      let '(has_exp, ex, s3) := exp_part s2 in
      match fp, has_exp with
      | [], false =>
          let n := Z.of_N (nat_of_digits ip) in
          Some (JInt (if neg then - n else n), s3)
      | _, _ =>
          let fd := tl fp in
          Some (JFloat (Fdec neg (nat_of_digits (ip ++ fd))
                          (ex - Z.of_nat (length fd))), s3)
      end
  end.

Definition keyword (w : str) (v : json) (s : str) : option (json * str) :=
  if startswith w s then Some (v, skipn (length w) s) else None.

(** A value that is not a string, an object or an array. *)
Definition atom (s : str) : option (json * str) :=
  match s with
  | c :: _ =>
      if (c =? 110)%N then keyword (u "null") JNull s
      else if (c =? 116)%N then keyword (u "true") (JBool true) s
      else if (c =? 102)%N then keyword (u "false") (JBool false) s
      else if (c =? 78)%N then keyword (u "NaN") (JFloat Fnan) s
      else if (c =? 73)%N then keyword (u "Infinity") (JFloat (Finf false)) s
      else if (c =? 45)%N && startswith (u "-Infinity") s
      then keyword (u "-Infinity") (JFloat (Finf true)) s
      else number s
  | [] => None
  end.

Fixpoint scan_once (fuel : nat) (s : str) : parsed json :=
  match fuel with
  | O => NoFuel
  | S fuel' =>
      match s with
      | [] => Invalid
      | c :: s1 =>
          if (c =? DQUOTE)%N then
            match scanstring s1 [] with
            | Some (t, r) => Ok (JStr t) r
            | None => Invalid
            end
          else if (c =? LBRACE)%N then
            match skip_ws s1 with
            | c' :: s2 =>
                if (c' =? RBRACE)%N then Ok (JDict []) s2
                else object_members fuel' (c' :: s2) []
            | [] => Invalid
            end
          else if (c =? LBRACK)%N then
            match skip_ws s1 with
            | c' :: s2 =>
                if (c' =? RBRACK)%N then Ok (JList []) s2
                else array_items fuel' (c' :: s2) []
            | [] => Invalid
            end
          else
            match atom s with
            | Some (v, r) => Ok v r
            | None => Invalid
            end
      end
  end

with object_members (fuel : nat) (s : str) (acc : dict) : parsed json :=
  match fuel with
  | O => NoFuel
  | S fuel' =>
      match s with
      | q :: s1 =>
          if (q =? DQUOTE)%N then
            match scanstring s1 [] with
            | None => Invalid
            | Some (key, s2) =>
                match skip_ws s2 with
                | colon :: s3 =>
                    if (colon =? COLON)%N then
                      match scan_once fuel' (skip_ws s3) with
                      | Ok v s4 =>
                          let acc' := dict_set acc key v in
                          match skip_ws s4 with
                          | d :: s5 =>
                              if (d =? RBRACE)%N then Ok (JDict acc') s5
                              else if (d =? COMMA)%N
                              then object_members fuel' (skip_ws s5) acc'
                              else Invalid
                          | [] => Invalid
                          end
                      | Invalid => Invalid
                      | NoFuel => NoFuel
                      end
                    else Invalid
                | [] => Invalid
                end
            end
          else Invalid
      | [] => Invalid
      end
  end

with array_items (fuel : nat) (s : str) (acc : list json) : parsed json :=
  match fuel with
  | O => NoFuel
  | S fuel' =>
      match scan_once fuel' s with
      | Ok v s1 =>
          match skip_ws s1 with
          | d :: s2 =>
              if (d =? RBRACK)%N then Ok (JList (rev (v :: acc))) s2
              else if (d =? COMMA)%N
              then array_items fuel' (skip_ws s2) (v :: acc)
              else Invalid
          | [] => Invalid
          end
      | Invalid => Invalid
      | NoFuel => NoFuel
      end
  end.

(** [json.JSONDecoder().decode(s)] with fuel: the value, a syntax error,
    or out of fuel. *)
Definition decode (fuel : nat) (s : str) : parsed json :=
  match s with
  | 65279%N :: _ => Invalid                      (* a byte order mark *)
  | _ =>
      match scan_once fuel (skip_ws s) with
      | Ok v r => match skip_ws r with [] => Ok v [] | _ => Invalid end
      | Invalid => Invalid
      | NoFuel => NoFuel
      end
  end.

(** [json.loads(s)]: [None] stands for [JSONDecodeError].  Every nested
    call consumes a character, so fuel beyond twice the length of the
    text is never used up. *)
Definition loads (s : str) : option json :=
  match decode (2 * length s + 2) s with
  | Ok v _ => Some v
  | Invalid | NoFuel => None
  end.

End Json.

Import Json.

(** ** Configuration *)

(** [AI_MODEL_CONFIG] of [config.py] (the values of the built-in fallback
    configuration are the same, with a shorter table). *)
Definition MODEL_TOKEN_LIMITS : list (str * Z) :=
  [ (u "anthropic/claude-3.5-sonnet", 200000);
    (u "openai/gpt-4o", 128000);
    (u "anthropic/claude-3-haiku", 200000);
    (u "meta-llama/llama-3.1-8b-instruct", 8192);
    (u "anthropic/claude-3-opus", 200000);
    (u "openai/gpt-4-turbo", 128000) ].
Definition MIN_MAX_TOKENS : Z := 2000.
Definition SAFETY_BUFFER_TOKENS : Z := 1000.

(** The fields of an [AIProcessor] instance that the pipeline reads. *)
Record AIProcessor := {
  primary_model : str;
  fallback_models : list str;
  model_token_limits : list (str * Z);
  enable_fallback_models : bool
}.

(** The instance built when no environment variable overrides a model. *)
Definition default_processor : AIProcessor := {|
  primary_model := u "anthropic/claude-3.5-sonnet";
  fallback_models :=
    [u "openai/gpt-4o"; u "anthropic/claude-3-haiku";
     u "meta-llama/llama-3.1-8b-instruct"];
  model_token_limits := MODEL_TOKEN_LIMITS;
  enable_fallback_models := true
|}.

(** [table.get(model, default)] *)
Fixpoint limits_get (table : list (str * Z)) (model : str) (default : Z) : Z :=
  match table with
  | [] => default
  | (k, v) :: table' =>
      if Str.eqb k model then v else limits_get table' model default
  end.

Definition _calculate_max_tokens (self : AIProcessor) (model : str)
    (prompt_length : Z) : Z :=
  let model_limit := limits_get (model_token_limits self) model 8192 in
  let estimated_prompt_tokens := prompt_length / 4 in
  let base_response_tokens :=
    if 100000 <? prompt_length then 30000
    else if 50000 <? prompt_length then 25000
    else if 20000 <? prompt_length then 20000
    else 15000 in
  let response_tokens :=
    Z.min base_response_tokens
      (model_limit - estimated_prompt_tokens - SAFETY_BUFFER_TOKENS) in
  let max_tokens :=
    Z.min response_tokens
      (model_limit - estimated_prompt_tokens - SAFETY_BUFFER_TOKENS) in
  let max_tokens := Z.max max_tokens MIN_MAX_TOKENS in
  max_tokens.

(** ** Exceptions, the log and the run monad *)

Inductive exn :=
| JSONDecodeError
| TypeError
| AttributeError
| ClientError (detail : str)
    (* raised while posting or reading the reply: no connection, timeout,
       malformed envelope *)
| OpenRouterAPIError (status : Z) (error_text : str)
| NotJsonObject                 (* AI response is not a valid JSON object *)
| FixedNotJsonObject            (* Fixed AI response is not a valid JSON object *)
| MissingSection                (* Missing required section 'personal_information' *)
| MissingField (field : str)    (* Missing required field ... in personal_information *)
| RepairFailed (raw_response : str)
    (* AI response could not be parsed as valid JSON and all repair attempts failed *)
| NotADictionary                (* AI response is not a valid dictionary *)
| MissingPersonalInformation
    (* AI response missing required 'personal_information' section *)
| AllModelsFailed (last_error : option exn) (raw_ai_response : option str)
    (filename : str) (text_content_preview : str) (models_tried : list str)
    (* the error_details of _process_cv_single_request *)
| AllAIModelsFailed (primary_error : exn).
    (* All AI models failed. Primary error: ... *)

(** [getattr(e, 'raw_response', None)] *)
Definition raw_response_of (e : option exn) : option str :=
  match e with
  | Some (RepairFailed raw) => Some raw
  | _ => None
  end.

Inductive request_kind := Extraction | Continuation.

Inductive approach := FixCommonIssues | ExtractValidJson | CompleteTruncatedJson.

Inductive truncation_warning := TokenLimitReached | NoClosingBrace.

(** What a run leaves behind: the requests it posted, the truncation
    warnings it printed and the repair functions it applied. *)
Inductive event :=
| Post (kind : request_kind) (model : str) (user_content : str) (max_tokens : Z)
| Warn (w : truncation_warning)
| Repair (a : approach) (input : str).

Definition Run (A : Type) : Type := (exn + A) * list event.

Definition ret {A} (a : A) : Run A := (inr a, []).
Definition raise {A} (e : exn) : Run A := (inl e, []).
Definition tell (ev : event) : Run unit := (inr tt, [ev]).

Definition bind {A B} (m : Run A) (k : A -> Run B) : Run B :=
  match m with
  | (inl e, log) => (inl e, log)
  | (inr a, log) => let '(r, log') := k a in (r, log ++ log')
  end.

(** [try: m  except Exception as e: h(e)] *)
Definition catch {A} (m : Run A) (h : exn -> Run A) : Run A :=
  match m with
  | (inl e, log) => let '(r, log') := h e in (r, log ++ log')
  | (inr a, log) => (inr a, log)
  end.

(** A pure step that may raise. *)
Definition lift {A} (r : exn + A) : Run A := (r, []).

Notation "'let*' x ':=' m 'in' k" := (bind m (fun x => k))
  (at level 10, x name, m at level 100, k at level 200).
Notation "m ';;' k" := (bind m (fun _ => k))
  (at level 100, k at level 200, right associativity).

(** ** The validators *)

Definition PERSONAL_INFORMATION : str := u "personal_information".
Definition FIRST_NAME : str := u "first_name".
Definition LAST_NAME : str := u "last_name".

(** [personal_info.get(field)]: an [AttributeError] unless [personal_info]
    is a dict. *)
Definition section_get (personal_info : json) (field : str)
    : exn + option json :=
  match personal_info with
  | JDict d => inr (dict_get d field)
  | _ => inl AttributeError
  end.

(** [not v] for the result of [.get], where a missing key gives [None]. *)
Definition falsy (v : option json) : bool :=
  match v with
  | Some x => negb (truthy x)
  | None => true
  end.

Definition _validate_required_fields (data : dict) : exn + unit :=
  match dict_get data PERSONAL_INFORMATION with
  | None => inl MissingSection
  | Some personal_info =>
      match section_get personal_info FIRST_NAME with
      | inl e => inl e
      | inr first_name =>
          if falsy first_name then inl (MissingField FIRST_NAME)
          else
            match section_get personal_info LAST_NAME with
            | inl e => inl e
            | inr last_name =>
                if falsy last_name then inl (MissingField LAST_NAME)
                else inr tt
            end
      end
  end.

Inductive warning :=
| FieldType (key : str) (expected got : pytype)
| MissingOptional (key : str)
| PersonalFieldType (field : str) (expected got : pytype)
| MissingOptionalPersonal (field : str)
| ReferenceNotObject (i : nat) (got : pytype)
| ReferenceMissingName (i : nat)
| ReferenceMissingRelationship (i : nat).

Definition expected_structure : list (str * pytype) :=
  [ (u "personal_information", TDict); (u "professional_summary", TStr);
    (u "work_experience", TList); (u "it_system_used", TList);
    (u "education", TList); (u "skills", TDict);
    (u "certifications", TList); (u "projects", TList);
    (u "awards_and_honors", TList); (u "volunteer_experience", TList);
    (u "interests", TList); (u "references", TList);
    (u "additional_information", TStr) ].

Definition expected_personal_fields : list (str * pytype) :=
  [ (u "first_name", TStr); (u "middle_name", TStr); (u "last_name", TStr);
    (u "emails", TList); (u "birth_date", TStr); (u "gender", TStr);
    (u "civil_status", TStr); (u "alias", TList); (u "phones", TList);
    (u "address", TDict); (u "desired_location", TDict);
    (u "work_preference", TDict); (u "social_urls", TList) ].

(** The loop over the expected top-level keys. *)
Definition check_structure (data : dict) : list warning :=
  flat_map (fun '(key, expected_type) =>
    match dict_get data key with
    | Some v =>
        if isinstance v expected_type then []
        else [FieldType key expected_type (type_of v)]
    | None => [MissingOptional key]
    end) expected_structure.

(** [field in personal_info] followed, when it holds, by
    [personal_info[field]]: on a dict a lookup; on a string a substring
    test and then a [TypeError], as a string is not indexed by a string; on
    a list a membership test and then a [TypeError]; on anything else a
    [TypeError] at once. *)
Definition personal_field (personal_info : json) (field : str)
    : exn + option json :=
  match personal_info with
  | JDict d => inr (dict_get d field)
  | JStr s => if contains field s then inl TypeError else inr None
  | JList l =>
      if existsb (fun x => match x with JStr t => Str.eqb t field | _ => false end) l
      then inl TypeError else inr None
  | _ => inl TypeError
  end.

Fixpoint check_personal (personal_info : json) (fields : list (str * pytype))
    : exn + list warning :=
  match fields with
  | [] => inr []
  | (field, expected_type) :: fields' =>
      match personal_field personal_info field with
      | inl e => inl e
      | inr found =>
          let w :=
            match found with
            | Some v =>
                if isinstance v expected_type then []
                else [PersonalFieldType field expected_type (type_of v)]
            | None => [MissingOptionalPersonal field]
            end in
          match check_personal personal_info fields' with
          | inl e => inl e
          | inr ws => inr (w ++ ws)
          end
      end
  end.

Fixpoint check_references (refs : list json) (i : nat) : list warning :=
  match refs with
  | [] => []
  | reference :: refs' =>
      (match reference with
       | JDict r =>
           (if dict_has r (u "name") then [] else [ReferenceMissingName i])
           ++ (if dict_has r (u "relationship") then []
               else [ReferenceMissingRelationship i])
       | other => [ReferenceNotObject i (type_of other)]
       end) ++ check_references refs' (S i)
  end.

(** [_validate_json_format]: the warnings it prints, or the exception it
    lets through. *)
Definition _validate_json_format (data : dict) : exn + list warning :=
  let validation_warnings := check_structure data in
  match
    match dict_get data PERSONAL_INFORMATION with
    | Some personal_info => check_personal personal_info expected_personal_fields
    | None => inr []
    end
  with
  | inl e => inl e
  | inr ws =>
      let validation_warnings := validation_warnings ++ ws in
      let validation_warnings :=
        validation_warnings ++
        match dict_get data (u "references") with
        | Some (JList refs) => check_references refs 0
        | _ => []
        end in
      inr validation_warnings
  end.

(** [_validate_and_return_result], and the same three steps as they stand
    in the [try] block of [_parse_ai_response], which differ in the message
    of the first exception only. *)
Definition validate_result (not_object : exn) (result : json) : exn + json :=
  match result with
  | JDict data =>
      match _validate_required_fields data with
      | inl e => inl e
      | inr _ =>
          match _validate_json_format data with
          | inl e => inl e
          | inr _ => inr result
          end
      end
  | _ => inl not_object
  end.

Definition _validate_and_return_result (result : json) : exn + json :=
  validate_result FixedNotJsonObject result.

(** ** Prompts *)

Fixpoint uint_chars (d : Decimal.uint) : str :=
  match d with
  | Decimal.Nil => []
  | Decimal.D0 d => 48%N :: uint_chars d
  | Decimal.D1 d => 49%N :: uint_chars d
  | Decimal.D2 d => 50%N :: uint_chars d
  | Decimal.D3 d => 51%N :: uint_chars d
  | Decimal.D4 d => 52%N :: uint_chars d
  | Decimal.D5 d => 53%N :: uint_chars d
  | Decimal.D6 d => 54%N :: uint_chars d
  | Decimal.D7 d => 55%N :: uint_chars d
  | Decimal.D8 d => 56%N :: uint_chars d
  | Decimal.D9 d => 57%N :: uint_chars d
  end.

(** [str(n)] for a length. *)
Definition str_of_nat (n : nat) : str := uint_chars (Nat.to_uint n).

(** The format and the requirements appended to every prompt. *)
Definition CV_FORMAT : str :=
  js "

{
  'personal_information': {
    'first_name': 'string',
    'middle_name': 'string',
    'last_name': 'string',
    'emails': ['string'],
    'birth_date': 'YYYY-MM-DD',
    'gender': 'string',
    'civil_status': 'string',
    'alias': ['string'],
    'phones': [
      {
        'type': 'string',
        'number': 'string'
      }
    ],
    'address': {
      'street': 'string',
      'barangay': 'string',
      'city': 'string',
      'state': 'string',
      'postal_code': 'string',
      'country': 'string'
    },
    'desired_location': {
      'city': 'string',
      'state': 'string',
      'country': 'string'
    },
    'work_preference': {
      'open_to_work_from_home': boolean,
      'open_to_onsite': boolean
    },
    'social_urls': [
      {
        'platform': 'string',
        'url': 'string'
      }
    ]
  },
  'professional_summary': 'string',
  'work_experience': [
    {
      'job_title': 'string',
      'company_name': 'string',
      'location': 'string',
      'start_date': 'YYYY-MM',
      'end_date': 'YYYY-MM or Present',
      'responsibilities': ['string']
    }
  ],
  'it_system_used': [
    {
      'abbreviation': 'string',
      'name_of_system': 'string'
    }
  ],
  'education': [
    {
      'degree': 'string',
      'institution': 'string',
      'location': 'string',
      'start_date': 'YYYY-MM',
      'end_date': 'YYYY-MM',
      'gpa': 'string (optional)',
      'honors': 'string (optional)'
    }
  ],
  'skills': {
    'technical_skills': ['string'],
    'soft_skills': ['string'],
    'computer_languages': [
      {
        'language': 'string',
        'proficiency': 'string'
      }
    ]
  },
  'certifications': [
    {
      'name': 'string',
      'issuing_organization': 'string',
      'issue_date': 'YYYY-MM',
      'expiration_date': 'YYYY-MM (optional)',
      'credential_id': 'string (optional)'
    }
  ],
  'projects': [
    {
      'title': 'string',
      'description': 'string',
      'technologies_used': ['string'],
      'start_date': 'YYYY-MM',
      'end_date': 'YYYY-MM or Present',
      'project_url': 'string (optional)'
    }
  ],
  'awards_and_honors': [
    {
      'title': 'string',
      'issuer': 'string',
      'date_received': 'YYYY-MM',
      'description': 'string'
    }
  ],
  'volunteer_experience': [
    {
      'role': 'string',
      'organization': 'string',
      'location': 'string',
      'start_date': 'YYYY-MM',
      'end_date': 'YYYY-MM or Present',
      'description': 'string'
    }
  ],
  'interests': ['string'],
  'references': [
    {
      'name': 'string',
      'relationship': 'string',
      'email': 'string',
      'phone': 'string'
    }
  ],
  'additional_information': 'string (optional, for any extra details not fitting the above structure)'
}

CRITICAL REQUIREMENTS:
1. The output MUST follow this EXACT JSON structure - do not change field names or structure
2. REQUIRED fields: 'first_name' and 'last_name' in personal_information section
3. Extract ALL information possible from the CV content
4. If a field is not available in the CV, use null or empty string as appropriate
5. Ensure the response is valid JSON format
6. Do not include any explanations or text outside the JSON structure
7. Use arrays for multiple items (e.g., multiple skills, experiences)
8. For dates, use YYYY-MM format for months, YYYY-MM-DD for specific dates
9. For boolean values, use true/false
10. If the CV content is unclear or incomplete, make reasonable inferences based on context
11. The 'end_date' can be 'Present' for ongoing positions/education
12. IMPORTANT: Your response MUST be ONLY the JSON object - no markdown, no explanations, no additional text
13. CRITICAL: Ensure ALL object keys are properly quoted with double quotes (e.g., 'name': not name:)
14. Pay special attention to nested objects in arrays like references, work_experience, etc.
15. BE CONCISE: Use brief, relevant descriptions. Avoid verbose explanations.
16. PRIORITIZE: Focus on the most important information if space is limited.
17. Work experience should be in reverse chronological order.

Please provide ONLY the JSON response without any additional text, markdown formatting, or explanations.

REMEMBER: The API is configured to expect JSON format only. Any non-JSON content will cause parsing errors.".

Definition _create_cv_prompt (filename text_content : str) : str :=
  let prompt :=
    if 20000 <? Z.of_nat (length text_content) then
      u "Please analyze the following CV document and extract detailed information into a structured JSON format.
This is a long CV document - focus on extracting ALL available information while maintaining accuracy.

Document: "
      ++ filename
      ++ u "
Text Length: "
      ++ str_of_nat (length text_content)
      ++ u " characters

CV Content:
"
      ++ text_content
      ++ u "

IMPORTANT: You MUST output the CV data in EXACTLY this JSON format. Do not modify the structure or field names.
Since this is a long document, ensure you capture ALL sections and details present."
    else
      u "Please analyze the following CV document and extract detailed information into a structured JSON format.

Document: "
      ++ filename
      ++ u "

CV Content:
"
      ++ text_content
      ++ u "

IMPORTANT: You MUST output the CV data in EXACTLY this JSON format. Do not modify the structure or field names." in
  prompt ++ CV_FORMAT.

Definition continuation_prompt (last_complete : str) : str :=
  u "Your previous response was truncated. Please continue from where you left off.

Previous response (truncated):
"
  ++ last_complete
  ++ u "

IMPORTANT: 
1. Continue the JSON structure from where it was cut off
2. Do NOT repeat any content from the previous response
3. Do NOT add opening braces or brackets - continue from where the previous response ended
4. Ensure the final result is valid JSON when combined with the previous response
5. Include the closing brace } at the end

Continue the JSON response:".

(** ** The pipeline

    The two things outside the program are parameters: [json.loads], of
    which only success or [JSONDecodeError] matters here, and the remote
    completion API, a function from the posted request to its reply or to
    the exception of the HTTP client. *)

Record reply := {
  status : Z;
  error_text : str;                (* the body of a reply that is not a 200 *)
  content : str;                   (* choices[0].message.content *)
  finish_reason : option str       (* choices[0].get('finish_reason') *)
}.

Record response_info := {
  info_content : str;
  info_model_used : str;
  info_finish_reason : option str
}.

Record success := {
  ai_data : json;
  model_used : str
}.

Definition opt_str_eqb (a : option str) (b : str) : bool :=
  match a with Some x => Str.eqb x b | None => false end.

(** Truthiness of an optional string: [None] and the empty string are
    false. *)
Definition nonempty (s : option str) : bool :=
  match s with Some (_ :: _) => true | _ => false end.

(** The loop of [_extract_valid_json] from the first opening brace on:
    the index of the closing brace that brings the count back to zero. *)
Fixpoint find_end_brace (s : str) (i : nat) (brace_count : Z) : option nat :=
  match s with
  | [] => None
  | c :: rest =>
      if N.eqb c LBRACE then find_end_brace rest (S i) (brace_count + 1)
      else if N.eqb c RBRACE then
        if brace_count - 1 =? 0 then Some i
        else find_end_brace rest (S i) (brace_count - 1)
      else find_end_brace rest (S i) brace_count
  end.

Definition REQUIRED_ELEMENTS : list str :=
  [js "'personal_information'"; js "'first_name'"; js "'last_name'"].

Definition found_elements (response : str) : nat :=
  length (filter (fun element => contains element response) REQUIRED_ELEMENTS).

Definition _has_valid_starting_structure (response : str) : bool :=
  match find LBRACE response with
  | None => false
  | Some _ => (2 <=? found_elements response)%nat
  end.

Definition _concatenate_responses (original_response continuation : str)
    : option str :=
  let last_complete_pos := _find_last_complete_structure original_response in
  if (last_complete_pos =? 0)%nat then None
  else
    let complete_part := firstn last_complete_pos original_response in
    let complete_part := rstrip_char COMMA (rstrip complete_part) in
    Some (complete_part ++ continuation).

Section Pipeline.

Variable json_loads : str -> option json.
Variable post : request_kind -> str -> str -> Z -> exn + reply.
Variable self : AIProcessor.

(** One request: it is logged, then answered. *)
Definition session_post (kind : request_kind) (model prompt : str)
    (max_tokens : Z) : Run reply :=
  tell (Post kind model prompt max_tokens) ;;
  lift (post kind model prompt max_tokens).

Definition _extract_valid_json (response : str) : option str :=
  match find LBRACE response with
  | None => None
  | Some start_brace =>
      let from_start := skipn start_brace response in
      match find_end_brace from_start start_brace 0 with
      | None => None
      | Some end_brace =>
          let potential_json :=
            firstn (end_brace + 1 - start_brace) from_start in
          match json_loads potential_json with
          | Some _ => Some potential_json
          | None => None
          end
      end
  end.

Definition _complete_truncated_json (response : str) : option str :=
  let response := strip response in
  let last_complete := _find_last_complete_structure response in
  if negb (last_complete =? 0)%nat then Some (firstn last_complete response)
  else
    let open_braces := count LBRACE response - count RBRACE response in
    let open_brackets := count LBRACK response - count RBRACK response in
    if (open_braces <? 0) || (open_brackets <? 0) then None
    else
      let completed := response in
      let completed := completed ++ times open_brackets RBRACK in
      let completed := completed ++ times open_braces RBRACE in
      match json_loads completed with
      | Some _ => Some completed
      | None =>
          let fixed := _fix_common_json_issues completed in
          match json_loads fixed with
          | Some _ => Some fixed
          | None => None
          end
      end.

(** The reply of the extraction request and the two truncation checks
    that follow it. *)
Definition _call_openrouter_api (prompt model : str) : Run response_info :=
  let max_tokens :=
    _calculate_max_tokens self model (Z.of_nat (length prompt)) in
  let* response := session_post Extraction model prompt max_tokens in
  if negb (status response =? 200)
  then raise (OpenRouterAPIError (status response) (error_text response))
  else
    let ai_response := content response in
    let* ai_response :=
      if opt_str_eqb (finish_reason response) (u "length")
      then tell (Warn TokenLimitReached) ;;
           ret (_fix_truncated_json ai_response)
      else ret ai_response in
    let* ai_response :=
      if negb (endswith_char (strip ai_response) RBRACE)
      then tell (Warn NoClosingBrace) ;;
           ret (_fix_truncated_json ai_response)
      else ret ai_response in
    ret {| info_content := ai_response;
           info_model_used := model;
           info_finish_reason := finish_reason response |}.

(** [_continue_ai_response]: the continuation text, or [None] when there
    is no balanced prefix to continue from, the reply is not a 200 or the
    request raises. *)
Definition _continue_ai_response (truncated_response original_prompt model : str)
    : Run (option str) :=
  let last_complete_pos := _find_last_complete_structure truncated_response in
  if (last_complete_pos =? 0)%nat then ret None
  else
    let last_complete := firstn last_complete_pos truncated_response in
    catch
      (let max_tokens :=
         Z.min 10000 (limits_get (model_token_limits self) model 8000) in
       let* response :=
         session_post Continuation model (continuation_prompt last_complete)
           max_tokens in
       if negb (status response =? 200) then ret None
       else ret (Some (content response)))
      (fun _ => ret None).

(** [json.loads] as a step: of [None], which is not a string, a
    [TypeError]. *)
Definition loads_step (text : option str) : Run json :=
  match text with
  | None => raise TypeError
  | Some t =>
      match json_loads t with
      | Some v => ret v
      | None => raise JSONDecodeError
      end
  end.

(** The continuation block of [_parse_ai_response]: [Some] of the value
    it returns, [None] when control goes on to the repairs. *)
Definition continuation_stage (ai_response : str)
    (original_prompt model : option str) : Run (option json) :=
  match original_prompt, model with
  | Some prompt, Some m =>
      if nonempty original_prompt && nonempty model
         && _has_valid_starting_structure ai_response
      then
        catch
          (let* continued_response :=
             _continue_ai_response ai_response prompt m in
           match continued_response with
           | Some (c :: cs) =>
               let combined_response :=
                 _concatenate_responses ai_response (c :: cs) in
               let* result := loads_step combined_response in
               let* r := lift (_validate_and_return_result result) in
               ret (Some r)
           | _ => ret None
           end)
          (fun _ => ret None)
      else ret None
  | _, _ => ret None
  end.

(** What each repair function hands to the parser. *)
Definition candidate (a : approach) (ai_response : str) : option str :=
  match a with
  | FixCommonIssues => Some (_fix_common_json_issues ai_response)
  | ExtractValidJson => _extract_valid_json ai_response
  | CompleteTruncatedJson => _complete_truncated_json ai_response
  end.

(** One of the three [try] blocks: [Some] of the value it returns, [None]
    when it falls through to the next.  The first parses whatever the
    substitutions give; the other two parse only a non-empty result. *)
Definition repair_stage (a : approach) (ai_response : str)
    : Run (option json) :=
  catch
    (tell (Repair a ai_response) ;;
     let fixed_response := candidate a ai_response in
     match a, nonempty fixed_response with
     | FixCommonIssues, _ | _, true =>
         let* result := loads_step fixed_response in
         let* r := lift (_validate_and_return_result result) in
         ret (Some r)
     | _, false => ret None
     end)
    (fun _ => ret None).

Definition _parse_ai_response (ai_response : str)
    (original_prompt model : option str) : Run json :=
  match json_loads ai_response with
  | Some result => lift (validate_result NotJsonObject result)
  | None =>
      let* continued := continuation_stage ai_response original_prompt model in
      match continued with
      | Some r => ret r
      | None =>
          let* r1 := repair_stage FixCommonIssues ai_response in
          match r1 with
          | Some r => ret r
          | None =>
              let* r2 := repair_stage ExtractValidJson ai_response in
              match r2 with
              | Some r => ret r
              | None =>
                  let* r3 := repair_stage CompleteTruncatedJson ai_response in
                  match r3 with
                  | Some r => ret r
                  | None => raise (RepairFailed ai_response)
                  end
              end
          end
      end
  end.

(** The body of the [try] block of [_process_cv_single_request] for one
    model. *)
Definition try_model (filename text_content model : str) : Run success :=
  let prompt := _create_cv_prompt filename text_content in
  let* ai_response_info := _call_openrouter_api prompt model in
  let* result :=
    _parse_ai_response (info_content ai_response_info) (Some prompt)
      (Some model) in
  match result with
  | JDict d =>
      if negb (dict_has d PERSONAL_INFORMATION)
      then raise MissingPersonalInformation
      else ret {| ai_data := result; model_used := model |}
  | _ => raise NotADictionary
  end.

(** The loop [for i, model in enumerate(models_to_try)]: a success
    returns, a failure becomes [last_error] and the loop goes on; after
    the last model the [break] leaves the loop just as its end does. *)
Fixpoint models_loop (filename text_content : str) (models : list str)
    (last_error : option exn) : Run (success + option exn) :=
  match models with
  | [] => ret (inr last_error)
  | model :: rest =>
      catch
        (let* r := try_model filename text_content model in ret (inl r))
        (fun e => models_loop filename text_content rest (Some e))
  end.

Definition models_to_try : list str :=
  primary_model self ::
  (if enable_fallback_models self then fallback_models self else []).

Definition text_preview (text_content : str) : str :=
  if 500 <? Z.of_nat (length text_content)
  then firstn 500 text_content ++ u "..."
  else text_content.

(** [_process_cv_single_request]: the loop variable takes the place of
    the [model] argument, which is never read. *)
Definition _process_cv_single_request (filename text_content model : str)
    : Run success :=
  let* outcome := models_loop filename text_content models_to_try None in
  match outcome with
  | inl r => ret r
  | inr last_error =>
      raise (AllModelsFailed last_error (raw_response_of last_error)
               filename (text_preview text_content) models_to_try)
  end.

(** The loop over the fallback models in [process_cv_to_json]. *)
Fixpoint fallback_loop (filename text_content : str) (models : list str)
    (primary_error : exn) : Run success :=
  match models with
  | [] => raise (AllAIModelsFailed primary_error)
  | fallback_model :: rest =>
      catch
        (_process_cv_single_request filename text_content fallback_model)
        (fun _ => fallback_loop filename text_content rest primary_error)
  end.

Definition process_cv_to_json (filename text_content : str) : Run success :=
  catch
    (_process_cv_single_request filename text_content (primary_model self))
    (fun primary_error =>
       if negb (enable_fallback_models self) then raise primary_error
       else fallback_loop filename text_content (fallback_models self)
              primary_error).

End Pipeline.

(** ** Notions used to state the properties *)

(** No stray closer: reading left to right, neither count of closers ever
    exceeds the count of its openers. *)
Fixpoint no_stray_from (s : str) (counts : Z * Z) : bool :=
  match s with
  | [] => true
  | c :: rest =>
      let counts' := scan_char c counts in
      (0 <=? fst counts') && (0 <=? snd counts') && no_stray_from rest counts'
  end.

Definition no_stray_closers (s : str) : bool := no_stray_from s (0, 0).

(** The text with its missing closers appended: as many closing brackets
    as there are unmatched opening brackets, then as many closing braces as
    there are unmatched opening braces. *)
Definition closed_by_appending (s : str) : str :=
  s ++ times (snd (depth s)) RBRACK ++ times (fst (depth s)) RBRACE.

(** A value that counts as empty: Python's false values. *)
Inductive empty_value : json -> Prop :=
| empty_null : empty_value JNull
| empty_false : empty_value (JBool false)
| empty_int : empty_value (JInt 0)
| empty_float f : float_is_zero f = true -> empty_value (JFloat f)
| empty_str : empty_value (JStr [])
| empty_list : empty_value (JList [])
| empty_dict : empty_value (JDict []).

(** The field is absent from the section, or there with an empty value;
    a section that is not an object has no field at all. *)
Definition absent_or_empty (section : json) (field : str) : Prop :=
  match section with
  | JDict d =>
      match dict_get d field with
      | None => True
      | Some v => empty_value v
      end
  | _ => True
  end.

(** The candidate lacks the section, or the section lacks a name. *)
Definition lacks_identity (data : dict) : Prop :=
  match dict_get data PERSONAL_INFORMATION with
  | None => True
  | Some section =>
      absent_or_empty section FIRST_NAME \/ absent_or_empty section LAST_NAME
  end.

Definition fails {A} (r : exn + A) : Prop := exists e, r = inl e.

(** Whether a log holds a truncation warning. *)
Definition warned (log : list event) : bool :=
  existsb (fun e => match e with Warn _ => true | _ => false end) log.

(** A 200 reply with the given text and finish reason. *)
Definition completion (raw : str) (finish : option str) : reply :=
  {| status := 200; error_text := []; content := raw; finish_reason := finish |}.

(** What the truncation check of [_call_openrouter_api] says of a reply
    with the given finish reason and text. *)
Definition reports_truncated (finish : option str) (raw : str) : bool :=
  warned (snd (_call_openrouter_api (fun _ _ _ _ => inr (completion raw finish))
                 default_processor [] [])).

(** The scan never comes back to zero: no non-empty prefix is balanced. *)
Definition never_balanced (raw : str) : Prop :=
  _find_last_complete_structure raw = 0%nat.

(** Whether a pattern matches somewhere in a text. *)
Fixpoint occurs (p : pattern) (s : str) : bool :=
  match s with
  | [] => false
  | _ :: s' =>
      match rx_match p s [] with
      | Some _ => true
      | None => occurs p s'
      end
  end.

(** None of the five patterns of the key-quoting repair occurs. *)
Definition pattern_free (s : str) : bool :=
  negb (occurs KEY_IN_ARRAY s || occurs KEY_AFTER_BRACE s
        || occurs KEY_AFTER_COMMA s || occurs KEY_AFTER_COLON s
        || occurs MISSING_KEY s).

(** The truncated reply of the first example scenario. *)
Definition TRUNCATED_EXAMPLE : str :=
  js "{'personal_information': {'first_name': 'Ana', 'last_name': 'Cruz'}, 'education': [".

(** The repair functions a run applied, with their inputs, in order. *)
Definition repairs (log : list event) : list (approach * str) :=
  flat_map (fun e => match e with Repair a input => [(a, input)] | _ => [] end)
    log.

(** Whether a run posted a continuation request. *)
Definition continuation_posted (log : list event) : bool :=
  existsb (fun e => match e with Post Continuation _ _ _ => true | _ => false end)
    log.

(** The models of the extraction requests of a run, in order. *)
Definition models_invoked (log : list event) : list str :=
  flat_map (fun e => match e with Post Extraction m _ _ => [m] | _ => [] end)
    log.

(** The value a repair function leads to: what it hands over parses and
    passes validation. *)
Definition accepted (json_loads : str -> option json) (a : approach)
    (raw : str) : option json :=
  match candidate json_loads a raw with
  | None => None
  | Some t =>
      match a, t with
      | FixCommonIssues, _ | _, _ :: _ =>
          match json_loads t with
          | Some v =>
              match _validate_and_return_result v with
              | inr r => Some r
              | inl _ => None
              end
          | None => None
          end
      | _, [] => None
      end
  end.

(** The repair functions tried in a given order on one raw text, up to the
    first that is accepted, and the value it leads to. *)
Fixpoint first_accepted (json_loads : str -> option json)
    (order : list approach) (raw : str) : list (approach * str) * option json :=
  match order with
  | [] => ([], None)
  | a :: order' =>
      match accepted json_loads a raw with
      | Some v => ([(a, raw)], Some v)
      | None =>
          let '(tried, v) := first_accepted json_loads order' raw in
          ((a, raw) :: tried, v)
      end
  end.

(** The order of the code: key quoting, extraction, completion. *)
Definition REPAIR_ORDER : list approach :=
  [FixCommonIssues; ExtractValidJson; CompleteTruncatedJson].

(** What a repair function hands over parses. *)
Definition parses (json_loads : str -> option json) (a : approach) (raw : str)
    : bool :=
  match candidate json_loads a raw with
  | Some t => match json_loads t with Some _ => true | None => false end
  | None => false
  end.

(** The repair functions tried in a given order up to the first whose
    result parses. *)
Fixpoint first_parsing (json_loads : str -> option json)
    (order : list approach) (raw : str) : list (approach * str) :=
  match order with
  | [] => []
  | a :: order' =>
      (a, raw) ::
      (if parses json_loads a raw then []
       else first_parsing json_loads order' raw)
  end.

(** The order extraction, key quoting, completion. *)
Definition EXTRACTION_FIRST : list approach :=
  [ExtractValidJson; FixCommonIssues; CompleteTruncatedJson].

(** The continuation text as [_parse_ai_response] reads it: [None] also
    when the call left an empty text. *)
Definition continued (post : request_kind -> str -> str -> Z -> exn + reply)
    (self : AIProcessor) (raw prompt model : str) : option str :=
  match fst (_continue_ai_response post self raw prompt model) with
  | inr (Some (c :: cs)) => Some (c :: cs)
  | _ => None
  end.

(** The reply with an unquoted key of the second example scenario. *)
Definition UNQUOTED_KEY_EXAMPLE : str := js "{ name: 'Ana' }".

(** A remote API that answers every request with a server error. *)
Definition always_500 : request_kind -> str -> str -> Z -> exn + reply :=
  fun _ _ _ _ =>
    inr {| status := 500; error_text := u "error";
           content := []; finish_reason := None |}.

(** A remote API that answers every request with the same completion. *)
Definition answers (raw : str) (finish : option str)
    : request_kind -> str -> str -> Z -> exn + reply :=
  fun _ _ _ _ => inr (completion raw finish).

(** A complete reply, balanced and ending with a closing brace, in which
    one value lacks its quotes. *)
Definition UNQUOTED_VALUE_EXAMPLE : str :=
  js "{'personal_information': {'first_name': Ana, 'last_name': 'Cruz'}}".

(** Whether a run returned rather than raised. *)
Definition succeeded {A} (r : Run A) : bool :=
  match fst r with
  | inr _ => true
  | inl _ => false
  end.

(** The models of a list up to and including the first whose attempt
    succeeds: the whole list when none does. *)
Fixpoint tried_until_success (attempt : str -> Run success)
    (models : list str) : list str :=
  match models with
  | [] => []
  | m :: rest =>
      m :: (if succeeded (attempt m) then []
            else tried_until_success attempt rest)
  end.

(** The outcome of each configured model's attempt, in list order. *)
Definition outcomes (attempt : str -> Run success) (self : AIProcessor)
    : list (exn + success) :=
  map (fun m => fst (attempt m)) (models_to_try self).

(** A remote API that answers the given model with one status and every
    other model with a server error. *)
Definition status_for (model : str) (code : Z)
    : request_kind -> str -> str -> Z -> exn + reply :=
  fun _ m _ _ =>
    inr {| status := if Str.eqb m model then code else 500;
           error_text := u "error"; content := []; finish_reason := None |}.

(** A complete and valid reply. *)
Definition COMPLETE_EXAMPLE : str :=
  js "{'personal_information': {'first_name': 'Ana', 'last_name': 'Cruz'}}".

(** A remote API whose request to the given model times out and which
    answers every other model with the same completion. *)
Definition times_out_for (model raw : str)
    : request_kind -> str -> str -> Z -> exn + reply :=
  fun _ m _ _ =>
    if Str.eqb m model then inl (ClientError (u "timeout"))
    else inr (completion raw (Some (u "stop"))).

(** ** Notions used for the further properties *)

(** The literal characters of a pattern, and whether it has a group. *)
Fixpoint literals (p : pattern) : str :=
  match p with
  | [] => []
  | Lit c :: p' => c :: literals p'
  | _ :: p' => literals p'
  end.

Fixpoint groups (p : pattern) : nat :=
  match p with
  | [] => O
  | Group _ :: p' => S (groups p')
  | _ :: p' => groups p'
  end.

(** No starred class of the pattern holds the character. *)
Fixpoint outside_stars (c : char) (p : pattern) : bool :=
  match p with
  | [] => true
  | Star cls :: p' => negb (cls c) && outside_stars c p'
  | _ :: p' => outside_stars c p'
  end.

(** A record that passed validation: an object whose personal_information
    section is an object with a first and a last name that are not
    empty. *)
Definition valid_record (v : json) : Prop :=
  exists d section first_name last_name,
    v = JDict d
    /\ dict_get d PERSONAL_INFORMATION = Some (JDict section)
    /\ dict_get section FIRST_NAME = Some first_name
    /\ truthy first_name = true
    /\ dict_get section LAST_NAME = Some last_name
    /\ truthy last_name = true.

(** The requests among the events of a log. *)
Definition posts (log : list event) : list event :=
  filter (fun e => match e with Post _ _ _ _ => true | _ => false end) log.

(** The two failures of the workflow when it reads the result of
    [process_cv_to_json]. *)
Inductive workflow_error :=
| NoResponseReturned           (* AI processing failed - no response returned *)
| InvalidResponseStructure.    (* AI processing failed - invalid response structure *)

(** The reading of that result in [process_cv_workflow] and in
    [retry_ai_processing] of [workflow_service.py]: the data under ai_data
    must be true and an object with a personal_information key. *)
Definition workflow_ai_result (ai_result_info : success)
    : workflow_error + dict :=
  let ai_result := ai_data ai_result_info in
  if negb (truthy ai_result) then inl NoResponseReturned
  else
    match ai_result with
    | JDict d =>
        if dict_has d PERSONAL_INFORMATION then inr d
        else inl InvalidResponseStructure
    | _ => inl InvalidResponseStructure
    end.

(** What holds of every request of an extraction: it goes to a configured
    model; an extraction request carries the prompt of the document and
    the budget computed for its model, between 2000 and 30000; a
    continuation request carries a budget of at most 10000. *)
Definition request_in_bounds (self : AIProcessor) (filename text_content : str)
    (e : event) : Prop :=
  match e with
  | Post Extraction m p t =>
      In m (models_to_try self)
      /\ p = _create_cv_prompt filename text_content
      /\ t = _calculate_max_tokens self m (Z.of_nat (length p))
      /\ 2000 <= t <= 30000
  | Post Continuation m p t =>
      In m (models_to_try self) /\ t <= 10000
  | _ => True
  end.


(** What the first model of the list whose attempt succeeds returned. *)
Fixpoint first_success (attempt : str -> Run success) (models : list str)
    : option success :=
  match models with
  | [] => None
  | m :: rest =>
      match fst (attempt m) with
      | inr r => Some r
      | inl _ => first_success attempt rest
      end
  end.

(** ** The key conversion of the workflow

    [_convert_snake_to_camel_case] of [workflow_service.py], applied to
    the record before it is saved.  [capitalize] stands for
    [str.capitalize], whose case tables are those of Unicode and are not
    modelled: what is proved holds for every such function. *)

Definition UNDERSCORE : char := 95%N.

(** [s.split(sep)] for a one-character separator. *)
Fixpoint split (sep : char) (s : str) : list str :=
  match s with
  | [] => [[]]
  | c :: s' =>
      if N.eqb c sep then [] :: split sep s'
      else
        match split sep s' with
        | word :: words => (c :: word) :: words
        | [] => [[c]]
        end
  end.

Section SnakeToCamel.

Variable capitalize : str -> str.

(** The words of the key joined, each but the first capitalized. *)
Definition camel_key (key : str) : str :=
  match split UNDERSCORE key with
  | [] => []
  | word :: words => word ++ concat (map capitalize words)
  end.

Fixpoint _convert_snake_to_camel_case (data : json) : json :=
  match data with
  | JDict members =>
      JDict
        (fold_left
           (fun converted (member : str * json) =>
              let (key, value) := member in
              let camel_key := camel_key key in
              match value with
              | JDict _ =>
                  dict_set converted camel_key
                    (_convert_snake_to_camel_case value)
              | JList items =>
                  dict_set converted camel_key
                    (JList
                       (map (fun item =>
                               match item with
                               | JDict _ => _convert_snake_to_camel_case item
                               | _ => item
                               end) items))
              | _ => dict_set converted camel_key value
              end)
           members [])
  | _ => data
  end.

(** What the conversion stores for a value: a dict converted, a list with
    its dict items converted, anything else as it is. *)
Definition converted_value (value : json) : json :=
  match value with
  | JDict _ => _convert_snake_to_camel_case value
  | JList items =>
      JList
        (map (fun item =>
                match item with
                | JDict _ => _convert_snake_to_camel_case item
                | _ => item
                end) items)
  | _ => value
  end.

End SnakeToCamel.

(** The members of a dict under their converted keys, last first. *)
Definition members_by_camel_key (capitalize : str -> str) (members : dict)
    : dict :=
  rev (map (fun member : str * json =>
              (camel_key capitalize (fst member), snd member)) members).

(** [str.capitalize] on ASCII text: the first letter in upper case, the
    others in lower case. *)
Definition ascii_upper (c : char) : char :=
  if ((97 <=? c) && (c <=? 122))%N then (c - 32)%N else c.

Definition ascii_lower (c : char) : char :=
  if ((65 <=? c) && (c <=? 90))%N then (c + 32)%N else c.

Definition ascii_capitalize (word : str) : str :=
  match word with
  | [] => []
  | c :: rest => ascii_upper c :: map ascii_lower rest
  end.

(** Induction on a value of [json], with the property at hand for the
    items of a list and for the values of a dict. *)
Section JsonInduction.

Variable P : json -> Prop.
Hypothesis HNull : P JNull.
Hypothesis HBool : forall b, P (JBool b).
Hypothesis HInt : forall n, P (JInt n).
Hypothesis HFloat : forall f, P (JFloat f).
Hypothesis HStr : forall s, P (JStr s).
Hypothesis HList : forall items, Forall P items -> P (JList items).
Hypothesis HDict :
  forall members, Forall (fun member => P (snd member)) members ->
                  P (JDict members).

Fixpoint json_induction (v : json) : P v :=
  match v with
  | JNull => HNull
  | JBool b => HBool b
  | JInt n => HInt n
  | JFloat f => HFloat f
  | JStr s => HStr s
  | JList items =>
      HList items
        ((fix all (l : list json) : Forall P l :=
            match l with
            | [] => Forall_nil P
            | x :: l' => Forall_cons x (json_induction x) (all l')
            end) items)
  | JDict members =>
      HDict members
        ((fix all (l : list (str * json))
            : Forall (fun member => P (snd member)) l :=
            match l with
            | [] => Forall_nil _
            | member :: l' =>
                Forall_cons member (json_induction (snd member)) (all l')
            end) members)
  end.

End JsonInduction.

(** ** Properties of the scan *)

Lemma count_app c a b : count c (a ++ b) = count c a + count c b.
Proof. induction a as [|x a IH]; simpl; [reflexivity | rewrite IH; lia]. Qed.

Lemma depth_snoc s c : depth (s ++ [c]) = scan_char c (depth s).
Proof.
  unfold depth, scan_char. rewrite !count_app. simpl.
  unfold LBRACE, RBRACE, LBRACK, RBRACK.
  destruct (N.eqb_spec c 123) as [->|]; [simpl; f_equal; lia|].
  destruct (N.eqb_spec c 125) as [->|]; [simpl; f_equal; lia|].
  destruct (N.eqb_spec c 91) as [->|]; [simpl; f_equal; lia|].
  destruct (N.eqb_spec c 93) as [->|]; simpl; f_equal; lia.
Qed.

Lemma zero_pair_dec (p : Z * Z) :
  (fst p =? 0) && (snd p =? 0) = true <-> p = (0, 0).
Proof.
  destruct p as [a b]; simpl. rewrite andb_true_iff, !Z.eqb_eq.
  split; [intros [-> ->]; reflexivity | intros H; inversion H; auto].
Qed.

(** The loop invariant: [pre] is what has been read, [counts] its depth,
    and [last_complete] the greatest balanced prefix length seen so far. *)
Lemma scan_complete_spec rest : forall pre last,
  (last <= length pre)%nat ->
  balanced (firstn last (pre ++ rest)) ->
  (forall j, (last < j <= length pre)%nat ->
     ~ balanced (firstn j (pre ++ rest))) ->
  let r := scan_complete rest (length pre) (depth pre) last in
  (r <= length (pre ++ rest))%nat /\
  balanced (firstn r (pre ++ rest)) /\
  (forall j, (r < j <= length (pre ++ rest))%nat ->
     ~ balanced (firstn j (pre ++ rest))).
Proof.
  induction rest as [|c rest IH]; intros pre last Hle Hbal Hmax;
    cbn [scan_complete]; cbv zeta.
  - rewrite app_nil_r in *. repeat split; auto.
  - rewrite <- depth_snoc.
    replace (S (length pre)) with (length (pre ++ [c]))
      by (rewrite length_app; simpl; lia).
    assert (Hcut : firstn (length (pre ++ [c])) (pre ++ c :: rest) = pre ++ [c]).
    { replace (pre ++ c :: rest) with ((pre ++ [c]) ++ rest)
        by now rewrite <- app_assoc.
      now rewrite firstn_app, firstn_all, Nat.sub_diag, firstn_O, app_nil_r. }
    replace (pre ++ c :: rest) with ((pre ++ [c]) ++ rest) in *
      by now rewrite <- app_assoc.
    destruct ((fst (depth (pre ++ [c])) =? 0) && (snd (depth (pre ++ [c])) =? 0))
      eqn:E.
    + apply zero_pair_dec in E.
      apply IH; [lia | unfold balanced; now rewrite Hcut | intros j Hj; lia].
    + assert (Hnb : ~ balanced (pre ++ [c])).
      { intros Hb. apply zero_pair_dec in Hb. congruence. }
      apply IH.
      * rewrite length_app; simpl; lia.
      * exact Hbal.
      * intros j Hj. rewrite length_app in Hj; simpl in Hj.
        destruct (Nat.eq_dec j (length (pre ++ [c]))) as [->|Hne].
        -- now rewrite Hcut.
        -- apply Hmax. rewrite length_app in Hne; simpl in Hne. lia.
Qed.

Lemma find_last_complete_structure_bounds (s : str) :
  let i := _find_last_complete_structure s in
  (i <= length s)%nat /\
  balanced (firstn i s) /\
  (forall j, (i < j <= length s)%nat -> ~ balanced (firstn j s)).
Proof.
  pose proof (scan_complete_spec s [] 0%nat) as H. simpl in H.
  apply H; [lia | reflexivity | intros j Hj; lia].
Qed.

(** C10. [_find_last_complete_structure s] is a balanced prefix length of
    [s], no greater prefix length is balanced (so it is 0 when no non-empty
    prefix is balanced), and the prefix it designates has as many opening
    as closing braces and as many opening as closing brackets. *)
Theorem find_last_complete_structure_greatest (s : str) :
  let i := _find_last_complete_structure s in
  (i <= length s)%nat /\
  balanced (firstn i s) /\
  (forall j, (i < j <= length s)%nat -> ~ balanced (firstn j s)) /\
  count LBRACE (firstn i s) = count RBRACE (firstn i s) /\
  count LBRACK (firstn i s) = count RBRACK (firstn i s).
Proof.
  pose proof (scan_complete_spec s [] 0%nat) as H. simpl in H.
  destruct H as (Hle & Hbal & Hmax);
    [lia | reflexivity | intros j Hj; lia |].
  change (scan_complete s 0 (depth []) 0) with (_find_last_complete_structure s)
    in *.
  cbv zeta. repeat split; try assumption.
  - unfold balanced, depth in Hbal. inversion Hbal. lia.
  - unfold balanced, depth in Hbal. inversion Hbal. lia.
Qed.

(** ** The decoder never runs out of fuel *)

Lemma skip_ws_length s : (length (skip_ws s) <= length s)%nat.
Proof.
  induction s as [|c s IH]; simpl; [lia|].
  destruct (is_ws c); simpl; lia.
Qed.

Lemma scanstring_length n : forall s acc t r,
  (length s <= n)%nat -> scanstring s acc = Some (t, r) ->
  (length r < length s)%nat.
Proof.
  induction n as [|n IH]; intros s acc t r Hn H.
  - destruct s; [discriminate | simpl in Hn; lia].
  - destruct s as [|c s1]; [discriminate|]. cbn [scanstring] in H.
    simpl in Hn.
    destruct (c =? DQUOTE)%N; [injection H as _ <-; simpl; lia|].
    destruct (c =? BACKSLASH)%N.
    + destruct s1 as [|e s2]; [discriminate|].
      destruct (e =? 117)%N.
      * destruct s2 as [|h1 [|h2 [|h3 [|h4 s3]]]]; try discriminate.
        destruct (hex4 h1 h2 h3 h4) as [hi|]; [|discriminate].
        assert (Hs3 : forall a, scanstring s3 a = Some (t, r) ->
                        (length r < length (c :: e :: h1 :: h2 :: h3 :: h4 :: s3))%nat).
        { intros a Ha. apply IH in Ha; simpl in *; lia. }
        destruct s3 as [|b [|u' [|l1 [|l2 [|l3 [|l4 s4]]]]]];
          try (now apply Hs3 in H).
        destruct (is_high_surrogate hi && (b =? BACKSLASH)%N && (u' =? 117)%N);
          [|now apply Hs3 in H].
        destruct (hex4 l1 l2 l3 l4) as [lo|]; [|discriminate].
        destruct (is_low_surrogate lo); [|now apply Hs3 in H].
        apply IH in H; simpl in *; lia.
      * destruct (simple_escape e); [|discriminate].
        apply IH in H; simpl in *; lia.
    + destruct (c <=? 31)%N; [discriminate|].
      apply IH in H; simpl in *; lia.
Qed.

Lemma digits_length s : (length (snd (digits s)) <= length s)%nat.
Proof.
  induction s as [|c s IH]; simpl; [lia|].
  destruct (is_digit c); [|simpl; lia].
  destruct (digits s) as [d r]. simpl in *. lia.
Qed.

Lemma int_part_length s d r :
  int_part s = Some (d, r) -> (length r < length s)%nat.
Proof.
  unfold int_part. destruct s as [|c s]; [discriminate|].
  destruct (c =? 48)%N; [intros [= _ <-]; simpl; lia|].
  destruct (is_digit c); [|discriminate].
  pose proof (digits_length s) as H. destruct (digits s) as [d' r'].
  intros [= _ <-]. simpl in *. lia.
Qed.

Lemma frac_part_length s : (length (snd (frac_part s)) <= length s)%nat.
Proof.
  unfold frac_part. destruct s as [|dot s]; [simpl; lia|].
  destruct (dot =? 46)%N; [|simpl; lia].
  pose proof (digits_length s) as H. destruct (digits s) as [[|x d] r];
    simpl in *; lia.
Qed.

Lemma exp_part_length s : (length (snd (exp_part s)) <= length s)%nat.
Proof.
  unfold exp_part. destruct s as [|e s]; [simpl; lia|].
  destruct ((e =? 101) || (e =? 69))%N; [|simpl; lia].
  destruct s as [|c t];
    [|destruct (c =? 45)%N; [|destruct (c =? 43)%N]];
    match goal with
    | |- context [digits ?x] =>
        pose proof (digits_length x); destruct (digits x) as [[|y d] r]
    end; simpl in *; lia.
Qed.

Lemma number_length s v r : number s = Some (v, r) -> (length r < length s)%nat.
Proof.
  unfold number.
  set (p := match s with
            | c :: s' => if (c =? 45)%N then (true, s') else (false, s)
            | [] => (false, s)
            end).
  assert (Hp : (length (snd p) <= length s)%nat).
  { unfold p. destruct s as [|c s']; [simpl; lia|].
    destruct (c =? 45)%N; simpl; lia. }
  destruct p as [neg s0]. simpl in Hp.
  destruct (int_part s0) as [[ip s1]|] eqn:Hi; [|discriminate].
  apply int_part_length in Hi.
  pose proof (frac_part_length s1) as Hf. destruct (frac_part s1) as [fp s2].
  pose proof (exp_part_length s2) as He.
  destruct (exp_part s2) as [[has_exp ex] s3]. simpl in *.
  destruct fp; destruct has_exp; intros [= _ <-]; lia.
Qed.

Lemma startswith_length w s : startswith w s = true -> (length w <= length s)%nat.
Proof.
  revert s. induction w as [|x w IH]; intros s; simpl; [lia|].
  destruct s as [|y s]; [discriminate|].
  intros H. apply andb_true_iff in H as [_ H]. apply IH in H. simpl; lia.
Qed.

Lemma keyword_length w v s v' r :
  w <> [] -> keyword w v s = Some (v', r) -> (length r < length s)%nat.
Proof.
  unfold keyword. intros Hw.
  destruct (startswith w s) eqn:E; [|discriminate].
  apply startswith_length in E. intros [= _ <-].
  rewrite length_skipn. destruct w; [congruence | simpl in *; lia].
Qed.

Lemma atom_length s v r : atom s = Some (v, r) -> (length r < length s)%nat.
Proof.
  unfold atom. destruct s as [|c s']; [discriminate|].
  repeat match goal with
  | |- context [if ?b then _ else _] => destruct b
  end;
  try (apply keyword_length; discriminate); apply number_length.
Qed.

Lemma scan_fuel fuel :
  (forall s, (2 * length s < fuel)%nat ->
     scan_once fuel s <> NoFuel /\
     forall v r, scan_once fuel s = Ok v r -> (length r < length s)%nat) /\
  (forall s acc, (2 * length s < fuel)%nat ->
     object_members fuel s acc <> NoFuel /\
     forall v r, object_members fuel s acc = Ok v r -> (length r < length s)%nat) /\
  (forall s acc, (2 * length s + 1 < fuel)%nat ->
     array_items fuel s acc <> NoFuel /\
     forall v r, array_items fuel s acc = Ok v r -> (length r < length s)%nat).
Proof.
  induction fuel as [|fuel (IHs & IHo & IHa)];
    [repeat split; intros; lia|].
  split; [|split].
  - intros s Hf. cbn [scan_once].
    destruct s as [|c s1]; [split; [discriminate | intros; discriminate]|].
    simpl in Hf.
    destruct (c =? DQUOTE)%N.
    { destruct (scanstring s1 []) as [[t r]|] eqn:E;
        [|split; [discriminate | intros; discriminate]].
      apply (scanstring_length (length s1)) in E; [|lia].
      split; [discriminate|]. intros v r' [= _ <-]. simpl; lia. }
    destruct (c =? LBRACE)%N.
    { pose proof (skip_ws_length s1) as Hw.
      destruct (skip_ws s1) as [|c' s2];
        [split; [discriminate | intros; discriminate]|].
      simpl in Hw.
      destruct (c' =? RBRACE)%N;
        [split; [discriminate | intros v r [= _ <-]; simpl; lia]|].
      destruct (IHo (c' :: s2) []) as [H1 H2]; [simpl; lia|].
      split; [exact H1|]. intros v r H. apply H2 in H. simpl in *; lia. }
    destruct (c =? LBRACK)%N.
    { pose proof (skip_ws_length s1) as Hw.
      destruct (skip_ws s1) as [|c' s2];
        [split; [discriminate | intros; discriminate]|].
      simpl in Hw.
      destruct (c' =? RBRACK)%N;
        [split; [discriminate | intros v r [= _ <-]; simpl; lia]|].
      destruct (IHa (c' :: s2) []) as [H1 H2]; [simpl; lia|].
      split; [exact H1|]. intros v r H. apply H2 in H. simpl in *; lia. }
    destruct (atom (c :: s1)) as [[v r]|] eqn:E;
      [|split; [discriminate | intros; discriminate]].
    apply atom_length in E.
    split; [discriminate | intros v' r' [= _ <-]; exact E].
  - intros s acc Hf. cbn [object_members].
    destruct s as [|q s1]; [split; [discriminate | intros; discriminate]|].
    simpl in Hf.
    destruct (q =? DQUOTE)%N; [|split; [discriminate | intros; discriminate]].
    destruct (scanstring s1 []) as [[key s2]|] eqn:E;
      [|split; [discriminate | intros; discriminate]].
    apply (scanstring_length (length s1)) in E; [|lia].
    pose proof (skip_ws_length s2) as Hw2.
    destruct (skip_ws s2) as [|colon s3];
      [split; [discriminate | intros; discriminate]|].
    simpl in Hw2.
    destruct (colon =? COLON)%N; [|split; [discriminate | intros; discriminate]].
    pose proof (skip_ws_length s3) as Hw3.
    destruct (IHs (skip_ws s3)) as [H1 H2]; [lia|].
    destruct (scan_once fuel (skip_ws s3)) as [v s4| |];
      [|split; [discriminate | intros; discriminate]|congruence].
    specialize (H2 v s4 eq_refl).
    pose proof (skip_ws_length s4) as Hw4.
    destruct (skip_ws s4) as [|d s5];
      [split; [discriminate | intros; discriminate]|].
    simpl in Hw4.
    destruct (d =? RBRACE)%N;
      [split; [discriminate | intros v' r [= _ <-]; simpl; lia]|].
    destruct (d =? COMMA)%N; [|split; [discriminate | intros; discriminate]].
    pose proof (skip_ws_length s5) as Hw5.
    destruct (IHo (skip_ws s5) (dict_set acc key v)) as [H3 H4]; [lia|].
    split; [exact H3|]. intros v' r H. apply H4 in H. simpl; lia.
  - intros s acc Hf. cbn [array_items].
    destruct (IHs s) as [H1 H2]; [lia|].
    destruct (scan_once fuel s) as [v s1| |];
      [|split; [discriminate | intros; discriminate]|congruence].
    specialize (H2 v s1 eq_refl).
    pose proof (skip_ws_length s1) as Hw1.
    destruct (skip_ws s1) as [|d s2];
      [split; [discriminate | intros; discriminate]|].
    simpl in Hw1.
    destruct (d =? RBRACK)%N;
      [split; [discriminate | intros v' r [= _ <-]; lia]|].
    destruct (d =? COMMA)%N; [|split; [discriminate | intros; discriminate]].
    pose proof (skip_ws_length s2) as Hw2.
    destruct (IHa (skip_ws s2) (v :: acc)) as [H3 H4]; [lia|].
    split; [exact H3|]. intros v' r H. apply H4 in H. lia.
Qed.

(** The fuel that [loads] gives is never used up: when it returns [None]
    the text has a syntax error. *)
Lemma loads_fuel s : decode (2 * length s + 2) s <> NoFuel.
Proof.
  unfold decode.
  pose proof (skip_ws_length s) as Hw.
  destruct (proj1 (scan_fuel (2 * length s + 2)) (skip_ws s)) as [H _]; [lia|].
  destruct s as [|c s']; [simpl in *; exact H|].
  destruct (scan_once _ (skip_ws (c :: s'))) as [v r| |]; try congruence;
    repeat match goal with
    | |- context [match ?x with _ => _ end] => destruct x
    end; discriminate.
Qed.

Lemma loads_none s :
  loads s = None <-> decode (2 * length s + 2) s = Invalid.
Proof.
  unfold loads. pose proof (loads_fuel s) as H.
  destruct (decode (2 * length s + 2) s); split; congruence.
Qed.

(** ** The token budget *)

(** C9, as amended.  The budget is never below the floor and never above
    the greater of the floor and what the context window leaves after the
    estimated prompt and the safety buffer; a model that is not in the
    table gets the limit 8192. *)
Theorem calculate_max_tokens_bounds (self : AIProcessor) (model : str)
    (prompt_length : Z) :
  let remaining :=
    limits_get (model_token_limits self) model 8192
    - prompt_length / 4 - SAFETY_BUFFER_TOKENS in
  let max_tokens := _calculate_max_tokens self model prompt_length in
  MIN_MAX_TOKENS <= max_tokens /\
  max_tokens <= Z.max MIN_MAX_TOKENS remaining /\
  (existsb (fun kv => Str.eqb (fst kv) model) (model_token_limits self) = false ->
   limits_get (model_token_limits self) model 8192 = 8192).
Proof.
  cbv zeta. unfold _calculate_max_tokens. repeat split; try lia.
  induction (model_token_limits self) as [|[k v] t IH]; simpl; [reflexivity|].
  destruct (Str.eqb k model); simpl; [discriminate | exact IH].
Qed.

Lemma calculate_max_tokens_bounds_witness :
  limits_get (model_token_limits default_processor) (u "some/model") 8192 = 8192.
Proof.
  apply (calculate_max_tokens_bounds default_processor (u "some/model") 0).
  vm_compute. reflexivity.
Defined.

(** C9 as stated fails: for the 8192-token model and a prompt of 40000
    characters the budget is the floor, 2000, although the window leaves
    less than nothing. *)
Lemma calculate_max_tokens_exceeds_remaining :
  ~ (forall self model prompt_length, 0 <= prompt_length ->
       MIN_MAX_TOKENS <= _calculate_max_tokens self model prompt_length /\
       _calculate_max_tokens self model prompt_length
       <= limits_get (model_token_limits self) model 8192
          - prompt_length / 4 - SAFETY_BUFFER_TOKENS).
Proof.
  intros H.
  specialize (H default_processor (u "meta-llama/llama-3.1-8b-instruct") 40000).
  vm_compute in H. destruct H as [_ H]; [discriminate|]. apply H. reflexivity.
Qed.

(** ** Validation *)

Lemma falsy_spec (v : option json) :
  falsy v = true <-> match v with None => True | Some x => empty_value x end.
Proof.
  destruct v as [x|]; simpl; [|tauto].
  rewrite negb_true_iff. split.
  - destruct x as [|b|n|f|t|l|d]; simpl; intros H.
    + constructor.
    + destruct b; [discriminate | constructor].
    + apply negb_false_iff, Z.eqb_eq in H. subst. constructor.
    + apply negb_false_iff in H. now constructor.
    + destruct t; [constructor | discriminate].
    + destruct l; [constructor | discriminate].
    + destruct d; [constructor | discriminate].
  - intros H; inversion H; subst; simpl; try reflexivity.
    now apply negb_false_iff.
Qed.

Lemma check_personal_dict (d : dict) (fields : list (str * pytype)) :
  exists ws, check_personal (JDict d) fields = inr ws.
Proof.
  induction fields as [|[field t] fields [ws IH]]; simpl; [eauto|].
  rewrite IH. eauto.
Qed.

Lemma required_fields_section (data : dict) :
  _validate_required_fields data = inr tt ->
  exists d, dict_get data PERSONAL_INFORMATION = Some (JDict d).
Proof.
  unfold _validate_required_fields.
  destruct (dict_get data PERSONAL_INFORMATION) as [section|]; [|discriminate].
  destruct section; simpl; try discriminate. eauto.
Qed.

Lemma required_fields_spec (data : dict) :
  fails (_validate_required_fields data) <-> lacks_identity data.
Proof.
  unfold fails, _validate_required_fields, lacks_identity.
  destruct (dict_get data PERSONAL_INFORMATION) as [section|];
    [|split; eauto].
  destruct section as [| | | | | |d]; simpl;
    try (split; [intros _; left; exact I | intros _; eauto]).
  pose proof (falsy_spec (dict_get d FIRST_NAME)) as F.
  pose proof (falsy_spec (dict_get d LAST_NAME)) as L.
  destruct (falsy (dict_get d FIRST_NAME)).
  - split; [intros _; left; now apply F | eauto].
  - destruct (falsy (dict_get d LAST_NAME)).
    + split; [intros _; right; now apply L | eauto].
    + split.
      * intros [e He]. discriminate.
      * intros [H|H]; [apply F in H | apply L in H]; discriminate.
Qed.

Lemma format_after_required (data : dict) :
  _validate_required_fields data = inr tt ->
  exists ws, _validate_json_format data = inr ws.
Proof.
  intros H. destruct (required_fields_section data H) as [d Hd].
  unfold _validate_json_format. rewrite Hd.
  destruct (check_personal_dict d expected_personal_fields) as [ws ->]. eauto.
Qed.

(** C6.  Validation of a parsed object fails exactly when it lacks the
    personal_information section or that section's first_name or last_name
    is absent or empty.  This holds of [_validate_required_fields] and of
    the whole validation, so no other field, whatever its type, makes a
    candidate fail or lets one without a name pass. *)
Theorem validation_fails_iff_identity_missing (data : dict) :
  (fails (_validate_required_fields data) <-> lacks_identity data) /\
  (fails (_validate_and_return_result (JDict data)) <-> lacks_identity data) /\
  (fails (validate_result NotJsonObject (JDict data)) <-> lacks_identity data).
Proof.
  pose proof (required_fields_spec data) as R.
  assert (V : forall e0, fails (validate_result e0 (JDict data))
                         <-> lacks_identity data).
  { intros e0. rewrite <- R. unfold fails, validate_result.
    destruct (_validate_required_fields data) as [e|[]] eqn:E.
    - split; eauto.
    - destruct (format_after_required data E) as [ws ->].
      split; intros [e He]; discriminate. }
  split; [exact R|]. split; apply V.
Qed.

(** ** Completion by closing *)

Lemma str_eqb_eq (a b : str) : Str.eqb a b = true <-> a = b.
Proof.
  revert b. induction a as [|x a IH]; intros [|y b]; simpl;
    try (split; [discriminate | intros H; inversion H]); [tauto|].
  rewrite andb_true_iff, N.eqb_eq, IH.
  split; [intros [-> ->]; reflexivity | intros H; inversion H; auto].
Qed.

Lemma count_lstrip c s : isspace c = false -> count c (lstrip s) = count c s.
Proof.
  intros Hc. induction s as [|x s IH]; simpl; [reflexivity|].
  destruct (isspace x) eqn:Hx; [|reflexivity].
  rewrite IH. destruct (N.eqb_spec x c) as [->|]; [congruence | lia].
Qed.

Lemma count_rev c s : count c (rev s) = count c s.
Proof.
  induction s as [|x s IH]; simpl; [reflexivity|].
  rewrite count_app, IH. simpl. lia.
Qed.

Lemma count_strip c s : isspace c = false -> count c (strip s) = count c s.
Proof.
  intros Hc. unfold strip, rstrip.
  now rewrite count_rev, count_lstrip, count_rev, count_lstrip.
Qed.

Lemma depth_strip s : depth (strip s) = depth s.
Proof. unfold depth. now rewrite !count_strip by reflexivity. Qed.

Lemma count_times c x n :
  count c (times n x) = if N.eqb x c then Z.max 0 n else 0.
Proof.
  unfold times. destruct (N.eqb x c) eqn:E.
  - rewrite <- (Z2Nat.id (Z.max 0 n)) by lia.
    replace (Z.to_nat (Z.max 0 n)) with (Z.to_nat n) by lia.
    induction (Z.to_nat n) as [|k IH]; simpl; [reflexivity|].
    rewrite E, IH. lia.
  - induction (Z.to_nat n) as [|k IH]; simpl; [reflexivity|].
    rewrite E, IH. reflexivity.
Qed.

Lemma depth_closed_by_appending s :
  0 <= fst (depth s) -> 0 <= snd (depth s) ->
  depth (closed_by_appending s) = (0, 0).
Proof.
  unfold closed_by_appending, depth. simpl. intros Hb Hk.
  rewrite !count_app, !count_times. simpl. f_equal; lia.
Qed.

Lemma no_stray_from_nonneg rest : forall pre,
  0 <= fst (depth pre) -> 0 <= snd (depth pre) ->
  no_stray_from rest (depth pre) = true ->
  0 <= fst (depth (pre ++ rest)) /\ 0 <= snd (depth (pre ++ rest)).
Proof.
  induction rest as [|c rest IH]; intros pre Hb Hk H.
  - now rewrite app_nil_r.
  - cbn [no_stray_from] in H. cbv zeta in H. rewrite <- depth_snoc in H.
    apply andb_true_iff in H as [H Hrest]. apply andb_true_iff in H as [H1 H2].
    replace (pre ++ c :: rest) with ((pre ++ [c]) ++ rest)
      by now rewrite <- app_assoc.
    apply IH; [lia | lia | exact Hrest].
Qed.

Lemma no_stray_closers_nonneg s :
  no_stray_closers s = true -> 0 <= fst (depth s) /\ 0 <= snd (depth s).
Proof.
  intros H. apply (no_stray_from_nonneg s []); simpl; try lia. exact H.
Qed.

(** C3, as amended.  Let a text have no stray closer.  When its stripped
    form has no non-empty balanced prefix, [_fix_truncated_json] returns the
    stripped text followed by one closing bracket per unmatched opening
    bracket and then one closing brace per unmatched opening brace, and so
    does [_complete_truncated_json] when that text parses.  Otherwise both
    return the longest balanced prefix of the stripped text and append
    nothing.  Either way the result has depth zero. *)
Theorem completion_by_closing (json_loads : str -> option json) (s : str) :
  no_stray_closers s = true ->
  let r := strip s in
  let offset := _find_last_complete_structure r in
  depth r = depth s /\
  (offset = 0%nat ->
     _fix_truncated_json s = closed_by_appending r /\
     depth (closed_by_appending r) = (0, 0) /\
     (json_loads (closed_by_appending r) <> None ->
      _complete_truncated_json json_loads s = Some (closed_by_appending r))) /\
  (offset <> 0%nat ->
     _fix_truncated_json s = firstn offset r /\
     _complete_truncated_json json_loads s = Some (firstn offset r) /\
     depth (firstn offset r) = (0, 0)).
Proof.
  intros Hs r offset.
  pose proof (depth_strip s) as Hd. fold r in Hd.
  destruct (no_stray_closers_nonneg s Hs) as [Hb Hk]. rewrite <- Hd in Hb, Hk.
  split; [exact Hd|]. split.
  - intros H0.
    assert (Hfix : _fix_truncated_json s = closed_by_appending r).
    { unfold _fix_truncated_json. fold r.
      change (scan_complete r 0 (0, 0) 0) with offset. rewrite H0. simpl.
      unfold closed_by_appending, depth. simpl. now rewrite <- app_assoc. }
    split; [exact Hfix|]. split; [now apply depth_closed_by_appending|].
    intros Hp. unfold _complete_truncated_json. fold r. fold offset.
    rewrite H0. simpl.
    unfold depth in Hb, Hk. simpl in Hb, Hk.
    replace (count LBRACE r - count RBRACE r <? 0) with false
      by (symmetry; apply Z.ltb_ge; lia).
    replace (count LBRACK r - count RBRACK r <? 0) with false
      by (symmetry; apply Z.ltb_ge; lia).
    simpl.
    replace ((r ++ times (count LBRACK r - count RBRACK r) RBRACK)
             ++ times (count LBRACE r - count RBRACE r) RBRACE)
      with (closed_by_appending r)
      by (unfold closed_by_appending, depth; simpl; now rewrite <- app_assoc).
    destruct (json_loads (closed_by_appending r)); [reflexivity | congruence].
  - intros Hn.
    destruct (find_last_complete_structure_bounds r) as (_ & Hbal & _).
    fold offset in Hbal.
    assert (Hpos : (0 <? offset)%nat = true) by (apply Nat.ltb_lt; lia).
    assert (Hz : (offset =? 0)%nat = false) by (apply Nat.eqb_neq; exact Hn).
    repeat split.
    + unfold _fix_truncated_json. fold r.
      change (scan_complete r 0 (0, 0) 0) with offset. now rewrite Hpos.
    + unfold _complete_truncated_json. fold r. fold offset. now rewrite Hz.
    + exact Hbal.
Qed.

Lemma completion_by_closing_witness :
  _fix_truncated_json TRUNCATED_EXAMPLE
  = closed_by_appending (strip TRUNCATED_EXAMPLE)
  /\ _complete_truncated_json loads TRUNCATED_EXAMPLE
     = Some (TRUNCATED_EXAMPLE ++ js "]}").
Proof.
  destruct (completion_by_closing loads TRUNCATED_EXAMPLE eq_refl)
    as (_ & H & _).
  destruct (H eq_refl) as (Hfix & _ & Hcomplete).
  split; [exact Hfix|]. apply Hcomplete. vm_compute. discriminate.
Defined.

(** C3 as stated fails: the text of an object followed by an opening brace
    has one unmatched brace and no stray closer, yet both functions return
    the object alone and append nothing. *)
Lemma completion_by_closing_drops_the_tail :
  ~ (forall s, no_stray_closers s = true ->
       _complete_truncated_json loads s = Some (closed_by_appending s))
  /\ ~ (forall s, no_stray_closers s = true ->
          _fix_truncated_json s = closed_by_appending s).
Proof.
  split; intros H; specialize (H (js "{}{") eq_refl);
    vm_compute in H; discriminate.
Qed.

(** ** The truncation check *)

Lemma opt_str_eqb_eq (a : option str) (b : str) :
  opt_str_eqb a b = true <-> a = Some b.
Proof.
  destruct a as [x|]; simpl; [|split; discriminate].
  rewrite str_eqb_eq. split; [now intros -> | now intros [= ->]].
Qed.

(** C2, as amended.  On a 200 reply [_call_openrouter_api] warns of a
    truncation exactly when the finish reason is length or the stripped
    text does not end with a closing brace; when it does not warn, the text
    is returned as it came and its stripped form ends with a closing
    brace. *)
Theorem truncation_check_exact
    (post : request_kind -> str -> str -> Z -> exn + reply)
    (self : AIProcessor) (prompt model : str) (r : reply) :
  post Extraction model prompt
    (_calculate_max_tokens self model (Z.of_nat (length prompt))) = inr r ->
  status r = 200 ->
  let run := _call_openrouter_api post self prompt model in
  (warned (snd run) = true <->
     finish_reason r = Some (u "length")
     \/ endswith_char (strip (content r)) RBRACE = false) /\
  (warned (snd run) = false ->
     endswith_char (strip (content r)) RBRACE = true /\
     exists info, fst run = inr info /\ info_content info = content r).
Proof.
  intros Hpost Hstatus. cbv zeta.
  unfold _call_openrouter_api, session_post, bind, tell, lift, ret.
  rewrite Hpost, Hstatus. simpl.
  pose proof (opt_str_eqb_eq (finish_reason r) (u "length")) as Hfin.
  destruct (opt_str_eqb (finish_reason r) (u "length")) eqn:Efin; simpl.
  - split.
    + split; [intros _; left; now apply Hfin|].
      intros _. destruct (endswith_char _ RBRACE); reflexivity.
    + destruct (endswith_char (strip (_fix_truncated_json (content r))) RBRACE);
        simpl; discriminate.
  - destruct (endswith_char (strip (content r)) RBRACE) eqn:Eend; simpl.
    + split.
      * split; [discriminate|]. intros [H|H]; [|discriminate].
        apply Hfin in H. discriminate.
      * intros _. split; [reflexivity|]. eexists. split; reflexivity.
    + split; [|discriminate]. split; [intros _; now right | reflexivity].
Qed.

Lemma truncation_check_exact_witness :
  warned (snd (_call_openrouter_api
                 (fun _ _ _ _ => inr (completion TRUNCATED_EXAMPLE (Some (u "length"))))
                 default_processor [] [])) = true.
Proof.
  apply (truncation_check_exact
           (fun _ _ _ _ => inr (completion TRUNCATED_EXAMPLE (Some (u "length"))))
           default_processor [] [] _ eq_refl eq_refl).
  left. reflexivity.
Defined.

(** C2 as stated fails: a reply that stops normally with two opening braces
    and one closing brace is not reported, although its scan never comes
    back to zero and its depth at the end is one. *)
Lemma truncation_check_ignores_depth :
  ~ (forall finish raw,
       (reports_truncated finish raw = true <->
          finish = Some (u "length")
          \/ endswith_char (strip raw) RBRACE = false
          \/ never_balanced raw)
       /\ (reports_truncated finish raw = false -> depth raw = (0, 0))).
Proof.
  intros H. destruct (H (Some (u "stop")) (js "{{}")) as [_ Hdepth].
  specialize (Hdepth eq_refl). vm_compute in Hdepth. discriminate.
Qed.

(** ** Repairing twice *)

Lemma find_skipn c s i :
  find c s = Some i -> exists rest, skipn i s = c :: rest.
Proof.
  revert i. induction s as [|x s IH]; intros i; simpl; [discriminate|].
  destruct (N.eqb_spec x c) as [->|_].
  - intros [= <-]. simpl. eauto.
  - destruct (find c s) as [j|]; [|discriminate].
    intros [= <-]. simpl. now apply IH.
Qed.

(** The closing brace is found inside the text, and looking for it in the
    text cut right after it finds it again, whatever the index the count
    starts from. *)
Lemma find_end_brace_prefix t : forall i i' n j,
  find_end_brace t i n = Some j ->
  (i <= j)%nat /\ (j - i < length t)%nat /\
  find_end_brace (firstn (j + 1 - i) t) i' n = Some (i' + (j - i))%nat.
Proof.
  induction t as [|c t IH]; intros i i' n j; simpl; [discriminate|].
  assert (Hstep : forall m, find_end_brace t (S i) m = Some j ->
            (i <= j)%nat /\ (j - i < S (length t))%nat /\
            firstn (j + 1 - i) (c :: t) = c :: firstn (j + 1 - S i) t /\
            find_end_brace (firstn (j + 1 - S i) t) (S i') m
            = Some (i' + (j - i))%nat).
  { intros m Hm. destruct (IH (S i) (S i') m j Hm) as (H1 & H2 & H3).
    repeat split; try lia.
    - replace (j + 1 - i)%nat with (S (j + 1 - S i)) by lia. reflexivity.
    - rewrite H3. f_equal. lia. }
  destruct (N.eqb c LBRACE) eqn:EL.
  - intros H. destruct (Hstep _ H) as (H1 & H2 & H3 & H4).
    repeat split; try assumption. rewrite H3. simpl. now rewrite EL.
  - destruct (N.eqb c RBRACE) eqn:ER.
    + destruct (n - 1 =? 0) eqn:E0.
      * intros [= <-]. repeat split; try lia.
        replace (i + 1 - i)%nat with 1%nat by lia. simpl.
        rewrite EL, ER, E0. f_equal. lia.
      * intros H. destruct (Hstep _ H) as (H1 & H2 & H3 & H4).
        repeat split; try assumption. rewrite H3. simpl.
        now rewrite EL, ER, E0.
    + intros H. destruct (Hstep _ H) as (H1 & H2 & H3 & H4).
      repeat split; try assumption. rewrite H3. simpl. now rewrite EL, ER.
Qed.

Lemma extract_valid_json_idempotent (json_loads : str -> option json) s e :
  _extract_valid_json json_loads s = Some e ->
  _extract_valid_json json_loads e = Some e.
Proof.
  unfold _extract_valid_json.
  destruct (find LBRACE s) as [start|] eqn:Hstart; [|discriminate].
  destruct (find_skipn _ _ _ Hstart) as [rest Hrest]. rewrite Hrest.
  destruct (find_end_brace (LBRACE :: rest) start 0) as [stop|] eqn:Hstop;
    [|discriminate].
  destruct (find_end_brace_prefix _ _ 0%nat _ _ Hstop) as (H1 & H2 & H3).
  set (k := (stop + 1 - start)%nat) in *.
  destruct (json_loads (firstn k (LBRACE :: rest))) eqn:Hparse; [|discriminate].
  intros [= <-].
  assert (Hk : exists k', k = S k') by (exists (stop - start)%nat; lia).
  destruct Hk as [k' Hk]. rewrite Hk in *. simpl firstn in *.
  cbn [find]. rewrite N.eqb_refl. cbn [skipn]. rewrite H3.
  replace (0 + (stop - start) + 1 - 0)%nat with (S k') by lia.
  cbn [firstn]. rewrite firstn_firstn, Nat.min_id. now rewrite Hparse.
Qed.

Lemma sub_from_no_match p repl s :
  occurs p s = false -> sub_from p repl s 0 = s.
Proof.
  induction s as [|c s IH]; [reflexivity|].
  cbn [occurs sub_from].
  destruct (rx_match p (c :: s) []) as [[g rest]|]; [discriminate|].
  intros H. now rewrite IH.
Qed.

Lemma fix_common_pattern_free s :
  pattern_free s = true -> _fix_common_json_issues s = s.
Proof.
  unfold pattern_free. rewrite negb_true_iff, !orb_false_iff.
  intros ((((H1 & H2) & H3) & H4) & H5).
  unfold _fix_common_json_issues, sub. cbv zeta.
  rewrite (sub_from_no_match KEY_IN_ARRAY _ s H1).
  rewrite (sub_from_no_match KEY_AFTER_BRACE _ s H2).
  rewrite (sub_from_no_match KEY_AFTER_COMMA _ s H3).
  rewrite (sub_from_no_match KEY_AFTER_COLON _ s H4).
  exact (sub_from_no_match MISSING_KEY _ s H5).
Qed.

Lemma lstrip_head s :
  lstrip s = [] \/ exists x t, lstrip s = x :: t /\ isspace x = false.
Proof.
  induction s as [|c s IH]; [now left|]. simpl.
  destruct (isspace c) eqn:E; [exact IH | right; eauto].
Qed.

Lemma lstrip_snoc l x :
  isspace x = false -> exists w, lstrip (l ++ [x]) = w ++ [x].
Proof.
  intros Hx. induction l as [|c l [w IH]]; simpl.
  - rewrite Hx. now exists [].
  - destruct (isspace c); [eauto | now exists (c :: l)].
Qed.

Lemma rstrip_head x t :
  isspace x = false -> exists t', rstrip (x :: t) = x :: t'.
Proof.
  intros Hx. unfold rstrip. simpl.
  destruct (lstrip_snoc (rev t) x Hx) as [w ->].
  rewrite rev_app_distr. simpl. eauto.
Qed.

(** A stripped text is empty or starts with a character that is not
    whitespace, and stripping a text that starts so keeps its start. *)
Lemma strip_head s :
  strip s = [] \/ exists x t, strip s = x :: t /\ isspace x = false.
Proof.
  unfold strip.
  destruct (lstrip_head s) as [-> | (x & t & -> & Hx)]; [now left|].
  destruct (rstrip_head x t Hx) as [t' ->]. right; eauto.
Qed.

Lemma strip_keeps_head x t :
  isspace x = false -> exists t', strip (x :: t) = x :: t'.
Proof.
  intros Hx. unfold strip. cbn [lstrip]. rewrite Hx.
  now apply rstrip_head.
Qed.

Lemma complete_truncated_json_again (json_loads : str -> option json) s out :
  _find_last_complete_structure (strip s) <> 0%nat ->
  _complete_truncated_json json_loads s = Some out ->
  _complete_truncated_json json_loads out = Some (strip out).
Proof.
  intros Hn Hout. unfold _complete_truncated_json in Hout.
  pose proof Hn as Hz. apply Nat.eqb_neq in Hz. rewrite Hz in Hout.
  simpl in Hout. injection Hout as <-.
  set (r := strip s) in *. set (n := _find_last_complete_structure r) in *.
  destruct (find_last_complete_structure_bounds r) as (Hlen & Hbal & _).
  fold n in Hbal, Hlen.
  assert (Hne : strip (firstn n r) <> []).
  { destruct (strip_head s) as [E | (x & t & E & Hx)]; fold r in E;
      rewrite E in *.
    - cbn in Hlen. lia.
    - destruct n as [|n']; [congruence|]. cbn [firstn].
      destruct (strip_keeps_head x (firstn n' t) Hx) as [t' ->].
      discriminate. }
  remember (strip (firstn n r)) as o eqn:Eo.
  assert (Ho : balanced o).
  { unfold balanced. rewrite Eo, depth_strip. exact Hbal. }
  destruct (find_last_complete_structure_bounds o) as (Hle & _ & Hmax).
  assert (Hfull : _find_last_complete_structure o = length o).
  { destruct (Nat.eq_dec (_find_last_complete_structure o) (length o))
      as [E|E]; [exact E|].
    exfalso. apply (Hmax (length o)); [lia|]. now rewrite firstn_all. }
  unfold _complete_truncated_json. rewrite <- Eo, Hfull, firstn_all.
  destruct o as [|c o']; [congruence | reflexivity].
Qed.

(** ** The repair chain of [_parse_ai_response] *)

Section ParseProperties.

Variable json_loads : str -> option json.
Variable post : request_kind -> str -> str -> Z -> exn + reply.
Variable self : AIProcessor.

Lemma repair_stage_spec a raw :
  repair_stage json_loads a raw = (inr (accepted json_loads a raw), [Repair a raw]).
Proof.
  unfold repair_stage, accepted, catch, bind, tell, loads_step, lift, ret, raise.
  destruct a; cbn [candidate nonempty];
    [ | destruct (_extract_valid_json json_loads raw) as [[|c t]|]
      | destruct (_complete_truncated_json json_loads raw) as [[|c t]|] ];
    repeat match goal with
    | |- context [json_loads ?t] => destruct (json_loads t)
    | |- context [_validate_and_return_result ?v] =>
        destruct (_validate_and_return_result v)
    end; reflexivity.
Qed.

Lemma continue_ai_response_run raw prompt model :
  exists c log, _continue_ai_response post self raw prompt model = (inr c, log)
    /\ repairs log = [] /\ models_invoked log = [].
Proof.
  unfold _continue_ai_response.
  destruct (_find_last_complete_structure raw =? 0)%nat;
    [do 2 eexists; repeat split; reflexivity|].
  unfold catch, bind, session_post, tell, lift, ret, bind.
  destruct (post Continuation model _ _) as [e|r]; simpl;
    [do 2 eexists; repeat split; reflexivity|].
  destruct (negb (status r =? 200)); do 2 eexists; repeat split; reflexivity.
Qed.

Lemma continuation_stage_run raw prompt model :
  exists v log,
    continuation_stage json_loads post self raw prompt model = (inr v, log)
    /\ repairs log = [] /\ models_invoked log = [].
Proof.
  unfold continuation_stage.
  destruct prompt as [p|]; [|do 2 eexists; repeat split; reflexivity].
  destruct model as [m|]; [|do 2 eexists; repeat split; reflexivity].
  destruct (nonempty (Some p) && nonempty (Some m)
            && _has_valid_starting_structure raw);
    [|do 2 eexists; repeat split; reflexivity].
  destruct (continue_ai_response_run raw p m) as (c & log & -> & Hr & Hw).
  unfold catch, bind, loads_step, lift, ret, raise.
  destruct c as [[|c cs]|];
    try (do 2 eexists; repeat split; rewrite ?app_nil_r; eassumption).
  destruct (_concatenate_responses raw (c :: cs)) as [t|];
    [|do 2 eexists; repeat split; rewrite ?app_nil_r; eassumption].
  destruct (json_loads t) as [v|];
    [|do 2 eexists; repeat split; rewrite ?app_nil_r; eassumption].
  destruct (_validate_and_return_result v);
    do 2 eexists; repeat split; rewrite ?app_nil_r; eassumption.
Qed.

Lemma repairs_app a b : repairs (a ++ b) = repairs a ++ repairs b.
Proof. unfold repairs. apply flat_map_app. Qed.

(** When the direct parse fails and the continuation block returns
    nothing, the run is the chain of the three repair blocks. *)
Lemma parse_falls_to_repairs raw prompt model :
  json_loads raw = None ->
  fst (continuation_stage json_loads post self raw prompt model) = inr None ->
  let run := _parse_ai_response json_loads post self raw prompt model in
  repairs (snd run) = fst (first_accepted json_loads REPAIR_ORDER raw) /\
  fst run = match snd (first_accepted json_loads REPAIR_ORDER raw) with
            | Some v => inr v
            | None => inl (RepairFailed raw)
            end.
Proof.
  intros Hraw Hcont. cbv zeta. unfold _parse_ai_response. rewrite Hraw.
  destruct (continuation_stage_run raw prompt model) as (v & log & E & Hr & _).
  rewrite E in *. simpl in Hcont. injection Hcont as ->.
  unfold bind at 1. rewrite !repair_stage_spec.
  unfold REPAIR_ORDER. cbn [first_accepted].
  unfold bind, ret, raise.
  destruct (accepted json_loads FixCommonIssues raw); simpl;
    [rewrite repairs_app, Hr; split; reflexivity|].
  destruct (accepted json_loads ExtractValidJson raw); simpl;
    [rewrite repairs_app, Hr; split; reflexivity|].
  destruct (accepted json_loads CompleteTruncatedJson raw); simpl;
    rewrite repairs_app, Hr; split; reflexivity.
Qed.


(** The chain starts with key quoting, and every repair function gets the
    raw text. *)
Lemma repair_order_chain raw prompt model :
  json_loads raw = None ->
  fst (continuation_stage json_loads post self raw prompt model) = inr None ->
  exists rest,
    repairs (snd (_parse_ai_response json_loads post self raw prompt model))
    = (FixCommonIssues, raw) :: rest
    /\ Forall (fun p => snd p = raw) rest.
Proof.
  intros Hraw Hcont.
  destruct (parse_falls_to_repairs raw prompt model Hraw Hcont) as [-> _].
  unfold REPAIR_ORDER. cbn [first_accepted].
  destruct (accepted json_loads FixCommonIssues raw);
    [eexists; split; [reflexivity | constructor]|].
  destruct (accepted json_loads ExtractValidJson raw);
    [eexists; split; [reflexivity | repeat constructor]|].
  destruct (accepted json_loads CompleteTruncatedJson raw);
    eexists; split; try reflexivity; repeat constructor.
Qed.

(** C4, as amended.  When the direct parse fails and the continuation block
    returns nothing, the repair functions are applied in the order key
    quoting, extraction by matching braces, completion by closing, each to
    the raw text itself, up to the first whose result parses and passes
    validation; its value is returned, and when there is none the failure
    carries the raw text. *)
Theorem repair_order raw prompt model :
  json_loads raw = None ->
  fst (continuation_stage json_loads post self raw prompt model) = inr None ->
  let run := _parse_ai_response json_loads post self raw prompt model in
  let tried := repairs (snd run) in
  tried = fst (first_accepted json_loads REPAIR_ORDER raw) /\
  (exists n, (1 <= n)%nat /\ map fst tried = firstn n REPAIR_ORDER) /\
  Forall (fun p => snd p = raw) tried /\
  fst run = match snd (first_accepted json_loads REPAIR_ORDER raw) with
            | Some v => inr v
            | None => inl (RepairFailed raw)
            end.
Proof.
  intros Hraw Hcont.
  destruct (parse_falls_to_repairs raw prompt model Hraw Hcont) as [Hlog Hres].
  cbv zeta. rewrite Hlog. split; [reflexivity|]. split; [|split; [|exact Hres]].
  - unfold REPAIR_ORDER. cbn [first_accepted].
    destruct (accepted json_loads FixCommonIssues raw);
      [exists 1%nat; split; [lia | reflexivity]|].
    destruct (accepted json_loads ExtractValidJson raw);
      [exists 2%nat; split; [lia | reflexivity]|].
    destruct (accepted json_loads CompleteTruncatedJson raw);
      exists 3%nat; split; try lia; reflexivity.
  - unfold REPAIR_ORDER. cbn [first_accepted].
    destruct (accepted json_loads FixCommonIssues raw);
      [repeat constructor|].
    destruct (accepted json_loads ExtractValidJson raw);
      [repeat constructor|].
    destruct (accepted json_loads CompleteTruncatedJson raw);
      repeat constructor.
Qed.

Lemma continuation_posted_app a b :
  continuation_posted (a ++ b) = continuation_posted a || continuation_posted b.
Proof. unfold continuation_posted. apply existsb_app. Qed.

Lemma has_valid_starting_structure_found raw :
  _has_valid_starting_structure raw = true -> (2 <= found_elements raw)%nat.
Proof.
  unfold _has_valid_starting_structure.
  destruct (find LBRACE raw); [|discriminate]. apply Nat.leb_le.
Qed.

Lemma continuation_stage_gate raw prompt model :
  continuation_posted
    (snd (continuation_stage json_loads post self raw prompt model)) = true ->
  nonempty prompt = true /\ nonempty model = true /\
  _has_valid_starting_structure raw = true.
Proof.
  unfold continuation_stage.
  destruct prompt as [p|]; [|discriminate].
  destruct model as [m|]; [|discriminate].
  destruct (nonempty (Some p)); [|discriminate].
  destruct (nonempty (Some m)); [|discriminate].
  destruct (_has_valid_starting_structure raw); [auto | discriminate].
Qed.

(** The three ways in which the continuation block returns nothing. *)
Lemma continuation_stage_none raw prompt model :
  (nonempty prompt && nonempty model && _has_valid_starting_structure raw
   = false
   \/ exists p m, prompt = Some p /\ model = Some m /\
        (continued post self raw p m = None
         \/ exists c t, continued post self raw p m = Some c
              /\ _concatenate_responses raw c = Some t
              /\ json_loads t = None)) ->
  fst (continuation_stage json_loads post self raw prompt model) = inr None.
Proof.
  unfold continuation_stage, continued.
  intros [Hgate | (p & m & -> & -> & H)].
  - destruct prompt as [p|]; [|reflexivity].
    destruct model as [m|]; [|reflexivity].
    now rewrite Hgate.
  - destruct (nonempty (Some p) && nonempty (Some m)
              && _has_valid_starting_structure raw); [|reflexivity].
    destruct (continue_ai_response_run raw p m) as (c & log & E & _).
    rewrite E in *. cbn [fst] in H.
    unfold catch, bind, loads_step, lift, ret, raise.
    destruct c as [[|c cs]|]; try reflexivity.
    destruct H as [H | (c' & t & Hc & Ht & Hp)]; [discriminate|].
    injection Hc as <-. rewrite Ht, Hp. reflexivity.
Qed.

(** C7, as amended.  A continuation request is posted only when the direct
    parse of the raw text fails, a prompt and a model are given, and the
    text holds an opening brace and at least two of the three quoted keys.
    When the direct parse fails and that gate is closed, or the
    continuation call gives nothing, or the spliced text does not parse,
    the repair functions run, each on the raw text itself. *)
Theorem continuation_gate raw prompt model :
  let run := _parse_ai_response json_loads post self raw prompt model in
  (continuation_posted (snd run) = true ->
     json_loads raw = None /\ nonempty prompt = true /\ nonempty model = true
     /\ find LBRACE raw <> None /\ (2 <= found_elements raw)%nat) /\
  (json_loads raw = None ->
   (nonempty prompt && nonempty model && _has_valid_starting_structure raw
    = false
    \/ exists p m, prompt = Some p /\ model = Some m /\
         (continued post self raw p m = None
          \/ exists c t, continued post self raw p m = Some c
               /\ _concatenate_responses raw c = Some t
               /\ json_loads t = None)) ->
   exists rest,
     repairs (snd run) = (FixCommonIssues, raw) :: rest
     /\ Forall (fun p => snd p = raw) rest).
Proof.
  cbv zeta. split.
  - unfold _parse_ai_response.
    destruct (json_loads raw) as [v|] eqn:Hraw; [discriminate|].
    intros Hposted. split; [reflexivity|].
    assert (Hc : continuation_posted
                   (snd (continuation_stage json_loads post self raw prompt model))
                 = true).
    { destruct (continuation_stage json_loads post self raw prompt model)
        as [[e|[v|]] log] eqn:E; cbn [snd]; unfold bind in Hposted;
        cbn [ret] in Hposted.
      - exact Hposted.
      - rewrite app_nil_r in Hposted. exact Hposted.
      - rewrite !repair_stage_spec in Hposted.
        destruct (accepted json_loads FixCommonIssues raw);
          [|destruct (accepted json_loads ExtractValidJson raw);
            [|destruct (accepted json_loads CompleteTruncatedJson raw)]];
          cbn in Hposted; rewrite continuation_posted_app in Hposted;
          apply orb_true_iff in Hposted as [H|H];
          try exact H; discriminate. }
    destruct (continuation_stage_gate _ _ _ Hc) as (Hp & Hm & Hs).
    repeat split; try assumption.
    + unfold _has_valid_starting_structure in Hs.
      destruct (find LBRACE raw); [discriminate | discriminate].
    + now apply has_valid_starting_structure_found.
  - intros Hraw Hnone. apply continuation_stage_none in Hnone.
    destruct (repair_order_chain raw prompt model Hraw Hnone) as [rest [-> Hall]].
    eauto.
Qed.

End ParseProperties.

Lemma repair_order_witness :
  repairs (snd (_parse_ai_response loads always_500 default_processor
                  UNQUOTED_KEY_EXAMPLE (Some (u "prompt"))
                  (Some (u "openai/gpt-4o"))))
  = [(FixCommonIssues, UNQUOTED_KEY_EXAMPLE);
     (ExtractValidJson, UNQUOTED_KEY_EXAMPLE);
     (CompleteTruncatedJson, UNQUOTED_KEY_EXAMPLE)]
  /\ fst (_parse_ai_response loads always_500 default_processor
            UNQUOTED_KEY_EXAMPLE (Some (u "prompt"))
            (Some (u "openai/gpt-4o")))
     = inl (RepairFailed UNQUOTED_KEY_EXAMPLE).
Proof.
  destruct (repair_order loads always_500 default_processor
              UNQUOTED_KEY_EXAMPLE (Some (u "prompt"))
              (Some (u "openai/gpt-4o")) eq_refl eq_refl)
    as (Htried & _ & _ & Hres).
  split; [rewrite Htried | rewrite Hres]; vm_compute; reflexivity.
Defined.

(** C4 as stated fails: on the reply with an unquoted key the first repair
    applied is key quoting, not extraction, and although its result parses
    the two other repairs are applied as well, because that result fails
    validation. *)
Lemma repair_order_is_not_extraction_first :
  ~ (forall raw, loads raw = None ->
       repairs (snd (_parse_ai_response loads always_500 default_processor
                       raw (Some (u "prompt")) (Some (u "openai/gpt-4o"))))
       = first_parsing loads EXTRACTION_FIRST raw).
Proof.
  intros H. specialize (H UNQUOTED_KEY_EXAMPLE eq_refl).
  vm_compute in H. discriminate.
Qed.

(** C7 as stated fails: a reply that stops normally, ends with a closing
    brace and is balanced is not reported as truncated, yet when it does not
    parse and holds the three quoted keys a continuation request is
    posted. *)
Lemma continuation_without_truncation :
  ~ (forall finish raw prompt model,
       continuation_posted
         (snd (_parse_ai_response loads (answers raw finish) default_processor
                 raw (Some prompt) (Some model))) = true ->
       (reports_truncated finish raw = true \/ never_balanced raw)
       /\ (2 <= found_elements raw)%nat).
Proof.
  intros H.
  destruct (H (Some (u "stop")) UNQUOTED_VALUE_EXAMPLE (u "prompt") (u "model"))
    as [[Ht | Hn] _].
  - vm_compute. reflexivity.
  - vm_compute in Ht. discriminate.
  - vm_compute in Hn. discriminate.
Qed.

(** ** The fallback loops *)

Section OrchestratorProperties.

Variable json_loads : str -> option json.
Variable post : request_kind -> str -> str -> Z -> exn + reply.
Variable self : AIProcessor.
Variables filename text_content : str.

Let attempt (model : str) : Run success :=
  try_model json_loads post self filename text_content model.

Local Arguments models_invoked : simpl never.

Lemma models_invoked_app a b :
  models_invoked (a ++ b) = models_invoked a ++ models_invoked b.
Proof. unfold models_invoked. apply flat_map_app. Qed.

Lemma models_invoked_post m p t log :
  models_invoked (Post Extraction m p t :: log) = m :: models_invoked log.
Proof. reflexivity. Qed.

Lemma parse_ai_response_invokes_none raw prompt model :
  models_invoked
    (snd (_parse_ai_response json_loads post self raw prompt model)) = [].
Proof.
  unfold _parse_ai_response.
  destruct (json_loads raw); [reflexivity|].
  destruct (continuation_stage_run json_loads post self raw prompt model)
    as (v & log & -> & _ & Hm).
  unfold bind at 1. destruct v as [v|]; cbn [ret];
    [now rewrite app_nil_r|].
  rewrite !repair_stage_spec. unfold bind, ret, raise.
  destruct (accepted json_loads FixCommonIssues raw);
    [|destruct (accepted json_loads ExtractValidJson raw);
      [|destruct (accepted json_loads CompleteTruncatedJson raw)]];
    cbn; rewrite !models_invoked_app, Hm; reflexivity.
Qed.

(** One attempt posts one extraction request, to its model. *)
Lemma attempt_invokes model : models_invoked (snd (attempt model)) = [model].
Proof.
  unfold attempt, try_model, _call_openrouter_api, session_post.
  unfold bind at 4. unfold tell, lift.
  destruct (post Extraction model _ _) as [e|r]; [reflexivity|].
  cbn [bind]. destruct (negb (status r =? 200)); [reflexivity|].
  set (w1 := if opt_str_eqb (finish_reason r) (u "length") then _ else _).
  assert (H1 : exists t l, w1 = (inr t, l) /\ models_invoked l = []).
  { unfold w1. destruct (opt_str_eqb _ _); do 2 eexists; split; reflexivity. }
  destruct H1 as (t1 & l1 & -> & Hl1). cbn [bind].
  set (w2 := if negb (endswith_char (strip t1) RBRACE) then _ else _).
  assert (H2 : exists t l, w2 = (inr t, l) /\ models_invoked l = []).
  { unfold w2. destruct (negb _); do 2 eexists; split; reflexivity. }
  destruct H2 as (t2 & l2 & -> & Hl2). cbn [bind ret info_content].
  rewrite !app_nil_r.
  pose proof (parse_ai_response_invokes_none t2
                (Some (_create_cv_prompt filename text_content)) (Some model))
    as Hp.
  destruct (_parse_ai_response json_loads post self t2 _ _) as [[e|v] lp];
    cbn [snd] in Hp.
  - cbn. rewrite models_invoked_post, !models_invoked_app, Hl1, Hl2, Hp.
    reflexivity.
  - destruct v as [|b|n|f|s|l|d]; cbn;
      try (rewrite models_invoked_post, !models_invoked_app, Hl1, Hl2, Hp;
           reflexivity).
    match goal with
    | |- context [dict_has ?a ?k] => destruct (dict_has a k)
    end; cbn;
      rewrite models_invoked_post, !models_invoked_app, Hl1, Hl2, Hp;
      reflexivity.
Qed.


Lemma models_loop_spec models : forall last,
  let run := models_loop json_loads post self filename text_content models last in
  models_invoked (snd run) = tried_until_success attempt models /\
  (existsb (fun m => succeeded (attempt m)) models = true ->
   exists r, fst run = inr (inl r)) /\
  (existsb (fun m => succeeded (attempt m)) models = false ->
   fst run = inr (inr (match models with
                       | [] => last
                       | _ => match fst (attempt (List.last models [])) with
                              | inl e => Some e
                              | inr _ => None
                              end
                       end))).
Proof.
  induction models as [|m rest IH]; intros last0; [repeat split; discriminate|].
  cbn [models_loop tried_until_success existsb]. cbv zeta.
  pose proof (attempt_invokes m) as Hm.
  fold (attempt m). unfold succeeded at 1 3 4.
  destruct (attempt m) as [[e|r] log] eqn:E; cbn [fst snd] in *.
  - specialize (IH (Some e)). cbv zeta in IH.
    unfold catch, bind. cbn [orb].
    destruct (models_loop json_loads post self filename text_content rest (Some e))
      as [res log'] eqn:E'. cbn [fst snd] in *.
    destruct IH as (IH1 & IH2 & IH3).
    split; [rewrite models_invoked_app, Hm, IH1; reflexivity|].
    split; [exact IH2|].
    intros Hnone. rewrite (IH3 Hnone).
    destruct rest as [|m' rest']; [cbn; now rewrite E|reflexivity].
  - unfold catch, bind, ret. cbn [orb fst snd].
    split; [now rewrite app_nil_r|]. split; [eauto | discriminate].
Qed.

Lemma all_fail_existsb models :
  (forall m, In m models -> succeeded (attempt m) = false) ->
  existsb (fun m => succeeded (attempt m)) models = false
  /\ tried_until_success attempt models = models.
Proof.
  induction models as [|m rest IH]; intros H; [split; reflexivity|].
  cbn. rewrite (H m (or_introl eq_refl)).
  destruct IH as [-> ->]; [intros; apply H; now right|]. split; reflexivity.
Qed.

(** The first pass when every model fails: it posts one request per model,
    in list order, and raises the details of the last failure. *)
Lemma single_request_all_fail model :
  (forall m, In m (models_to_try self) -> succeeded (attempt m) = false) ->
  exists last_error,
    fst (attempt (List.last (models_to_try self) [])) = inl last_error /\
    fst (_process_cv_single_request json_loads post self filename text_content
           model)
    = inl (AllModelsFailed (Some last_error) (raw_response_of (Some last_error))
             filename (text_preview text_content) (models_to_try self)) /\
    models_invoked
      (snd (_process_cv_single_request json_loads post self filename
              text_content model))
    = models_to_try self.
Proof.
  intros Hall. destruct (all_fail_existsb _ Hall) as [Hex Htried].
  destruct (models_loop_spec (models_to_try self) None) as (H1 & _ & H3).
  specialize (H3 Hex). rewrite Htried in H1.
  assert (Hlast : In (List.last (models_to_try self) []) (models_to_try self)).
  { unfold models_to_try.
    destruct (@exists_last _ (primary_model self ::
                (if enable_fallback_models self then fallback_models self else []))
                ltac:(discriminate)) as (l & a & ->).
    rewrite last_last. apply in_or_app. right. now left. }
  specialize (Hall _ Hlast). unfold succeeded in Hall.
  destruct (fst (attempt (List.last (models_to_try self) []))) as [e|r] eqn:E;
    [|discriminate].
  exists e. split; [reflexivity|].
  unfold _process_cv_single_request.
  destruct (models_loop json_loads post self filename text_content
              (models_to_try self) None) as [res log]. cbn [fst snd] in *.
  subst res. unfold models_to_try at 1. cbn [bind raise].
  rewrite app_nil_r. split; [reflexivity | exact H1].
Qed.

Lemma fallback_loop_all_fail e0 log0 primary_error :
  (forall model,
     _process_cv_single_request json_loads post self filename text_content model
     = (inl e0, log0)) ->
  forall models,
    fallback_loop json_loads post self filename text_content models primary_error
    = (inl (AllAIModelsFailed primary_error),
       concat (repeat log0 (length models))).
Proof.
  intros Hsingle. induction models as [|m rest IH]; [reflexivity|].
  cbn [fallback_loop]. rewrite Hsingle, IH. reflexivity.
Qed.

Lemma models_invoked_concat_repeat log n :
  models_invoked (concat (repeat log n))
  = concat (repeat (models_invoked log) n).
Proof.
  induction n as [|n IH]; [reflexivity|].
  cbn [repeat concat]. now rewrite models_invoked_app, IH.
Qed.

(** The run of [process_cv_to_json] when every model fails. *)
Lemma process_all_fail :
  (forall m, In m (models_to_try self) -> succeeded (attempt m) = false) ->
  exists last_error,
    fst (attempt (List.last (models_to_try self) [])) = inl last_error /\
    let primary_error :=
      AllModelsFailed (Some last_error) (raw_response_of (Some last_error))
        filename (text_preview text_content) (models_to_try self) in
    fst (process_cv_to_json json_loads post self filename text_content)
    = inl (if enable_fallback_models self
           then AllAIModelsFailed primary_error else primary_error) /\
    models_invoked
      (snd (process_cv_to_json json_loads post self filename text_content))
    = concat (repeat (models_to_try self)
                (if enable_fallback_models self
                 then S (length (fallback_models self)) else 1)).
Proof.
  intros Hall.
  destruct (single_request_all_fail (primary_model self) Hall)
    as (e & He & Hres & Hlog).
  exists e. split; [exact He|]. cbv zeta.
  unfold process_cv_to_json.
  destruct (_process_cv_single_request json_loads post self filename
              text_content (primary_model self)) as [res log0] eqn:E.
  cbn [fst snd] in Hres, Hlog. subst res. cbn [catch].
  destruct (enable_fallback_models self) eqn:Een; cbn [negb].
  - rewrite (fallback_loop_all_fail _ log0 _
               (fun model => E) (fallback_models self)).
    cbn [fst snd]. split; [reflexivity|].
    rewrite models_invoked_app, models_invoked_concat_repeat, Hlog.
    reflexivity.
  - cbn [raise fst snd]. split; [reflexivity|].
    rewrite app_nil_r, Hlog. cbn. now rewrite app_nil_r.
Qed.

(** When some model succeeds, the first pass returns at the first that
    does, having posted one request per model up to it, in list order. *)
Lemma process_first_success :
  existsb (fun m => succeeded (attempt m)) (models_to_try self) = true ->
  succeeded (process_cv_to_json json_loads post self filename text_content)
  = true /\
  models_invoked
    (snd (process_cv_to_json json_loads post self filename text_content))
  = tried_until_success attempt (models_to_try self).
Proof.
  intros Hex.
  destruct (models_loop_spec (models_to_try self) None) as (H1 & H2 & _).
  destruct (H2 Hex) as [r Hr].
  unfold process_cv_to_json, _process_cv_single_request, succeeded.
  destruct (models_loop json_loads post self filename text_content
              (models_to_try self) None) as [res log]. cbn [fst snd] in *.
  subst res. cbn. rewrite app_nil_r. split; [reflexivity | exact H1].
Qed.


(** C8, as amended.  When every configured model fails, one failure
    reaches the caller: the failure of the first pass, wrapped when
    fallback is enabled.  It carries the list of the models tried and the
    reason of the last model of the list, and no other reason.  The
    failures of the single models are caught inside the loops: the run
    fails only when every model has failed, and then with that failure. *)
Theorem exhausted_fallback_failure :
  ((forall m, In m (models_to_try self) -> succeeded (attempt m) = false) ->
   exists last_error,
     fst (attempt (List.last (models_to_try self) [])) = inl last_error /\
     let primary_error :=
       AllModelsFailed (Some last_error) (raw_response_of (Some last_error))
         filename (text_preview text_content) (models_to_try self) in
     fst (process_cv_to_json json_loads post self filename text_content)
     = inl (if enable_fallback_models self
            then AllAIModelsFailed primary_error else primary_error)) /\
  (forall e,
     fst (process_cv_to_json json_loads post self filename text_content) = inl e ->
     forall m, In m (models_to_try self) -> succeeded (attempt m) = false).
Proof.
  split.
  - intros Hall.
    destruct (process_all_fail Hall) as (e & He & Hres & _).
    exists e. split; [exact He | exact Hres].
  - intros e He m Hin.
    destruct (existsb (fun m => succeeded (attempt m)) (models_to_try self))
      eqn:Hex.
    + destruct (process_first_success Hex) as [Hok _].
      unfold succeeded in Hok. rewrite He in Hok. discriminate.
    + destruct (succeeded (attempt m)) eqn:Hm; [|reflexivity].
      assert (existsb (fun m => succeeded (attempt m)) (models_to_try self)
              = true) by (apply existsb_exists; eauto).
      congruence.
Qed.

(** C1, at the failing runs.  With fallback enabled, when every configured
    model fails the extraction requests go to the whole list of models
    once for the first pass and once more for each fallback model: every
    model that failed is called again with the same request. *)
Theorem failed_models_are_called_again :
  enable_fallback_models self = true ->
  (forall m, In m (models_to_try self) -> succeeded (attempt m) = false) ->
  models_invoked
    (snd (process_cv_to_json json_loads post self filename text_content))
  = concat (repeat (models_to_try self) (S (length (fallback_models self)))).
Proof.
  intros Hen Hall.
  destruct (process_all_fail Hall) as (e & _ & _ & Hlog).
  rewrite Hlog, Hen. reflexivity.
Qed.

End OrchestratorProperties.

Lemma exhausted_fallback_failure_witness :
  exists last_error,
    fst (try_model loads always_500 default_processor (u "cv.pdf")
           (u "Ana Cruz") (u "meta-llama/llama-3.1-8b-instruct"))
    = inl last_error /\
    fst (process_cv_to_json loads always_500 default_processor (u "cv.pdf")
           (u "Ana Cruz"))
    = inl (AllAIModelsFailed
             (AllModelsFailed (Some last_error) None (u "cv.pdf")
                (u "Ana Cruz") (models_to_try default_processor))).
Proof.
  destruct (proj1 (exhausted_fallback_failure loads always_500
                     default_processor (u "cv.pdf") (u "Ana Cruz")))
    as (e & He & Hres); [intros m _; reflexivity|].
  exists e. split; [exact He|].
  rewrite Hres. vm_compute in He. injection He as <-. reflexivity.
Defined.

(** C8 as stated fails: two runs in which the first model fails for
    different reasons end in the same failure, which therefore does not
    carry the reason of each model. *)
Lemma terminal_failure_forgets_reasons :
  ~ (forall post1 post2,
       fst (process_cv_to_json loads post1 default_processor (u "cv.pdf")
              (u "Ana Cruz"))
       = fst (process_cv_to_json loads post2 default_processor (u "cv.pdf")
                (u "Ana Cruz")) ->
       outcomes (try_model loads post1 default_processor (u "cv.pdf")
                   (u "Ana Cruz")) default_processor
       = outcomes (try_model loads post2 default_processor (u "cv.pdf")
                     (u "Ana Cruz")) default_processor).
Proof.
  intros H.
  specialize (H always_500 (status_for (u "anthropic/claude-3.5-sonnet") 429)).
  assert (E : fst (process_cv_to_json loads always_500 default_processor
                     (u "cv.pdf") (u "Ana Cruz"))
              = fst (process_cv_to_json loads
                       (status_for (u "anthropic/claude-3.5-sonnet") 429)
                       default_processor (u "cv.pdf") (u "Ana Cruz")))
    by (vm_compute; reflexivity).
  specialize (H E). vm_compute in H. discriminate.
Qed.

Lemma failed_models_are_called_again_witness :
  models_invoked
    (snd (process_cv_to_json loads always_500 default_processor (u "cv.pdf")
            (u "Ana Cruz")))
  = concat (repeat (models_to_try default_processor) 4).
Proof.
  apply (failed_models_are_called_again loads always_500 default_processor
           (u "cv.pdf") (u "Ana Cruz") eq_refl).
  intros m _. reflexivity.
Defined.

(** ** The example scenarios *)

(** A reply cut by the token limit is closed by [_call_openrouter_api]
    itself and then parses and validates. *)
Example scenario_truncated_reply :
  let run := try_model loads (answers TRUNCATED_EXAMPLE (Some (u "length")))
               default_processor (u "cv.pdf") (u "Ana Cruz") (u "openai/gpt-4o") in
  succeeded run = true /\ warned (snd run) = true /\ repairs (snd run) = [].
Proof. vm_compute. repeat split. Qed.

(** Key quoting on the reply with an unquoted key. *)
Example scenario_key_quoting :
  _fix_common_json_issues UNQUOTED_KEY_EXAMPLE = js "{ 'name': 'Ana' }".
Proof. vm_compute. reflexivity. Qed.

(** A reply with an unquoted key: key quoting makes it parse, validation
    rejects it, the two other repairs fail, and the attempt fails. *)
Example scenario_unquoted_key :
  fst (try_model loads (answers UNQUOTED_KEY_EXAMPLE (Some (u "stop")))
         default_processor (u "cv.pdf") (u "Ana Cruz") (u "openai/gpt-4o"))
  = inl (RepairFailed UNQUOTED_KEY_EXAMPLE).
Proof. vm_compute. reflexivity. Qed.

(** A timeout of the primary model: the first fallback model is asked
    next, no repair is applied, and the run succeeds with that model. *)
Example scenario_primary_timeout :
  let run := process_cv_to_json loads
               (times_out_for (u "anthropic/claude-3.5-sonnet") COMPLETE_EXAMPLE)
               default_processor (u "cv.pdf") (u "Ana Cruz") in
  models_invoked (snd run) = [u "anthropic/claude-3.5-sonnet"; u "openai/gpt-4o"]
  /\ repairs (snd run) = []
  /\ match fst run with
     | inr r => model_used r = u "openai/gpt-4o"
     | inl _ => False
     end.
Proof. vm_compute. repeat split. Qed.

(** ** Key quoting keeps braces and brackets *)

Lemma longest_first_some {A} (try : nat -> option A) lo k r :
  longest_first try lo k = Some r ->
  exists j, (lo <= j <= k)%nat /\ try j = Some r.
Proof.
  induction k as [|k IH]; cbn [longest_first].
  - destruct (try 0%nat) as [r'|] eqn:E; [|discriminate].
    destruct (lo <=? 0)%nat eqn:L; [|discriminate].
    intros [= <-]. apply Nat.leb_le in L. exists 0%nat. split; [lia | exact E].
  - destruct (try (S k)) as [r'|] eqn:E.
    + destruct (lo <=? S k)%nat eqn:L; [|discriminate].
      intros [= <-]. apply Nat.leb_le in L. exists (S k). split; [lia | exact E].
    + destruct (lo <=? k)%nat eqn:L; [|discriminate].
      intros H. destruct (IH H) as (j & Hj & Hr). exists j. split; [lia | exact Hr].
Qed.

Lemma run_firstn cls s j :
  (j <= run cls s)%nat -> forall c, cls c = false -> count c (firstn j s) = 0.
Proof.
  revert j. induction s as [|x s IH]; intros j Hj c Hc.
  - now rewrite firstn_nil.
  - destruct j as [|j]; [reflexivity|]. cbn [run] in Hj.
    destruct (cls x) eqn:Hx; [|lia]. cbn [firstn count].
    rewrite (IH j) by (lia || assumption).
    destruct (N.eqb_spec x c) as [->|]; [congruence | reflexivity].
Qed.

(** What a match consumes: the literals of the pattern, runs of the
    starred classes and the text of the group. *)
Lemma rx_match_consumes p : forall s g0 g rest,
  (groups p <= 1)%nat ->
  rx_match p s g0 = Some (g, rest) ->
  exists m, s = m ++ rest /\
    (groups p = 0%nat -> g = g0) /\
    forall c, outside_stars c p = true ->
      count c m = count c (literals p)
                  + (if (groups p =? 0)%nat then 0 else count c g).
Proof.
  induction p as [|i p IH]; intros s g0 g rest Hg H.
  - injection H as <- <-. exists []. repeat split; auto.
  - destruct i as [x|cls|cls]; cbn [rx_match groups literals outside_stars] in *.
    + destruct s as [|y s']; [discriminate|].
      destruct (N.eqb_spec y x) as [->|]; [|discriminate].
      destruct (IH _ _ _ _ Hg H) as (m & -> & Hg0 & Hc).
      exists (x :: m). split; [reflexivity|]. split; [exact Hg0|].
      intros c Hout. cbn [count]. rewrite (Hc c Hout). lia.
    + apply longest_first_some in H as (j & Hj & H).
      destruct (IH _ _ _ _ Hg H) as (m & Hs & Hg0 & Hc).
      exists (firstn j s ++ m). split.
      { rewrite <- app_assoc, <- Hs. symmetry. apply firstn_skipn. }
      split; [exact Hg0|].
      intros c Hout. apply andb_true_iff in Hout as [Hcls Hout].
      apply negb_true_iff in Hcls.
      rewrite count_app, (run_firstn cls s j) by (lia || assumption).
      rewrite (Hc c Hout). reflexivity.
    + apply longest_first_some in H as (j & Hj & H).
      assert (Hp : groups p = 0%nat) by lia.
      destruct (IH _ _ _ _ ltac:(lia) H) as (m & Hs & Hg0 & Hc).
      specialize (Hg0 Hp). subst g.
      exists (firstn j s ++ m). split.
      { rewrite <- app_assoc, <- Hs. symmetry. apply firstn_skipn. }
      split; [lia|].
      intros c Hout. rewrite count_app, (Hc c Hout), Hp. cbn. lia.
Qed.

(** A substitution whose replacement holds a character as often as the
    literals and the group of the match do keeps the count of that
    character. *)
Lemma sub_from_count p x p' repl c :
  p = Lit x :: p' -> groups p = 1%nat -> outside_stars c p = true ->
  (forall g, count c (repl g) = count c (literals p) + count c g) ->
  forall s skip,
    count c (sub_from p repl s skip) = count c (skipn skip s).
Proof.
  intros Hp Hg Hout Hrepl.
  induction s as [|y s IH]; intros skip; [now destruct skip|].
  cbn [sub_from]. destruct skip as [|k]; [|apply IH].
  destruct (rx_match p (y :: s) []) as [[g rest]|] eqn:E.
  - destruct (rx_match_consumes p _ _ _ _ ltac:(lia) E) as (m & Hs & _ & Hc).
    pose proof (Hc c Hout) as Hcount. rewrite Hg in Hcount. cbn in Hcount.
    assert (Hm : exists m', m = y :: m').
    { subst p. cbn [rx_match] in E.
      destruct m as [|y' m']; [|injection Hs as -> _; eauto].
      cbn in Hs. subst rest.
      destruct (N.eqb y x); [|discriminate].
      destruct (rx_match_consumes p' s [] g (y :: s)) as (m2 & Hs2 & _);
        [cbn in Hg; lia | exact E |].
      apply (f_equal (@length _)) in Hs2. rewrite length_app in Hs2.
      cbn in Hs2. lia. }
    destruct Hm as [m' ->]. injection Hs as ->.
    rewrite count_app, Hrepl, IH.
    replace (length (m' ++ rest) - length rest)%nat with (length m')
      by (rewrite length_app; lia).
    rewrite skipn_app, skipn_all, Nat.sub_diag. cbn [skipn app].
    cbn [skipn count]. rewrite count_app. cbn [count] in Hcount. lia.
  - cbn [count skipn]. now rewrite IH.
Qed.

Lemma sub_count p x p' repl c s :
  p = Lit x :: p' -> groups p = 1%nat -> outside_stars c p = true ->
  (forall g, count c (repl g) = count c (literals p) + count c g) ->
  count c (sub p repl s) = count c s.
Proof.
  intros Hp Hg Hout Hrepl. unfold sub.
  now rewrite (sub_from_count p x p' repl c Hp Hg Hout Hrepl).
Qed.

Lemma fix_common_count c s :
  c = LBRACE \/ c = RBRACE \/ c = LBRACK \/ c = RBRACK ->
  count c (_fix_common_json_issues s) = count c s.
Proof.
  intros Hc. unfold _fix_common_json_issues. cbv zeta.
  rewrite (sub_count MISSING_KEY LBRACE _ _ c _ eq_refl eq_refl);
  [rewrite (sub_count KEY_AFTER_COLON COLON _ _ c _ eq_refl eq_refl);
   [rewrite (sub_count KEY_AFTER_COMMA COMMA _ _ c _ eq_refl eq_refl);
    [rewrite (sub_count KEY_AFTER_BRACE LBRACE _ _ c _ eq_refl eq_refl);
     [apply (sub_count KEY_IN_ARRAY LBRACK _ _ c _ eq_refl eq_refl)|..]|..]|..]|..];
  try (destruct Hc as [-> | [-> | [-> | ->]]]; reflexivity);
  intros g; rewrite !count_app;
  destruct Hc as [-> | [-> | [-> | ->]]];
  match goal with |- context [count ?c g] => set (n := count c g) end;
  cbv -[Z.add]; lia.
Qed.

Lemma count_nonneg c s : 0 <= count c s.
Proof.
  induction s as [|x s IH]; cbn [count]; [lia|].
  destruct (N.eqb x c); lia.
Qed.

Lemma occurs_needs_colon p s :
  (groups p <= 1)%nat -> outside_stars COLON p = true ->
  1 <= count COLON (literals p) ->
  count COLON s = 0 -> occurs p s = false.
Proof.
  intros Hg Hout Hlit. induction s as [|x s IH]; intros Hs; [reflexivity|].
  cbn [occurs]. destruct (rx_match p (x :: s) []) as [[g rest]|] eqn:E.
  - exfalso.
    destruct (rx_match_consumes p _ _ _ _ Hg E) as (m & Hm & _ & Hc).
    specialize (Hc COLON Hout). rewrite Hm, count_app in Hs.
    pose proof (count_nonneg COLON rest). pose proof (count_nonneg COLON g).
    destruct (groups p =? 0)%nat; lia.
  - apply IH. cbn [count] in Hs. pose proof (count_nonneg COLON s).
    destruct (N.eqb x COLON); lia.
Qed.

(** X1.  Key quoting never adds or removes a brace or a bracket, so it
    keeps the depth of a text, and it returns a text without a colon as it
    is. *)
Theorem key_quoting_keeps_brackets (s : str) :
  count LBRACE (_fix_common_json_issues s) = count LBRACE s /\
  count RBRACE (_fix_common_json_issues s) = count RBRACE s /\
  count LBRACK (_fix_common_json_issues s) = count LBRACK s /\
  count RBRACK (_fix_common_json_issues s) = count RBRACK s /\
  depth (_fix_common_json_issues s) = depth s /\
  (count COLON s = 0 -> _fix_common_json_issues s = s).
Proof.
  assert (H1 := fix_common_count LBRACE s (or_introl eq_refl)).
  assert (H2 := fix_common_count RBRACE s (or_intror (or_introl eq_refl))).
  assert (H3 := fix_common_count LBRACK s
                  (or_intror (or_intror (or_introl eq_refl)))).
  assert (H4 := fix_common_count RBRACK s
                  (or_intror (or_intror (or_intror eq_refl)))).
  repeat split; try assumption.
  - unfold depth. now rewrite H1, H2, H3, H4.
  - intros Hs. apply fix_common_pattern_free. unfold pattern_free.
    rewrite !occurs_needs_colon; try reflexivity; try assumption;
      try (cbv; discriminate); unfold KEY_IN_ARRAY, KEY_AFTER_BRACE,
      KEY_AFTER_COMMA, KEY_AFTER_COLON, MISSING_KEY; cbn [groups]; lia.
Qed.

(** ** The last complete position *)

Lemma find_last_full s :
  balanced s -> _find_last_complete_structure s = length s.
Proof.
  intros Hb.
  destruct (find_last_complete_structure_bounds s) as (Hle & _ & Hmax).
  destruct (Nat.eq_dec (_find_last_complete_structure s) (length s))
    as [E|E]; [exact E|].
  exfalso. apply (Hmax (length s)); [lia|]. now rewrite firstn_all.
Qed.

(** X2.  The last complete position is the whole length exactly for a
    balanced text, it does not decrease when text is appended, and it is
    at least one for a text whose first character is neither a brace nor a
    bracket. *)
Theorem find_last_complete_structure_facts (s t : str) :
  (_find_last_complete_structure s = length s <-> balanced s) /\
  (_find_last_complete_structure s
   <= _find_last_complete_structure (s ++ t))%nat /\
  (forall c rest, s = c :: rest -> scan_char c (0, 0) = (0, 0) ->
     (1 <= _find_last_complete_structure s)%nat).
Proof.
  destruct (find_last_complete_structure_bounds s) as (Hle & Hbal & Hmax).
  split; [|split].
  - split; [|apply find_last_full].
    intros E. rewrite E, firstn_all in Hbal. exact Hbal.
  - destruct (find_last_complete_structure_bounds (s ++ t))
      as (Hle' & _ & Hmax').
    destruct (Nat.le_gt_cases (_find_last_complete_structure s)
                (_find_last_complete_structure (s ++ t))) as [H|H];
      [exact H|].
    exfalso. apply (Hmax' (_find_last_complete_structure s)).
    + rewrite length_app. lia.
    + rewrite firstn_app.
      replace (_find_last_complete_structure s - length s)%nat with 0%nat
        by lia.
      now rewrite firstn_O, app_nil_r.
  - intros c rest -> Hc.
    destruct (Nat.le_gt_cases 1 (_find_last_complete_structure (c :: rest)))
      as [H|H]; [exact H|].
    exfalso. apply (Hmax 1%nat); [cbn [length]; lia|].
    cbn [firstn]. unfold balanced.
    change [c] with ([] ++ [c]). now rewrite depth_snoc.
Qed.

(** ** Closing a truncated text twice *)

Lemma fix_truncated_balanced t :
  balanced t -> _fix_truncated_json t = strip t.
Proof.
  intros Hb. unfold _fix_truncated_json.
  assert (Hr : balanced (strip t)) by (unfold balanced; now rewrite depth_strip).
  change (scan_complete (strip t) 0 (0, 0) 0)
    with (_find_last_complete_structure (strip t)).
  rewrite (find_last_full _ Hr).
  destruct (strip t) as [|c r] eqn:E; [reflexivity|].
  cbn [length Nat.ltb Nat.leb]. rewrite <- E at 2. 
  change (S (length r)) with (length (c :: r)). now rewrite firstn_all.
Qed.

Lemma fix_truncated_depth s :
  no_stray_closers s = true -> depth (_fix_truncated_json s) = (0, 0).
Proof.
  intros Hs. destruct (no_stray_closers_nonneg s Hs) as [Hb Hk].
  rewrite <- (depth_strip s) in Hb, Hk.
  unfold _fix_truncated_json.
  change (scan_complete (strip s) 0 (0, 0) 0)
    with (_find_last_complete_structure (strip s)).
  destruct (find_last_complete_structure_bounds (strip s)) as (_ & Hbal & _).
  destruct (0 <? _find_last_complete_structure (strip s))%nat; [exact Hbal|].
  cbv zeta. rewrite <- app_assoc.
  apply (depth_closed_by_appending (strip s) Hb Hk).
Qed.

(** X3.  [_fix_truncated_json] only strips a balanced text; applied a second
    time to a text without stray closer, as [_call_openrouter_api] does
    when the closed text does not end with a brace, it strips the result of
    the first time and leaves it balanced. *)
Theorem fix_truncated_json_twice (s : str) :
  (balanced s -> _fix_truncated_json s = strip s) /\
  (no_stray_closers s = true ->
     _fix_truncated_json (_fix_truncated_json s)
     = strip (_fix_truncated_json s)
     /\ depth (_fix_truncated_json (_fix_truncated_json s)) = (0, 0)).
Proof.
  split; [apply fix_truncated_balanced|].
  intros Hs. pose proof (fix_truncated_depth s Hs) as Hd.
  rewrite (fix_truncated_balanced _ Hd). split; [reflexivity|].
  now rewrite depth_strip.
Qed.

(** ** What the repair functions return *)

(** X4.  Whatever [_complete_truncated_json] returns is a non-empty balanced
    prefix of the stripped text or a text that parses; when the stripped
    text has no balanced prefix and more closers than openers of one kind,
    it returns nothing. *)
Theorem complete_truncated_json_result (json_loads : str -> option json)
    (s : str) :
  (forall out, _complete_truncated_json json_loads s = Some out ->
     (out <> [] /\ balanced out /\ exists tail, strip s = out ++ tail)
     \/ json_loads out <> None) /\
  (_find_last_complete_structure (strip s) = 0%nat ->
   fst (depth s) < 0 \/ snd (depth s) < 0 ->
   _complete_truncated_json json_loads s = None).
Proof.
  unfold _complete_truncated_json.
  destruct (find_last_complete_structure_bounds (strip s)) as (Hle & Hbal & _).
  split.
  - intros out.
    destruct (_find_last_complete_structure (strip s)) as [|n] eqn:E;
      cbn [Nat.eqb negb].
    + destruct ((_ <? 0) || (_ <? 0)); [discriminate|].
      cbv zeta.
      destruct (json_loads ((strip s ++ _) ++ _)) eqn:P1.
      * intros [= <-]. right. congruence.
      * destruct (json_loads (_fix_common_json_issues _)) eqn:P2;
          [|discriminate].
        intros [= <-]. right. congruence.
    + intros [= <-]. left. split; [|split; [exact Hbal|]].
      * destruct (strip s); [cbn in Hle; lia | discriminate].
      * exists (skipn (S n) (strip s)). symmetry.
        exact (firstn_skipn (S n) (strip s)).
  - intros E Hneg. rewrite E. cbn [Nat.eqb negb].
    rewrite <- (depth_strip s) in Hneg. unfold depth in Hneg. cbn in Hneg.
    destruct Hneg as [H|H]; apply Z.ltb_lt in H; rewrite H;
      [reflexivity | now rewrite orb_true_r].
Qed.

Lemma find_prefix c s i :
  find c s = Some i ->
  count c (firstn i s) = 0 /\ exists rest, skipn i s = c :: rest.
Proof.
  revert i. induction s as [|x s IH]; intros i; cbn [find]; [discriminate|].
  destruct (N.eqb x c) eqn:E.
  - intros [= <-]. split; [reflexivity|]. apply N.eqb_eq in E. subst.
    cbn. eauto.
  - destruct (find c s) as [j|]; [|discriminate].
    intros [= <-]. destruct (IH j eq_refl) as [H1 H2].
    split; [cbn [firstn count]; rewrite E, H1; reflexivity | exact H2].
Qed.

Lemma find_none c s : find c s = None -> count c s = 0.
Proof.
  induction s as [|x s IH]; cbn [find count]; [reflexivity|].
  destruct (N.eqb x c); [discriminate|].
  destruct (find c s); [discriminate|]. intros _. now rewrite IH.
Qed.

(** The text up to the closing brace found has as many closing as opening
    braces, counted from the count the search starts with, and ends with
    that closing brace. *)
Lemma find_end_brace_balance t : forall i n j,
  find_end_brace t i n = Some j ->
  let e := firstn (j + 1 - i) t in
  n + count LBRACE e - count RBRACE e = 0 /\ exists body, e = body ++ [RBRACE].
Proof.
  induction t as [|c t IH]; intros i n j; cbn [find_end_brace];
    [discriminate|].
  assert (Hstep : forall m, find_end_brace t (S i) m = Some j ->
            firstn (j + 1 - i) (c :: t) = c :: firstn (j + 1 - S i) t).
  { intros m Hm. destruct (find_end_brace_prefix _ _ 0%nat _ _ Hm) as (H1 & _).
    replace (j + 1 - i)%nat with (S (j + 1 - S i)) by lia. reflexivity. }
  destruct (N.eqb c LBRACE) eqn:EL.
  - intros H. cbv zeta. rewrite (Hstep _ H).
    destruct (IH _ _ _ H) as [H1 [body H2]]. split.
    + cbn [count]. rewrite EL.
      replace (N.eqb c RBRACE) with false
        by (apply N.eqb_eq in EL; subst c; reflexivity).
      lia.
    + exists (c :: body). now rewrite H2.
  - destruct (N.eqb c RBRACE) eqn:ER.
    + destruct (n - 1 =? 0) eqn:E0.
      * intros [= <-]. cbv zeta.
        replace (i + 1 - i)%nat with 1%nat by lia. cbn [firstn count].
        rewrite EL, ER. apply Z.eqb_eq in E0. apply N.eqb_eq in ER. subst c.
        split; [lia | now exists []].
      * intros H. cbv zeta. rewrite (Hstep _ H).
        destruct (IH _ _ _ H) as [H1 [body H2]]. split.
        -- cbn [count]. rewrite EL, ER. lia.
        -- exists (c :: body). now rewrite H2.
    + intros H. cbv zeta. rewrite (Hstep _ H).
      destruct (IH _ _ _ H) as [H1 [body H2]]. split.
      * cbn [count]. rewrite EL, ER. lia.
      * exists (c :: body). now rewrite H2.
Qed.

(** X5.  What [_extract_valid_json] returns is a part of the response that
    starts at its first opening brace, ends with a closing brace, has as
    many closing as opening braces and parses; a response without an
    opening brace gives nothing. *)
Theorem extract_valid_json_shape (json_loads : str -> option json) (s : str) :
  (forall e, _extract_valid_json json_loads s = Some e ->
     exists before body after,
       s = before ++ e ++ after /\ count LBRACE before = 0
       /\ e = LBRACE :: body ++ [RBRACE]
       /\ count LBRACE e = count RBRACE e
       /\ json_loads e <> None) /\
  (count LBRACE s = 0 -> _extract_valid_json json_loads s = None).
Proof.
  unfold _extract_valid_json. split.
  - intros e.
    destruct (find LBRACE s) as [start|] eqn:Hstart; [|discriminate].
    destruct (find_prefix _ _ _ Hstart) as [Hbefore [rest Hrest]].
    rewrite Hrest.
    destruct (find_end_brace (LBRACE :: rest) start 0) as [stop|] eqn:Hstop;
      [|discriminate].
    destruct (find_end_brace_balance _ _ _ _ Hstop) as [Hcount [body Hbody]].
    destruct (find_end_brace_prefix _ _ 0%nat _ _ Hstop) as (H1 & H2 & _).
    set (k := (stop + 1 - start)%nat) in *.
    destruct (json_loads (firstn k (LBRACE :: rest))) eqn:Hparse;
      [|discriminate].
    intros [= <-].
    assert (Hk : exists k', k = S k') by (exists (stop - start)%nat; lia).
    destruct Hk as [k' Hk]. rewrite Hk in *. cbn [firstn] in *.
    destruct body as [|b body'].
    { exfalso. cbn in Hbody. injection Hbody as Hb _. discriminate Hb. }
    cbn [app] in Hbody. injection Hbody as <- Hbody.
    exists (firstn start s), body', (skipn (S k') (LBRACE :: rest)).
    split; [|split; [exact Hbefore|split; [|split]]].
    + rewrite <- (firstn_skipn start s) at 1. f_equal. rewrite Hrest.
      rewrite <- (firstn_skipn (S k') (LBRACE :: rest)) at 1. reflexivity.
    + now rewrite Hbody.
    + cbn [count] in Hcount. cbn [count]. lia.
    + congruence.
  - intros H0. destruct (find LBRACE s) as [start|] eqn:Hstart; [|reflexivity].
    exfalso. destruct (find_prefix _ _ _ Hstart) as [_ [rest Hrest]].
    rewrite <- (firstn_skipn start s), count_app, Hrest in H0.
    cbn [count] in H0. rewrite N.eqb_refl in H0.
    pose proof (count_nonneg LBRACE (firstn start s)).
    pose proof (count_nonneg LBRACE rest). lia.
Qed.

(** ** Splicing a continuation *)

Lemma lstrip_split s :
  exists d, s = d ++ lstrip s /\ Forall (fun c => isspace c = true) d.
Proof.
  induction s as [|x s (d & Hd & Hall)]; [exists []; split; auto|].
  cbn [lstrip]. destruct (isspace x) eqn:E.
  - exists (x :: d). split; [cbn; now rewrite <- Hd | now constructor].
  - exists []. split; auto.
Qed.

Lemma rstrip_split s :
  exists d, s = rstrip s ++ d /\ Forall (fun c => isspace c = true) d.
Proof.
  unfold rstrip. destruct (lstrip_split (rev s)) as (d & Hd & Hall).
  exists (rev d). split.
  - rewrite <- rev_app_distr, <- Hd. now rewrite rev_involutive.
  - now apply Forall_rev.
Qed.







(** ** What a run returns *)

Lemma required_fields_ok (d : dict) :
  _validate_required_fields d = inr tt -> valid_record (JDict d).
Proof.
  unfold _validate_required_fields, valid_record.
  destruct (dict_get d PERSONAL_INFORMATION) as [section|] eqn:Hs;
    [|discriminate].
  destruct section as [| | | | | |pi]; try discriminate. cbn [section_get].
  destruct (dict_get pi FIRST_NAME) as [fn|] eqn:Hf; [|discriminate].
  cbn [falsy]. destruct (truthy fn) eqn:Tf; [|discriminate]. cbn [negb].
  destruct (dict_get pi LAST_NAME) as [ln|] eqn:Hl; [|discriminate].
  cbn [falsy]. destruct (truthy ln) eqn:Tl; [|discriminate].
  intros _. exists d, pi, fn, ln. auto 10.
Qed.

Lemma validate_result_ok e0 v r :
  validate_result e0 v = inr r -> r = v /\ valid_record v.
Proof.
  unfold validate_result. destruct v as [| | | | | |d]; try discriminate.
  destruct (_validate_required_fields d) as [e|[]] eqn:E; [discriminate|].
  destruct (_validate_json_format d); [discriminate|].
  intros [= <-]. split; [reflexivity | now apply required_fields_ok].
Qed.

Lemma accepted_valid json_loads a raw r :
  accepted json_loads a raw = Some r -> valid_record r.
Proof.
  unfold accepted.
  destruct (candidate json_loads a raw) as [t|]; [|discriminate].
  assert (H : match json_loads t with
              | Some v => match _validate_and_return_result v with
                          | inl _ => None
                          | inr r => Some r
                          end
              | None => None
              end = Some r -> valid_record r).
  { destruct (json_loads t) as [v|]; [|discriminate].
    destruct (_validate_and_return_result v) as [e|r'] eqn:E; [discriminate|].
    intros [= <-]. apply validate_result_ok in E as [-> Hv]. exact Hv. }
  destruct a; [exact H | destruct t; [discriminate | exact H]
               | destruct t; [discriminate | exact H]].
Qed.

Lemma continuation_stage_valid json_loads post self raw prompt model r :
  fst (continuation_stage json_loads post self raw prompt model)
  = inr (Some r) -> valid_record r.
Proof.
  unfold continuation_stage.
  destruct prompt as [p|]; [|discriminate].
  destruct model as [m|]; [|discriminate].
  destruct (nonempty (Some p) && nonempty (Some m)
            && _has_valid_starting_structure raw); [|discriminate].
  destruct (continue_ai_response_run post self raw p m) as (c & log & -> & _).
  unfold catch, bind, loads_step, lift, ret, raise.
  destruct c as [[|c cs]|]; try discriminate.
  destruct (_concatenate_responses raw (c :: cs)) as [t|]; [|discriminate].
  destruct (json_loads t) as [v|]; [|discriminate].
  destruct (_validate_and_return_result v) as [e|r'] eqn:E; [discriminate|].
  cbn. intros [= <-]. apply validate_result_ok in E as [-> Hv]. exact Hv.
Qed.

Lemma parse_ai_response_valid json_loads post self raw prompt model v :
  fst (_parse_ai_response json_loads post self raw prompt model) = inr v ->
  valid_record v.
Proof.
  unfold _parse_ai_response.
  destruct (json_loads raw) as [result|].
  { cbn. intros H. now apply validate_result_ok in H as [-> Hv]. }
  pose proof (continuation_stage_valid json_loads post self raw prompt model)
    as Hc.
  destruct (continuation_stage_run json_loads post self raw prompt model)
    as (c & log & E & _).
  rewrite E in *. cbn [fst] in Hc. unfold bind at 1.
  destruct c as [r|]; [cbn; intros [= <-]; now apply Hc|].
  rewrite !repair_stage_spec. unfold bind, ret, raise.
  pose proof (accepted_valid json_loads FixCommonIssues raw) as H1.
  pose proof (accepted_valid json_loads ExtractValidJson raw) as H2.
  pose proof (accepted_valid json_loads CompleteTruncatedJson raw) as H3.
  destruct (accepted json_loads FixCommonIssues raw);
    [cbn; intros [= <-]; now apply H1|].
  destruct (accepted json_loads ExtractValidJson raw);
    [cbn; intros [= <-]; now apply H2|].
  destruct (accepted json_loads CompleteTruncatedJson raw);
    [cbn; intros [= <-]; now apply H3 | discriminate].
Qed.

(** X7.  Whatever [_parse_ai_response] returns, by direct parse, after a
    continuation or after a repair, is an object whose personal_information
    section is an object with a first and a last name that are not empty. *)
Theorem parse_ai_response_returns_valid_record
    (json_loads : str -> option json)
    (post : request_kind -> str -> str -> Z -> exn + reply)
    (self : AIProcessor) (raw : str) (prompt model : option str) (v : json) :
  fst (_parse_ai_response json_loads post self raw prompt model) = inr v ->
  valid_record v.
Proof.
  intros H. destruct (parse_ai_response_valid _ _ _ _ _ _ _ H)
    as (d & section & fn & ln & Hv).
  exists d, section, fn, ln. exact Hv.
Qed.

Lemma parse_ai_response_returns_valid_record_witness :
  valid_record (JDict [(PERSONAL_INFORMATION,
                        JDict [(FIRST_NAME, JStr (u "Ana"));
                               (LAST_NAME, JStr (u "Cruz"))])]).
Proof.
  apply (parse_ai_response_returns_valid_record loads always_500
           default_processor COMPLETE_EXAMPLE None None).
  vm_compute. reflexivity.
Defined.

Lemma valid_record_has_section v :
  valid_record v ->
  exists d, v = JDict d /\ dict_has d PERSONAL_INFORMATION = true
            /\ truthy v = true.
Proof.
  intros (d & section & fn & ln & -> & Hs & _).
  exists d. split; [reflexivity|]. unfold dict_has. rewrite Hs.
  split; [reflexivity|]. destruct d; [discriminate | reflexivity].
Qed.

Lemma bind_inr {A B} (m : Run A) (k : A -> Run B) (b : B) :
  fst (bind m k) = inr b <-> exists a, fst m = inr a /\ fst (k a) = inr b.
Proof.
  unfold bind. destruct m as [[e|a] l]; cbn.
  - split; [discriminate | intros (a & H & _); discriminate H].
  - destruct (k a) as [r l'] eqn:E; cbn. split.
    + intros ->. exists a. rewrite E. split; reflexivity.
    + intros (a' & [= <-] & H). rewrite E in H. exact H.
Qed.

(** X8.  An attempt succeeds exactly when the call and the parse of its
    content both return: the two checks at the end of the [try] block of
    [_process_cv_single_request] never reject a parsed result.  The record
    of a successful attempt names the model of the attempt and holds the
    parsed result, which is valid. *)
Theorem try_model_returns_the_parsed_result
    (json_loads : str -> option json)
    (post : request_kind -> str -> str -> Z -> exn + reply)
    (self : AIProcessor) (filename text_content model : str) :
  let prompt := _create_cv_prompt filename text_content in
  let call := _call_openrouter_api post self prompt model in
  (forall info v,
     fst call = inr info ->
     fst (_parse_ai_response json_loads post self (info_content info)
            (Some prompt) (Some model)) = inr v ->
     fst (try_model json_loads post self filename text_content model)
     = inr {| ai_data := v; model_used := model |}) /\
  (forall r,
     fst (try_model json_loads post self filename text_content model) = inr r ->
     model_used r = model /\ valid_record (ai_data r) /\
     exists info,
       fst call = inr info
       /\ fst (_parse_ai_response json_loads post self (info_content info)
                 (Some prompt) (Some model)) = inr (ai_data r)).
Proof.
  cbv zeta. unfold try_model. split.
  - intros info v Hc Hp. apply bind_inr. exists info. split; [exact Hc|].
    apply bind_inr. exists v. split; [exact Hp|].
    pose proof (parse_ai_response_valid json_loads post self _ _ _ v Hp)
      as Hvalid.
    destruct (valid_record_has_section v Hvalid) as (d & -> & Hhas & _).
    rewrite Hhas. reflexivity.
  - intros r Hr. apply bind_inr in Hr. destruct Hr as (info & Hc & Hr).
    apply bind_inr in Hr. destruct Hr as (v & Hp & Hr).
    pose proof (parse_ai_response_valid json_loads post self _ _ _ v Hp)
      as Hvalid.
    destruct (valid_record_has_section v Hvalid) as (d & -> & Hhas & _).
    rewrite Hhas in Hr. cbn in Hr. injection Hr as <-. cbn.
    split; [reflexivity|]. split; [exact Hvalid|].
    exists info. split; assumption.
Qed.

(** ** Results and logs of composed runs *)

Lemma bind_fst {A B} (m : Run A) (k : A -> Run B) :
  fst (bind m k) = match fst m with
                   | inl e => inl e
                   | inr a => fst (k a)
                   end.
Proof.
  unfold bind. destruct m as [[e|a] l]; [reflexivity|].
  cbn [fst]. now destruct (k a).
Qed.

Lemma bind_snd {A B} (m : Run A) (k : A -> Run B) :
  snd (bind m k) = snd m ++ match fst m with
                            | inl _ => []
                            | inr a => snd (k a)
                            end.
Proof.
  unfold bind. destruct m as [[e|a] l]; cbn [fst snd];
    [now rewrite app_nil_r|].
  now destruct (k a).
Qed.

Lemma catch_fst {A} (m : Run A) (h : exn -> Run A) :
  fst (catch m h) = match fst m with
                    | inl e => fst (h e)
                    | inr a => inr a
                    end.
Proof.
  unfold catch. destruct m as [[e|a] l]; [|reflexivity].
  cbn [fst]. now destruct (h e).
Qed.

Lemma catch_snd {A} (m : Run A) (h : exn -> Run A) :
  snd (catch m h) = snd m ++ match fst m with
                             | inl e => snd (h e)
                             | inr _ => []
                             end.
Proof.
  unfold catch. destruct m as [[e|a] l]; cbn [fst snd];
    [|now rewrite app_nil_r].
  now destruct (h e).
Qed.

Lemma try_model_valid json_loads post self filename text_content model r :
  fst (try_model json_loads post self filename text_content model) = inr r ->
  model_used r = model /\ valid_record (ai_data r).
Proof.
  unfold try_model. intros Hr.
  apply bind_inr in Hr. destruct Hr as (info & _ & Hr).
  apply bind_inr in Hr. destruct Hr as (v & Hp & Hr).
  pose proof (parse_ai_response_valid json_loads post self _ _ _ v Hp)
    as Hvalid.
  destruct (valid_record_has_section v Hvalid) as (d & -> & Hhas & _).
  rewrite Hhas in Hr. cbn in Hr. injection Hr as <-. split; [reflexivity|].
  exact Hvalid.
Qed.

Lemma first_success_split attempt models r :
  first_success attempt models = Some r <->
  exists tried m rest,
    models = tried ++ m :: rest
    /\ Forall (fun m' => succeeded (attempt m') = false) tried
    /\ fst (attempt m) = inr r.
Proof.
  induction models as [|m0 rest0 IH]; cbn [first_success].
  - split; [discriminate | intros ([|? ?] & ? & ? & H & _); discriminate H].
  - destruct (fst (attempt m0)) as [e|r0] eqn:E.
    + rewrite IH. split.
      * intros (tried & m & rest & -> & Hf & Hm).
        exists (m0 :: tried), m, rest. split; [reflexivity|].
        split; [|exact Hm]. constructor; [|exact Hf].
        unfold succeeded. now rewrite E.
      * intros ([|t tried] & m & rest & Heq & Hf & Hm);
          injection Heq as <- ->; [rewrite E in Hm; discriminate Hm|].
        exists tried, m, rest. split; [reflexivity|].
        split; [now inversion Hf | exact Hm].
    + split.
      * intros [= <-]. exists [], m0, rest0. repeat split; [constructor | exact E].
      * intros ([|t tried] & m & rest & Heq & Hf & Hm); injection Heq as <- ->.
        -- rewrite E in Hm. now injection Hm as ->.
        -- inversion Hf as [|? ? Ht _]. unfold succeeded in Ht.
           rewrite E in Ht. discriminate Ht.
Qed.

Section ReturnProperties.

Variable json_loads : str -> option json.
Variable post : request_kind -> str -> str -> Z -> exn + reply.
Variable self : AIProcessor.
Variables filename text_content : str.

Let attempt (model : str) : Run success :=
  try_model json_loads post self filename text_content model.

Lemma models_loop_first models : forall last,
  match first_success attempt models with
  | Some r =>
      fst (models_loop json_loads post self filename text_content models last)
      = inr (inl r)
  | None =>
      exists last_error,
        fst (models_loop json_loads post self filename text_content models last)
        = inr (inr last_error)
  end.
Proof.
  induction models as [|m rest IH]; intros last; cbn [first_success models_loop].
  - now exists last.
  - rewrite catch_fst, bind_fst. fold (attempt m).
    destruct (fst (attempt m)) as [e|r]; [apply IH | reflexivity].
Qed.

Lemma single_request_first model :
  match first_success attempt (models_to_try self) with
  | Some r =>
      fst (_process_cv_single_request json_loads post self filename text_content
             model) = inr r
  | None =>
      fails (fst (_process_cv_single_request json_loads post self filename
                    text_content model))
  end.
Proof.
  unfold _process_cv_single_request. rewrite bind_fst.
  pose proof (models_loop_first (models_to_try self) None) as H.
  destruct (first_success attempt (models_to_try self)) as [r|].
  - now rewrite H.
  - destruct H as [le ->]. eexists. reflexivity.
Qed.

Lemma fallback_loop_none models primary_error :
  first_success attempt (models_to_try self) = None ->
  fails (fst (fallback_loop json_loads post self filename text_content models
                primary_error)).
Proof.
  intros Hnone. induction models as [|m rest IH]; cbn [fallback_loop].
  - eexists. reflexivity.
  - rewrite catch_fst. pose proof (single_request_first m) as H.
    rewrite Hnone in H. destruct H as [e ->]. exact IH.
Qed.

Lemma process_first :
  match first_success attempt (models_to_try self) with
  | Some r =>
      fst (process_cv_to_json json_loads post self filename text_content)
      = inr r
  | None =>
      fails (fst (process_cv_to_json json_loads post self filename text_content))
  end.
Proof.
  unfold process_cv_to_json. rewrite catch_fst.
  pose proof (single_request_first (primary_model self)) as H.
  destruct (first_success attempt (models_to_try self)) as [r|] eqn:E.
  - now rewrite H.
  - destruct H as [e ->].
    destruct (negb (enable_fallback_models self)); [eexists; reflexivity|].
    now apply fallback_loop_none.
Qed.

Lemma process_result r :
  fst (process_cv_to_json json_loads post self filename text_content) = inr r
  <-> first_success attempt (models_to_try self) = Some r.
Proof.
  pose proof process_first as H.
  destruct (first_success attempt (models_to_try self)) as [r0|].
  - rewrite H. split; intros [= ->]; reflexivity.
  - destruct H as [e ->]. split; discriminate.
Qed.

(** X9.  [process_cv_to_json] returns exactly what the first model of the
    list of models whose attempt succeeds returned, and fails when none
    succeeds.  What it returns names that model, which no model before it
    in the list could answer, and holds a record with a personal_information
    section with a first and a last name. *)
Theorem process_returns_first_success :
  (forall r,
     fst (process_cv_to_json json_loads post self filename text_content) = inr r
     <-> first_success attempt (models_to_try self) = Some r) /\
  (first_success attempt (models_to_try self) = None ->
   fails (fst (process_cv_to_json json_loads post self filename text_content))) /\
  (forall r,
     fst (process_cv_to_json json_loads post self filename text_content) = inr r ->
     valid_record (ai_data r) /\
     exists tried rest,
       models_to_try self = tried ++ model_used r :: rest
       /\ Forall (fun m => succeeded (attempt m) = false) tried
       /\ fst (attempt (model_used r)) = inr r).
Proof.
  split; [exact process_result|]. split.
  - intros Hnone. pose proof process_first as H. now rewrite Hnone in H.
  - intros r Hr. apply process_result in Hr.
    apply first_success_split in Hr.
    destruct Hr as (tried & m & rest & Heq & Hf & Hm).
    destruct (try_model_valid _ _ _ _ _ _ _ Hm) as [Hmodel Hvalid].
    split; [exact Hvalid|]. exists tried, rest. rewrite Hmodel.
    repeat split; assumption.
Qed.

(** X10.  The checks the workflow makes on the result of
    [process_cv_to_json] never fail: whatever the extraction returns is
    true, an object, and has the personal_information key. *)
Theorem workflow_accepts_every_result (r : success) :
  fst (process_cv_to_json json_loads post self filename text_content) = inr r ->
  exists d, ai_data r = JDict d /\ workflow_ai_result r = inr d.
Proof.
  intros Hr. apply process_result in Hr. apply first_success_split in Hr.
  destruct Hr as (tried & m & rest & _ & _ & Hm).
  destruct (try_model_valid _ _ _ _ _ _ _ Hm) as [_ Hvalid].
  destruct (valid_record_has_section _ Hvalid) as (d & Hd & Hhas & Ht).
  exists d. split; [exact Hd|]. unfold workflow_ai_result.
  rewrite Ht, Hd, Hhas. reflexivity.
Qed.

End ReturnProperties.

Lemma workflow_accepts_every_result_witness :
  exists d,
    ai_data {| ai_data := JDict [(PERSONAL_INFORMATION,
                                  JDict [(FIRST_NAME, JStr (u "Ana"));
                                         (LAST_NAME, JStr (u "Cruz"))])];
               model_used := primary_model default_processor |} = JDict d
    /\ workflow_ai_result
         {| ai_data := JDict [(PERSONAL_INFORMATION,
                               JDict [(FIRST_NAME, JStr (u "Ana"));
                                      (LAST_NAME, JStr (u "Cruz"))])];
            model_used := primary_model default_processor |} = inr d.
Proof.
  apply (workflow_accepts_every_result loads
           (answers COMPLETE_EXAMPLE (Some (u "stop"))) default_processor
           (u "cv.pdf") (u "Ana Cruz")).
  vm_compute. reflexivity.
Defined.

(** ** The requests of a run *)

Lemma posts_app a b : posts (a ++ b) = posts a ++ posts b.
Proof. unfold posts. apply filter_app. Qed.

Lemma continue_ai_response_log post self raw prompt model :
  snd (_continue_ai_response post self raw prompt model)
  = if (_find_last_complete_structure raw =? 0)%nat then []
    else [Post Continuation model
            (continuation_prompt
               (firstn (_find_last_complete_structure raw) raw))
            (Z.min 10000 (limits_get (model_token_limits self) model 8000))].
Proof.
  unfold _continue_ai_response.
  destruct (_find_last_complete_structure raw =? 0)%nat; [reflexivity|].
  unfold session_post, catch, bind, tell, lift, ret.
  destruct (post Continuation model _ _) as [e|r]; [reflexivity|].
  destruct (negb (status r =? 200)); reflexivity.
Qed.

Lemma continuation_stage_log json_loads post self raw prompt model :
  snd (continuation_stage json_loads post self raw prompt model)
  = match prompt, model with
    | Some p, Some m =>
        if nonempty prompt && nonempty model
           && _has_valid_starting_structure raw
        then snd (_continue_ai_response post self raw p m)
        else []
    | _, _ => []
    end.
Proof.
  unfold continuation_stage.
  destruct prompt as [p|]; [|reflexivity].
  destruct model as [m|]; [|reflexivity].
  destruct (nonempty (Some p) && nonempty (Some m)
            && _has_valid_starting_structure raw); [|reflexivity].
  destruct (continue_ai_response_run post self raw p m) as (c & log & E & _).
  rewrite E. unfold catch, bind, loads_step, lift, ret, raise. cbn [snd].
  destruct c as [[|c cs]|]; try (cbn; now rewrite app_nil_r).
  destruct (_concatenate_responses raw (c :: cs)) as [t|];
    [|cbn; now rewrite !app_nil_r].
  destruct (json_loads t) as [v|]; [|cbn; now rewrite !app_nil_r].
  destruct (_validate_and_return_result v); cbn; now rewrite !app_nil_r.
Qed.

Lemma parse_ai_response_posts json_loads post self raw prompt model :
  posts (snd (_parse_ai_response json_loads post self raw prompt model))
  = match json_loads raw with
    | Some _ => []
    | None => snd (continuation_stage json_loads post self raw prompt model)
    end.
Proof.
  unfold _parse_ai_response.
  destruct (json_loads raw) as [v|]; [reflexivity|].
  pose proof (continuation_stage_log json_loads post self raw prompt model)
    as Hlog.
  assert (Hp : posts (snd (continuation_stage json_loads post self raw prompt
                             model))
               = snd (continuation_stage json_loads post self raw prompt model)).
  { rewrite Hlog. destruct prompt as [p|]; [|reflexivity].
    destruct model as [m|]; [|reflexivity].
    destruct (nonempty (Some p) && nonempty (Some m)
              && _has_valid_starting_structure raw); [|reflexivity].
    rewrite continue_ai_response_log.
    now destruct (_find_last_complete_structure raw =? 0)%nat. }
  destruct (continuation_stage_run json_loads post self raw prompt model)
    as (v & log & E & _).
  rewrite E in *. cbn [snd] in *. unfold bind at 1.
  destruct v as [v|]; cbn [ret]; [cbn [snd]; now rewrite app_nil_r|].
  rewrite !repair_stage_spec. unfold bind, ret, raise.
  destruct (accepted json_loads FixCommonIssues raw);
    [|destruct (accepted json_loads ExtractValidJson raw);
      [|destruct (accepted json_loads CompleteTruncatedJson raw)]];
    cbn [snd]; rewrite !posts_app, Hp; cbn; now rewrite app_nil_r.
Qed.

(** X11.  [_parse_ai_response] posts at most one request: a continuation
    request to the model it was given, with the continuation prompt of the
    longest balanced prefix of the reply and a budget of at most 10000
    tokens.  It posts none when the reply has no balanced prefix. *)
Theorem parse_posts_at_most_one_continuation
    (json_loads : str -> option json)
    (post : request_kind -> str -> str -> Z -> exn + reply)
    (self : AIProcessor) (raw : str) (prompt model : option str) :
  let log := snd (_parse_ai_response json_loads post self raw prompt model) in
  (posts log = [] \/
   exists p m budget,
     prompt = Some p /\ model = Some m
     /\ posts log
        = [Post Continuation m
             (continuation_prompt
                (firstn (_find_last_complete_structure raw) raw))
             budget]
     /\ budget = Z.min 10000 (limits_get (model_token_limits self) m 8000)
     /\ budget <= 10000) /\
  (_find_last_complete_structure raw = 0%nat -> posts log = []).
Proof.
  cbv zeta. rewrite parse_ai_response_posts.
  split.
  - destruct (json_loads raw); [now left|].
    rewrite continuation_stage_log.
    destruct prompt as [p|]; [|now left].
    destruct model as [m|]; [|now left].
    destruct (nonempty (Some p) && nonempty (Some m)
              && _has_valid_starting_structure raw); [|now left].
    rewrite continue_ai_response_log.
    destruct (_find_last_complete_structure raw =? 0)%nat; [now left|].
    right. exists p, m, (Z.min 10000 (limits_get (model_token_limits self) m 8000)).
    repeat split; lia.
  - intros H0. destruct (json_loads raw); [reflexivity|].
    rewrite continuation_stage_log.
    destruct prompt as [p|]; [|reflexivity].
    destruct model as [m|]; [|reflexivity].
    destruct (nonempty (Some p) && nonempty (Some m)
              && _has_valid_starting_structure raw); [|reflexivity].
    rewrite continue_ai_response_log, H0. reflexivity.
Qed.

(** ** The outcomes of the extraction request *)

Lemma calculate_max_tokens_range self model n :
  2000 <= _calculate_max_tokens self model n <= 30000.
Proof.
  unfold _calculate_max_tokens, MIN_MAX_TOKENS, SAFETY_BUFFER_TOKENS.
  cbv zeta.
  destruct (100000 <? n); [lia|].
  destruct (50000 <? n); [lia|].
  destruct (20000 <? n); lia.
Qed.

(** X12.  [_call_openrouter_api] posts one request, the prompt to the model
    with the budget computed for it.  A failure of the request is passed
    on as it is; a reply that is not a 200 is raised with its status and
    text, without a truncation check; a 200 reply is always returned, with
    the model and the finish reason of the reply, and when a truncation was
    reported on a text without stray closer the text returned is
    balanced. *)
Theorem call_openrouter_api_outcomes
    (post : request_kind -> str -> str -> Z -> exn + reply)
    (self : AIProcessor) (prompt model : str) :
  let budget := _calculate_max_tokens self model (Z.of_nat (length prompt)) in
  let request := Post Extraction model prompt budget in
  let run := _call_openrouter_api post self prompt model in
  posts (snd run) = [request] /\
  match post Extraction model prompt budget with
  | inl e => run = (inl e, [request])
  | inr r =>
      if status r =? 200 then
        exists text,
          fst run = inr {| info_content := text;
                           info_model_used := model;
                           info_finish_reason := finish_reason r |}
          /\ (warned (snd run) = true ->
              no_stray_closers (content r) = true ->
              balanced text)
      else
        run = (inl (OpenRouterAPIError (status r) (error_text r)), [request])
  end.
Proof.
  cbv zeta. unfold _call_openrouter_api, session_post.
  unfold bind at 4. unfold tell, lift.
  destruct (post Extraction model prompt _) as [e|r]; [split; reflexivity|].
  cbn [bind]. destruct (status r =? 200); cbn [negb]; [|split; reflexivity].
  pose proof (fix_truncated_depth (content r)) as Hd.
  destruct (opt_str_eqb (finish_reason r) (u "length")).
  - cbn [bind tell ret app].
    destruct (negb (endswith_char (strip (_fix_truncated_json (content r)))
                      RBRACE)); cbn.
    + split; [reflexivity|]. eexists. split; [reflexivity|].
      intros _ Hs. unfold balanced.
      rewrite (fix_truncated_balanced _ (Hd Hs)), depth_strip. now apply Hd.
    + split; [reflexivity|]. eexists. split; [reflexivity|].
      intros _ Hs. now apply Hd.
  - cbn [bind tell ret app].
    destruct (negb (endswith_char (strip (content r)) RBRACE)); cbn.
    + split; [reflexivity|]. eexists. split; [reflexivity|].
      intros _ Hs. now apply Hd.
    + split; [reflexivity|]. eexists. split; [reflexivity|]. discriminate.
Qed.

(** ** The format check on its own *)

Lemma personal_field_error personal_info field e :
  personal_field personal_info field = inl e -> e = TypeError.
Proof.
  destruct personal_info as [|b|n|f|s|l|d]; cbn;
    try (now intros [= <-]); try discriminate.
  - destruct (contains field s); [now intros [= <-] | discriminate].
  - destruct (existsb _ l); [now intros [= <-] | discriminate].
Qed.

Lemma check_personal_fails personal_info fields :
  (forall e, check_personal personal_info fields = inl e -> e = TypeError) /\
  (fails (check_personal personal_info fields) <->
   exists field,
     In field (map fst fields)
     /\ fails (personal_field personal_info field)).
Proof.
  induction fields as [|[field t] fields [IHe IH]]; cbn [check_personal map].
  - split; [discriminate|].
    split; [intros [e He]; discriminate He | intros (f & [] & _)].
  - destruct (personal_field personal_info field) as [e0|found] eqn:E.
    + split; [intros e [= <-]; now apply personal_field_error in E|].
      split; [|intros _; eexists; reflexivity].
      intros _. exists field. split; [now left|]. rewrite E. now exists e0.
    + destruct (check_personal personal_info fields) as [e1|ws].
      * split; [intros e [= <-]; now apply IHe|].
        split; [|intros _; eexists; reflexivity].
        intros _. destruct IH as [IH _].
        destruct IH as (f & Hin & Hf); [eexists; reflexivity|].
        exists f. split; [now right | exact Hf].
      * split; [discriminate|]. split; [intros [e He]; discriminate He|].
        intros (f & [<- | Hin] & Hf).
        -- cbn [fst] in Hf. rewrite E in Hf. destruct Hf as [e He].
           discriminate He.
        -- destruct IH as [_ IH]. destruct IH as [e He]; [eauto|].
           discriminate He.
Qed.

Lemma personal_field_fails personal_info field :
  fails (personal_field personal_info field) <->
  match personal_info with
  | JDict _ => False
  | JStr s => contains field s = true
  | JList l => In (JStr field) l
  | _ => True
  end.
Proof.
  unfold fails.
  destruct personal_info as [|b|n|f|s|l|d]; cbn;
    try (split; [intros _; exact I | intros _; eexists; reflexivity]).
  - destruct (contains field s);
      [split; [reflexivity | eexists; reflexivity]
      | split; [intros [e He]; discriminate He | discriminate]].
  - destruct (existsb _ l) eqn:E.
    + split; [|intros _; eexists; reflexivity]. intros _.
      apply existsb_exists in E. destruct E as (x & Hin & Hx).
      destruct x; try discriminate. apply str_eqb_eq in Hx. now subst.
    + split; [intros [e He]; discriminate He|]. intros Hin.
      assert (Ht : existsb (fun x => match x with
                                     | JStr t => Str.eqb t field
                                     | _ => false
                                     end) l = true).
      { apply existsb_exists. exists (JStr field). split; [exact Hin|].
        now apply str_eqb_eq. }
      rewrite E in Ht. discriminate Ht.
  - split; [intros [e He]; discriminate He | intros []].
Qed.

(** X13.  Called on its own, [_validate_json_format] raises only when the
    personal_information entry is there and is not an object, and then a
    [TypeError]: always for null, a Boolean or a number; for a string when
    it contains the name of one of the thirteen personal fields; for a list
    when it has such a name as an item.  Nothing else in the data makes it
    raise. *)
Theorem validate_json_format_raises (data : dict) :
  (forall e, _validate_json_format data = inl e -> e = TypeError) /\
  (fails (_validate_json_format data) <->
   exists personal_info,
     dict_get data PERSONAL_INFORMATION = Some personal_info /\
     match personal_info with
     | JDict _ => False
     | JStr s =>
         exists field,
           In field (map fst expected_personal_fields)
           /\ contains field s = true
     | JList l =>
         exists field,
           In field (map fst expected_personal_fields)
           /\ In (JStr field) l
     | _ => True
     end).
Proof.
  unfold _validate_json_format.
  destruct (dict_get data PERSONAL_INFORMATION) as [personal_info|].
  2:{ split; [discriminate|].
      split; [intros [e He]; discriminate He | intros (? & H & _); discriminate H]. }
  destruct (check_personal_fails personal_info expected_personal_fields)
    as [He Hf].
  assert (Hw : exists f0 rest, map fst expected_personal_fields = f0 :: rest)
    by (do 2 eexists; reflexivity).
  destruct (check_personal personal_info expected_personal_fields) as [e|ws].
  - split; [intros e' [= <-]; now apply He|].
    split; [|intros _; eexists; reflexivity]. intros _.
    destruct Hf as [Hf _]. destruct Hf as (f & Hin & Hfail);
      [eexists; reflexivity|].
    exists personal_info. split; [reflexivity|].
    apply personal_field_fails in Hfail.
    destruct personal_info; try exact I; try exact Hfail; eauto.
  - split; [discriminate|]. split; [intros [e He']; discriminate He'|].
    intros (pi & [= <-] & Hpi). destruct Hf as [_ Hf].
    destruct Hf as [e He'].
    + destruct Hw as (f0 & rest & Hw).
      destruct personal_info as [|b|n|f|s|l|d];
        try (exists f0; split; [rewrite Hw; now left
                               | now apply personal_field_fails]).
      * destruct Hpi as (f & Hin & Hc). exists f. split; [exact Hin|].
        now apply personal_field_fails.
      * destruct Hpi as (f & Hin & Hc). exists f. split; [exact Hin|].
        now apply personal_field_fails.
    + discriminate He'.
Qed.

Lemma check_structure_silent (data : dict) (table : list (str * pytype)) :
  flat_map (fun '(key, expected_type) =>
    match dict_get data key with
    | Some v =>
        if isinstance v expected_type then []
        else [FieldType key expected_type (type_of v)]
    | None => [MissingOptional key]
    end) table = [] <->
  Forall (fun '(key, expected_type) =>
            exists v, dict_get data key = Some v
                      /\ isinstance v expected_type = true) table.
Proof.
  induction table as [|[key t] table IH]; cbn [flat_map].
  - split; [constructor | reflexivity].
  - split.
    + intros H. apply app_eq_nil in H as [H1 H2]. constructor; [|now apply IH].
      destruct (dict_get data key) as [v|]; [|discriminate].
      exists v. split; [reflexivity|].
      now destruct (isinstance v t).
    + intros H. inversion H as [|? ? Hhead Hrest]; subst.
      destruct Hhead as (v & Hv & Hi).
      rewrite Hv, Hi. cbn. now apply IH.
Qed.

Lemma check_personal_silent (d : dict) (fields : list (str * pytype)) :
  check_personal (JDict d) fields = inr [] <->
  Forall (fun '(field, expected_type) =>
            exists v, dict_get d field = Some v
                      /\ isinstance v expected_type = true) fields.
Proof.
  induction fields as [|[field t] fields IH]; cbn [check_personal personal_field].
  - split; [constructor | reflexivity].
  - destruct (check_personal_dict d fields) as [ws Hws]. rewrite Hws in *.
    split.
    + intros [= H]. apply app_eq_nil in H as [H1 ->].
      constructor; [|now apply IH].
      destruct (dict_get d field) as [v|]; [|discriminate].
      exists v. split; [reflexivity|]. now destruct (isinstance v t).
    + intros H. inversion H as [|? ? Hhead Hrest]; subst.
      destruct Hhead as (v & Hv & Hi).
      rewrite Hv, Hi. apply IH in Hrest. injection Hrest as ->. reflexivity.
Qed.

Lemma check_references_silent (refs : list json) : forall i,
  check_references refs i = [] <->
  Forall (fun reference =>
            exists r, reference = JDict r
                      /\ dict_has r (u "name") = true
                      /\ dict_has r (u "relationship") = true) refs.
Proof.
  induction refs as [|reference refs IH]; intros i; cbn [check_references].
  - split; [constructor | reflexivity].
  - split.
    + intros H. apply app_eq_nil in H as [H1 H2].
      constructor; [|now apply (IH (S i))].
      destruct reference as [| | | | | |r]; try discriminate.
      exists r. split; [reflexivity|].
      destruct (dict_has r (u "name")); [|discriminate].
      destruct (dict_has r (u "relationship")); [|discriminate].
      split; reflexivity.
    + intros H. inversion H as [|? ? Hhead Hrest]; subst.
      destruct Hhead as (r & -> & Hn & Hr).
      rewrite Hn, Hr. cbn [app]. now apply (IH (S i)).
Qed.

(** X14.  [_validate_json_format] has no warning to print exactly when each
    of the thirteen expected top-level keys is there with a value of its
    expected type, each of the thirteen expected personal fields is there
    with a value of its expected type, and every reference is an object
    with a name and a relationship. *)
Theorem validate_json_format_silent (data : dict) :
  _validate_json_format data = inr [] <->
  Forall (fun '(key, expected_type) =>
            exists v, dict_get data key = Some v
                      /\ isinstance v expected_type = true)
    expected_structure /\
  (exists personal_info,
     dict_get data PERSONAL_INFORMATION = Some (JDict personal_info)
     /\ Forall (fun '(field, expected_type) =>
                  exists v, dict_get personal_info field = Some v
                            /\ isinstance v expected_type = true)
          expected_personal_fields) /\
  (exists refs,
     dict_get data (u "references") = Some (JList refs)
     /\ Forall (fun reference =>
                  exists r, reference = JDict r
                            /\ dict_has r (u "name") = true
                            /\ dict_has r (u "relationship") = true) refs).
Proof.
  unfold _validate_json_format, check_structure.
  pose proof (check_structure_silent data expected_structure) as Hs.
  set (ws1 := flat_map _ expected_structure) in *.
  split.
  - intros H.
    destruct (dict_get data PERSONAL_INFORMATION) as [pi|] eqn:Epi.
    + destruct (check_personal pi expected_personal_fields) as [e|ws2] eqn:E2;
        [discriminate|].
      injection H as H. apply app_eq_nil in H as [H12 H3].
      apply app_eq_nil in H12 as [H1 ->].
      apply Hs in H1. split; [exact H1|].
      assert (Hpi : exists d, pi = JDict d).
      { inversion H1 as [|? ? Hhead _]; subst.
        destruct Hhead as (v & Hv & Hi).
        change (u "personal_information") with PERSONAL_INFORMATION in Hv.
        rewrite Epi in Hv. injection Hv as <-.
        destruct pi; try discriminate. eauto. }
      destruct Hpi as [d ->]. split.
      * exists d. split; [reflexivity|]. now apply check_personal_silent.
      * assert (Hr : exists v, dict_get data (u "references") = Some v
                               /\ isinstance v TList = true).
        { rewrite Forall_forall in H1.
          apply (H1 (u "references", TList)). cbn. tauto. }
        destruct Hr as (v & Hv & Hi). rewrite Hv in H3.
        destruct v as [| | | | |refs|]; try discriminate.
        exists refs. split; [exact Hv|]. now apply (check_references_silent refs 0).
    + exfalso. injection H as H. apply app_eq_nil in H as [H12 _].
      apply app_eq_nil in H12 as [H1 _]. apply Hs in H1.
      inversion H1 as [|? ? Hhead _]; subst.
      destruct Hhead as (v & Hv & _).
      change (u "personal_information") with PERSONAL_INFORMATION in Hv.
      rewrite Epi in Hv. discriminate Hv.
  - intros (H1 & (d & Hd & H2) & (refs & Hr & H3)).
    rewrite Hd. apply check_personal_silent in H2. rewrite H2.
    apply Hs in H1. rewrite H1, Hr. cbn [app].
    apply (check_references_silent refs 0) in H3. now rewrite H3.
Qed.

(** ** Every request of an extraction *)

Section RequestProperties.

Variable json_loads : str -> option json.
Variable post : request_kind -> str -> str -> Z -> exn + reply.
Variable self : AIProcessor.
Variables filename text_content : str.

Lemma call_requests model :
  In model (models_to_try self) ->
  Forall (request_in_bounds self filename text_content)
    (snd (_call_openrouter_api post self
            (_create_cv_prompt filename text_content) model)).
Proof.
  intros Hin. unfold _call_openrouter_api, session_post.
  unfold bind at 4. unfold tell, lift.
  assert (Hpost : request_in_bounds self filename text_content
                    (Post Extraction model
                       (_create_cv_prompt filename text_content)
                       (_calculate_max_tokens self model
                          (Z.of_nat
                             (length (_create_cv_prompt filename text_content)))))).
  { cbn. repeat split; try assumption; apply calculate_max_tokens_range. }
  destruct (post Extraction model _ _) as [e|r];
    [cbn [snd app]; now constructor|].
  cbn [bind]. destruct (negb (status r =? 200));
    [cbn [snd raise app]; now constructor|].
  destruct (opt_str_eqb (finish_reason r) (u "length")); cbn [bind tell ret app].
  - destruct (negb (endswith_char (strip (_fix_truncated_json (content r)))
                      RBRACE)); cbn [snd app];
      repeat first [apply Forall_nil
                   | apply Forall_cons; [first [exact Hpost | exact I]|]].
  - destruct (negb (endswith_char (strip (content r)) RBRACE)); cbn [snd app];
      repeat first [apply Forall_nil
                   | apply Forall_cons; [first [exact Hpost | exact I]|]].
Qed.

Lemma parse_requests raw prompt model :
  In model (models_to_try self) ->
  Forall (request_in_bounds self filename text_content)
    (snd (_parse_ai_response json_loads post self raw (Some prompt)
            (Some model))).
Proof.
  intros Hin. unfold _parse_ai_response.
  destruct (json_loads raw) as [v|]; [constructor|].
  pose proof (continuation_stage_log json_loads post self raw (Some prompt)
                (Some model)) as Hlog.
  assert (Hc : Forall (request_in_bounds self filename text_content)
                 (snd (continuation_stage json_loads post self raw
                         (Some prompt) (Some model)))).
  { rewrite Hlog.
    destruct (nonempty (Some prompt) && nonempty (Some model)
              && _has_valid_starting_structure raw); [|constructor].
    rewrite continue_ai_response_log.
    destruct (_find_last_complete_structure raw =? 0)%nat; [constructor|].
    constructor; [|constructor]. cbn. split; [exact Hin | lia]. }
  destruct (continuation_stage_run json_loads post self raw (Some prompt)
              (Some model)) as (v & log & E & _).
  rewrite E in *. cbn [snd] in Hc. unfold bind at 1.
  destruct v as [v|]; cbn [ret]; [cbn [snd]; now rewrite app_nil_r|].
  rewrite !repair_stage_spec. unfold bind, ret, raise.
  destruct (accepted json_loads FixCommonIssues raw);
    [|destruct (accepted json_loads ExtractValidJson raw);
      [|destruct (accepted json_loads CompleteTruncatedJson raw)]];
    cbn [snd]; apply Forall_app; (split; [exact Hc|]);
    cbn [app];
    repeat first [apply Forall_nil | apply Forall_cons; [exact I|]].
Qed.

Lemma try_model_requests model :
  In model (models_to_try self) ->
  Forall (request_in_bounds self filename text_content)
    (snd (try_model json_loads post self filename text_content model)).
Proof.
  intros Hin. unfold try_model. rewrite bind_snd. apply Forall_app.
  split; [now apply call_requests|].
  destruct (fst (_call_openrouter_api post self _ model)) as [e|info];
    [constructor|].
  rewrite bind_snd. apply Forall_app. split; [now apply parse_requests|].
  destruct (fst (_parse_ai_response json_loads post self _ _ _)) as [e|v];
    [constructor|].
  destruct v as [| | | | | |d]; try constructor.
  destruct (negb (dict_has d PERSONAL_INFORMATION)); constructor.
Qed.

Lemma models_loop_requests models : forall last,
  incl models (models_to_try self) ->
  Forall (request_in_bounds self filename text_content)
    (snd (models_loop json_loads post self filename text_content models last)).
Proof.
  induction models as [|m rest IH]; intros last Hincl; cbn [models_loop];
    [constructor|].
  rewrite catch_snd, bind_snd, bind_fst. apply Forall_app. split.
  - apply Forall_app. split; [apply try_model_requests, Hincl; now left|].
    destruct (fst (try_model json_loads post self filename text_content m));
      constructor.
  - destruct (fst (try_model json_loads post self filename text_content m));
      [|constructor].
    apply IH. intros x Hx. apply Hincl. now right.
Qed.

Lemma single_request_requests model :
  Forall (request_in_bounds self filename text_content)
    (snd (_process_cv_single_request json_loads post self filename text_content
            model)).
Proof.
  unfold _process_cv_single_request. rewrite bind_snd. apply Forall_app.
  split; [apply models_loop_requests, incl_refl|].
  destruct (fst (models_loop json_loads post self filename text_content
                   (models_to_try self) None)) as [e|[r|le]]; constructor.
Qed.

Lemma fallback_loop_requests models primary_error :
  Forall (request_in_bounds self filename text_content)
    (snd (fallback_loop json_loads post self filename text_content models
            primary_error)).
Proof.
  induction models as [|m rest IH]; cbn [fallback_loop]; [constructor|].
  rewrite catch_snd. apply Forall_app. split; [apply single_request_requests|].
  destruct (fst (_process_cv_single_request json_loads post self filename
                   text_content m)); [exact IH | constructor].
Qed.

(** X15.  Every request of a run of [process_cv_to_json], whatever the
    replies, goes to one of the configured models.  An extraction request
    carries the prompt made of the file name and the text and the budget
    computed for its model, which lies between 2000 and 30000 tokens; a
    continuation request carries a budget of at most 10000 tokens. *)
Theorem process_requests_in_bounds :
  Forall (request_in_bounds self filename text_content)
    (snd (process_cv_to_json json_loads post self filename text_content)).
Proof.
  unfold process_cv_to_json. rewrite catch_snd. apply Forall_app.
  split; [apply single_request_requests|].
  destruct (fst (_process_cv_single_request json_loads post self filename
                   text_content (primary_model self))) as [e|r]; [|constructor].
  destruct (negb (enable_fallback_models self)); [constructor|].
  apply fallback_loop_requests.
Qed.

End RequestProperties.

(** ** The key conversion *)

Lemma str_eqb_refl (a : str) : Str.eqb a a = true.
Proof. now apply str_eqb_eq. Qed.

Lemma dict_get_set (d : dict) (k k' : str) (v : json) :
  dict_get (dict_set d k v) k'
  = if Str.eqb k k' then Some v else dict_get d k'.
Proof.
  induction d as [|[k0 v0] d IH]; cbn [dict_set dict_get]; [reflexivity|].
  destruct (Str.eqb k0 k) eqn:E; cbn [dict_get].
  - apply str_eqb_eq in E. subst k0. now destruct (Str.eqb k k').
  - rewrite IH. destruct (Str.eqb k0 k') eqn:E'; [|reflexivity].
    apply str_eqb_eq in E'. subst k'.
    destruct (Str.eqb k k0) eqn:E2; [|reflexivity].
    apply str_eqb_eq in E2. subst k0. rewrite str_eqb_refl in E.
    discriminate E.
Qed.

Lemma dict_get_snoc (d : dict) (k k' : str) (v : json) :
  dict_get (d ++ [(k, v)]) k'
  = match dict_get d k' with
    | Some r => Some r
    | None => if Str.eqb k k' then Some v else None
    end.
Proof.
  induction d as [|[k0 v0] d IH]; cbn [app dict_get]; [reflexivity|].
  now destruct (Str.eqb k0 k').
Qed.

Lemma dict_set_length (d : dict) (k : str) (v : json) :
  (length (dict_set d k v) <= S (length d))%nat.
Proof.
  induction d as [|[k0 v0] d IH]; cbn [dict_set length]; [lia|].
  destruct (Str.eqb k0 k); cbn [length]; lia.
Qed.

Lemma convert_dict capitalize (members : dict) :
  _convert_snake_to_camel_case capitalize (JDict members)
  = JDict (fold_left
             (fun converted (member : str * json) =>
                dict_set converted (camel_key capitalize (fst member))
                  (converted_value capitalize (snd member)))
             members []).
Proof.
  cbn [_convert_snake_to_camel_case]. f_equal.
  generalize (@nil (str * json)) as converted.
  induction members as [|[key value] members IH]; intros converted;
    [reflexivity|].
  cbn [fold_left fst snd]. rewrite <- IH.
  destruct value; reflexivity.
Qed.

Lemma fold_set_get capitalize (members : dict) : forall (converted : dict) k,
  dict_get
    (fold_left
       (fun converted (member : str * json) =>
          dict_set converted (camel_key capitalize (fst member))
            (converted_value capitalize (snd member)))
       members converted) k
  = match dict_get (members_by_camel_key capitalize members) k with
    | Some value => Some (converted_value capitalize value)
    | None => dict_get converted k
    end.
Proof.
  unfold members_by_camel_key.
  induction members as [|[key value] members IH]; intros converted k;
    [reflexivity|].
  cbn [fold_left map rev fst snd]. rewrite IH, dict_get_snoc, dict_get_set.
  destruct (dict_get (rev _) k); [reflexivity|].
  now destruct (Str.eqb (camel_key capitalize key) k).
Qed.

Lemma fold_set_length capitalize (members : dict) : forall converted : dict,
  (length
     (fold_left
        (fun converted (member : str * json) =>
           dict_set converted (camel_key capitalize (fst member))
             (converted_value capitalize (snd member)))
        members converted)
   <= length converted + length members)%nat.
Proof.
  induction members as [|[key value] members IH]; intros converted;
    cbn [fold_left length]; [lia|].
  specialize (IH (dict_set converted (camel_key capitalize key)
                    (converted_value capitalize value))).
  pose proof (dict_set_length converted (camel_key capitalize key)
                (converted_value capitalize value)).
  cbn [fst snd]. lia.
Qed.

Lemma split_no_separator sep s : count sep s = 0 -> split sep s = [s].
Proof.
  induction s as [|c s IH]; cbn [split count]; [reflexivity|].
  pose proof (count_nonneg sep s).
  destruct (N.eqb c sep); [lia|]. intros H0. rewrite IH by lia. reflexivity.
Qed.

Lemma camel_key_plain capitalize key :
  count UNDERSCORE key = 0 -> camel_key capitalize key = key.
Proof.
  intros H. unfold camel_key. rewrite (split_no_separator _ _ H).
  cbn. now rewrite app_nil_r.
Qed.

(** X16.  [_convert_snake_to_camel_case] returns what is not a dict as it
    is.  Of a dict it returns a dict with no more members, in which a key
    holds the converted value of the last member whose converted key it is:
    when two keys convert to the same key, only the value of the later one
    is kept.  A key without underscore converts to itself. *)
Theorem convert_snake_to_camel_case_lookup (capitalize : str -> str) :
  (forall data,
     match data with
     | JDict _ => True
     | _ => _convert_snake_to_camel_case capitalize data = data
     end) /\
  (forall members, exists converted,
     _convert_snake_to_camel_case capitalize (JDict members) = JDict converted
     /\ (length converted <= length members)%nat
     /\ forall key,
          dict_get converted key
          = option_map (converted_value capitalize)
              (dict_get (members_by_camel_key capitalize members) key)) /\
  (forall key, count UNDERSCORE key = 0 -> camel_key capitalize key = key).
Proof.
  split; [intros data; now destruct data|].
  split; [|apply camel_key_plain].
  intros members. eexists. split; [apply convert_dict|]. split.
  - apply (fold_set_length capitalize members []).
  - intros key. rewrite fold_set_get.
    now destruct (dict_get (members_by_camel_key capitalize members) key).
Qed.

Lemma split_words sep s : Forall (fun word => count sep word = 0) (split sep s).
Proof.
  induction s as [|c s IH]; cbn [split]; [repeat constructor|].
  destruct (N.eqb c sep) eqn:E; [constructor; [reflexivity | exact IH]|].
  destruct (split sep s) as [|word words]; [repeat constructor; cbn; now rewrite E|].
  inversion IH as [|? ? Hw Hws]; subst. constructor; [|exact Hws].
  cbn [count]. rewrite E. exact Hw.
Qed.

Lemma camel_key_no_underscore capitalize key :
  (forall word, count UNDERSCORE word = 0 ->
                count UNDERSCORE (capitalize word) = 0) ->
  count UNDERSCORE (camel_key capitalize key) = 0.
Proof.
  intros Hcap. unfold camel_key. pose proof (split_words UNDERSCORE key) as H.
  destruct (split UNDERSCORE key) as [|word words]; [reflexivity|].
  inversion H as [|? ? Hw Hws]; subst. rewrite count_app, Hw.
  clear H Hw. induction Hws as [|w ws Hw _ IH]; [reflexivity|].
  cbn [map concat]. rewrite count_app, (Hcap _ Hw). exact IH.
Qed.

Lemma dict_get_none (d : dict) (k : str) :
  dict_get d k = None <-> ~ In k (map fst d).
Proof.
  induction d as [|[k0 v0] d IH]; cbn [dict_get map fst In]; [tauto|].
  destruct (Str.eqb k0 k) eqn:E.
  - apply str_eqb_eq in E. split; [discriminate | tauto].
  - rewrite IH. split; [|tauto]. intros Hn [Heq | Hin]; [|tauto].
    subst k0. rewrite str_eqb_refl in E. discriminate E.
Qed.

Lemma dict_set_fresh (d : dict) (k : str) (v : json) :
  dict_get d k = None -> dict_set d k v = d ++ [(k, v)].
Proof.
  induction d as [|[k0 v0] d IH]; cbn [dict_get dict_set app]; [reflexivity|].
  destruct (Str.eqb k0 k); [discriminate|]. intros H. now rewrite IH.
Qed.

Lemma dict_set_present (d : dict) (k : str) (v : json) :
  dict_get d k <> None ->
  map fst (dict_set d k v) = map fst d /\
  forall member, In member (dict_set d k v) -> In member d \/ member = (k, v).
Proof.
  induction d as [|[k0 v0] d IH]; cbn [dict_get dict_set]; [congruence|].
  destruct (Str.eqb k0 k) eqn:E.
  - intros _. apply str_eqb_eq in E. subst k0. split; [reflexivity|].
    intros member [<- | Hin]; [now right | left; now right].
  - intros H. destruct (IH H) as [IH1 IH2]. cbn [map fst]. rewrite IH1.
    split; [reflexivity|].
    intros member [<- | Hin]; [left; now left|].
    destruct (IH2 _ Hin) as [Hd | ->]; [left; now right | now right].
Qed.

Section Idempotence.

Variable capitalize : str -> str.
Hypothesis capitalize_no_underscore :
  forall word, count UNDERSCORE word = 0 ->
               count UNDERSCORE (capitalize word) = 0.

Let step (converted : dict) (member : str * json) : dict :=
  dict_set converted (camel_key capitalize (fst member))
    (converted_value capitalize (snd member)).

Let settled (d : dict) : Prop :=
  NoDup (map fst d) /\
  Forall (fun member =>
            count UNDERSCORE (fst member) = 0
            /\ converted_value capitalize (snd member) = snd member) d.

Lemma settled_set (d : dict) (k : str) (v : json) :
  settled d -> count UNDERSCORE k = 0 ->
  converted_value capitalize v = v ->
  settled (dict_set d k v).
Proof.
  intros [Hnd Hall] Hk Hv. destruct (dict_get d k) eqn:E.
  - destruct (dict_set_present d k v) as [Hkeys Hin]; [congruence|].
    split; [now rewrite Hkeys|].
    apply Forall_forall. intros member Hm.
    destruct (Hin _ Hm) as [Hd | ->]; [|split; assumption].
    rewrite Forall_forall in Hall. now apply Hall.
  - rewrite (dict_set_fresh d k v E). split.
    + rewrite map_app. cbn [map fst]. apply dict_get_none in E.
      apply NoDup_app; [exact Hnd | repeat constructor; intros [] |].
      intros x Hx [<- | []]. now apply E.
    + apply Forall_app. split; [exact Hall|]. repeat constructor; assumption.
Qed.

Lemma settled_fold (members : dict) : forall converted,
  settled converted ->
  Forall (fun member =>
            converted_value capitalize
              (converted_value capitalize (snd member))
            = converted_value capitalize (snd member)) members ->
  settled (fold_left step members converted).
Proof.
  induction members as [|member members IH]; intros converted Hs Hall;
    [exact Hs|].
  inversion Hall as [|? ? Hm Hrest]; subst. cbn [fold_left].
  apply IH; [|exact Hrest]. unfold step.
  apply settled_set;
    [exact Hs | now apply camel_key_no_underscore | exact Hm].
Qed.

Lemma fold_settled (d : dict) : forall converted,
  settled d ->
  (forall k, In k (map fst d) -> ~ In k (map fst converted)) ->
  fold_left step d converted = converted ++ d.
Proof.
  induction d as [|[k v] d IH]; intros converted [Hnd Hall] Hfresh;
    [now rewrite app_nil_r|].
  inversion Hnd as [|? ? Hk Hnd']; subst.
  inversion Hall as [|? ? [Hplain Hv] Hall']; subst. cbn [fst snd] in *.
  cbn [fold_left]. unfold step at 2. cbn [fst snd].
  rewrite (camel_key_plain capitalize k Hplain), Hv.
  rewrite dict_set_fresh
    by (apply dict_get_none, Hfresh; now left).
  rewrite IH; [now rewrite <- app_assoc | now split |].
  intros k' Hk'. rewrite map_app. cbn [map fst]. intros Hin.
  apply in_app_or in Hin. destruct Hin as [Hin | [<- | []]].
  - apply (Hfresh k'); [now right | exact Hin].
  - now apply Hk.
Qed.

Lemma convert_twice (data : json) :
  _convert_snake_to_camel_case capitalize
    (_convert_snake_to_camel_case capitalize data)
  = _convert_snake_to_camel_case capitalize data
  /\ converted_value capitalize (converted_value capitalize data)
     = converted_value capitalize data.
Proof.
  induction data as [|b|n|f|s|items IH|members IH] using json_induction;
    try (split; reflexivity).
  - split; [reflexivity|]. cbn [converted_value]. f_equal.
    rewrite map_map. apply map_ext_in. intros item Hin.
    rewrite Forall_forall in IH. destruct (IH item Hin) as [Hitem _].
    destruct item as [| | | | | |d]; try reflexivity.
    rewrite convert_dict in *. exact Hitem.
  - assert (H : _convert_snake_to_camel_case capitalize
                  (_convert_snake_to_camel_case capitalize (JDict members))
                = _convert_snake_to_camel_case capitalize (JDict members)).
    { rewrite (convert_dict capitalize members).
      fold step. rewrite convert_dict. fold step. f_equal.
      apply (fold_settled (fold_left step members []) []); [|intros ? _ []].
      apply settled_fold; [split; constructor|].
      apply Forall_forall. intros member Hin.
      rewrite Forall_forall in IH. now destruct (IH member Hin). }
    split; [exact H|]. cbn [converted_value].
    rewrite (convert_dict capitalize members) in *. exact H.
Qed.

(** X17.  When capitalizing a word puts no underscore in it, as
    [str.capitalize] does not, converting a converted value changes
    nothing: the keys have no underscore left and no two of them are the
    same. *)
Theorem convert_snake_to_camel_case_twice (data : json) :
  _convert_snake_to_camel_case capitalize
    (_convert_snake_to_camel_case capitalize data)
  = _convert_snake_to_camel_case capitalize data.
Proof. apply convert_twice. Qed.

End Idempotence.

Lemma ascii_capitalize_no_underscore word :
  count UNDERSCORE word = 0 -> count UNDERSCORE (ascii_capitalize word) = 0.
Proof.
  assert (Hlower : forall s, count UNDERSCORE s = 0 ->
                             count UNDERSCORE (map ascii_lower s) = 0).
  { induction s as [|c s IH]; cbn [map count]; [reflexivity|].
    pose proof (count_nonneg UNDERSCORE s) as Hn.
    destruct (N.eqb_spec c UNDERSCORE) as [->|Hc]; [lia|]. intros H.
    assert (Hl : N.eqb (ascii_lower c) UNDERSCORE = false).
    { apply N.eqb_neq. unfold ascii_lower, UNDERSCORE in *.
      destruct ((65 <=? c) && (c <=? 90))%N eqn:E; [|exact Hc].
      apply andb_true_iff in E as [E1 E2].
      apply N.leb_le in E1, E2. lia. }
    rewrite Hl. now apply IH. }
  destruct word as [|c rest]; cbn [ascii_capitalize count]; [reflexivity|].
  pose proof (count_nonneg UNDERSCORE rest) as Hn.
  destruct (N.eqb_spec c UNDERSCORE) as [->|Hc]; [lia|]. intros H.
  assert (Hu : N.eqb (ascii_upper c) UNDERSCORE = false).
  { apply N.eqb_neq. unfold ascii_upper, UNDERSCORE in *.
    destruct ((97 <=? c) && (c <=? 122))%N eqn:E; [|exact Hc].
    apply andb_true_iff in E as [E1 E2].
    apply N.leb_le in E1, E2. lia. }
  rewrite Hu. now apply Hlower.
Qed.

Lemma convert_snake_to_camel_case_twice_witness :
  _convert_snake_to_camel_case ascii_capitalize
    (_convert_snake_to_camel_case ascii_capitalize
       (JDict [(u "personal_information",
                JDict [(u "first_name", JStr (u "Ana"))]);
               (u "work_experience",
                JList [JDict [(u "job_title", JNull)]])]))
  = _convert_snake_to_camel_case ascii_capitalize
      (JDict [(u "personal_information",
               JDict [(u "first_name", JStr (u "Ana"))]);
              (u "work_experience",
               JList [JDict [(u "job_title", JNull)]])]).
Proof.
  apply (convert_snake_to_camel_case_twice ascii_capitalize
           ascii_capitalize_no_underscore).
Defined.

(** The keys of a record, converted. *)
Example scenario_camel_keys :
  _convert_snake_to_camel_case ascii_capitalize
    (JDict [(u "personal_information",
             JDict [(u "first_name", JStr (u "Ana"))]);
            (u "work_experience",
             JList [JDict [(u "job_title", JNull)]])])
  = JDict [(u "personalInformation",
            JDict [(u "firstName", JStr (u "Ana"))]);
           (u "workExperience",
            JList [JDict [(u "jobTitle", JNull)]])].
Proof. vm_compute. reflexivity. Qed.

(** ** A reply that parses *)

Lemma valid_record_validates e0 v :
  valid_record v -> validate_result e0 v = inr v.
Proof.
  intros (d & section & fn & ln & -> & Hs & Hf & Tf & Hl & Tl).
  unfold validate_result.
  assert (Hreq : _validate_required_fields d = inr tt).
  { unfold _validate_required_fields. rewrite Hs. cbn [section_get].
    rewrite Hf. cbn [falsy]. rewrite Tf. cbn [negb]. rewrite Hl. cbn [falsy].
    rewrite Tl. reflexivity. }
  rewrite Hreq. destruct (format_after_required d Hreq) as [ws ->].
  reflexivity.
Qed.

(** X18.  A reply that parses is neither continued nor repaired: it is
    returned as it was parsed when it is an object with a
    personal_information section with a first and a last name, and
    rejected otherwise, without a request and without a repair. *)
Theorem parsed_reply_is_final
    (json_loads : str -> option json)
    (post : request_kind -> str -> str -> Z -> exn + reply)
    (self : AIProcessor) (raw : str) (prompt model : option str) (v : json) :
  json_loads raw = Some v ->
  let run := _parse_ai_response json_loads post self raw prompt model in
  snd run = [] /\
  (valid_record v -> fst run = inr v) /\
  (~ valid_record v -> fails (fst run)).
Proof.
  intros Hv. cbv zeta. unfold _parse_ai_response. rewrite Hv.
  unfold lift. cbn [fst snd]. split; [reflexivity|]. split.
  - apply valid_record_validates.
  - intros Hn. destruct (validate_result NotJsonObject v) as [e|r] eqn:E;
      [now exists e|].
    apply validate_result_ok in E as [_ Hok]. contradiction.
Qed.

Lemma parsed_reply_is_final_witness :
  snd (_parse_ai_response loads always_500 default_processor COMPLETE_EXAMPLE
         None None) = [] /\
  (valid_record (JDict [(PERSONAL_INFORMATION,
                         JDict [(FIRST_NAME, JStr (u "Ana"));
                                (LAST_NAME, JStr (u "Cruz"))])]) ->
   fst (_parse_ai_response loads always_500 default_processor COMPLETE_EXAMPLE
          None None)
   = inr (JDict [(PERSONAL_INFORMATION,
                  JDict [(FIRST_NAME, JStr (u "Ana"));
                         (LAST_NAME, JStr (u "Cruz"))])])) /\
  (~ valid_record (JDict [(PERSONAL_INFORMATION,
                           JDict [(FIRST_NAME, JStr (u "Ana"));
                                  (LAST_NAME, JStr (u "Cruz"))])]) ->
   fails (fst (_parse_ai_response loads always_500 default_processor
                 COMPLETE_EXAMPLE None None))).
Proof.
  apply (parsed_reply_is_final loads always_500 default_processor
           COMPLETE_EXAMPLE None None).
  vm_compute. reflexivity.
Defined.

(** ** The requests up to the first success *)

Lemma tried_until_success_split attempt tried m rest :
  Forall (fun m' => succeeded (attempt m') = false) tried ->
  succeeded (attempt m) = true ->
  tried_until_success attempt (tried ++ m :: rest) = tried ++ [m].
Proof.
  intros Hf Hm. induction Hf as [|t tried Ht _ IH]; cbn [app tried_until_success].
  - now rewrite Hm.
  - now rewrite Ht, IH.
Qed.

Lemma catch_returned {A} (m : Run A) (h : exn -> Run A) a :
  fst m = inr a -> catch m h = m.
Proof. unfold catch. destruct m as [[e|a'] l]; [discriminate | reflexivity]. Qed.

(** X19.  A pass of [_process_cv_single_request] that returns has posted
    one extraction request to each model of the list up to the model that
    answered, in list order, and none to the models after it.  When the
    first pass returns, [process_cv_to_json] is that pass: it returns its
    result and posts nothing more. *)
Theorem requests_stop_at_first_success
    (json_loads : str -> option json)
    (post : request_kind -> str -> str -> Z -> exn + reply)
    (self : AIProcessor) (filename text_content model : str) (r : success) :
  fst (_process_cv_single_request json_loads post self filename text_content
         model) = inr r ->
  (exists tried rest,
     models_to_try self = tried ++ model_used r :: rest
     /\ models_invoked
          (snd (_process_cv_single_request json_loads post self filename
                  text_content model))
        = tried ++ [model_used r]) /\
  (model = primary_model self ->
   process_cv_to_json json_loads post self filename text_content
   = _process_cv_single_request json_loads post self filename text_content
       model).
Proof.
  intros Hr. split.
  - pose proof (single_request_first json_loads post self filename text_content
                  model) as Hfirst.
    destruct (first_success
                (try_model json_loads post self filename text_content)
                (models_to_try self)) as [r0|] eqn:E;
      [|destruct Hfirst as [e He]; rewrite He in Hr; discriminate Hr].
    rewrite Hfirst in Hr. injection Hr as ->.
    apply first_success_split in E.
    destruct E as (tried & m & rest & Heq & Hf & Hm).
    destruct (try_model_valid _ _ _ _ _ _ _ Hm) as [Hmodel _].
    exists tried, rest. rewrite Hmodel. split; [exact Heq|].
    assert (Hs : succeeded (try_model json_loads post self filename
                              text_content m) = true)
      by (unfold succeeded; now rewrite Hm).
    destruct (models_loop_spec json_loads post self filename text_content
                (models_to_try self) None) as (Hlog & _).
    unfold _process_cv_single_request. rewrite bind_snd.
    rewrite models_invoked_app, Hlog, Heq.
    rewrite tried_until_success_split; [|exact Hf | exact Hs].
    destruct (fst (models_loop json_loads post self filename text_content
                     (tried ++ m :: rest) None)) as [e|[r'|le]];
      cbn; now rewrite app_nil_r.
  - intros ->. unfold process_cv_to_json. now apply (catch_returned _ _ r).
Qed.

Lemma requests_stop_at_first_success_witness :
  (exists tried rest,
     models_to_try default_processor
     = tried ++ model_used {| ai_data :=
                                JDict [(PERSONAL_INFORMATION,
                                        JDict [(FIRST_NAME, JStr (u "Ana"));
                                               (LAST_NAME, JStr (u "Cruz"))])];
                              model_used := u "openai/gpt-4o" |} :: rest
     /\ models_invoked
          (snd (_process_cv_single_request loads
                  (times_out_for (u "anthropic/claude-3.5-sonnet")
                     COMPLETE_EXAMPLE)
                  default_processor (u "cv.pdf") (u "Ana Cruz")
                  (u "anthropic/claude-3.5-sonnet")))
        = tried ++ [model_used {| ai_data :=
                                    JDict [(PERSONAL_INFORMATION,
                                            JDict [(FIRST_NAME, JStr (u "Ana"));
                                                   (LAST_NAME, JStr (u "Cruz"))])];
                                  model_used := u "openai/gpt-4o" |}]) /\
  (u "anthropic/claude-3.5-sonnet" = primary_model default_processor ->
   process_cv_to_json loads
     (times_out_for (u "anthropic/claude-3.5-sonnet") COMPLETE_EXAMPLE)
     default_processor (u "cv.pdf") (u "Ana Cruz")
   = _process_cv_single_request loads
       (times_out_for (u "anthropic/claude-3.5-sonnet") COMPLETE_EXAMPLE)
       default_processor (u "cv.pdf") (u "Ana Cruz")
       (u "anthropic/claude-3.5-sonnet")).
Proof.
  apply (requests_stop_at_first_success loads
           (times_out_for (u "anthropic/claude-3.5-sonnet") COMPLETE_EXAMPLE)
           default_processor (u "cv.pdf") (u "Ana Cruz")
           (u "anthropic/claude-3.5-sonnet")).
  vm_compute. reflexivity.
Defined.

(** ** Completion applied to its own result *)

Lemma ends_snoc (t : str) (c : char) :
  isspace c = false ->
  forall t' c', t ++ [c] = t' ++ [c'] -> isspace c' = false.
Proof. intros Hc t' c' E. apply app_inj_tail in E as [_ <-]. exact Hc. Qed.

Lemma ends_app (a b : str) :
  (forall t c, b = t ++ [c] -> isspace c = false) ->
  (b = [] -> forall t c, a = t ++ [c] -> isspace c = false) ->
  forall t c, a ++ b = t ++ [c] -> isspace c = false.
Proof.
  intros Hb Ha t c E. destruct b as [|x b'] using rev_ind.
  - rewrite app_nil_r in E. now apply (Ha eq_refl t c).
  - rewrite app_assoc in E. apply app_inj_tail in E as [_ <-].
    now apply (Hb b' x).
Qed.

Lemma sub_from_nonempty p repl c s :
  (forall g, repl g <> []) -> sub_from p repl (c :: s) 0 <> [].
Proof.
  intros Hrepl. cbn [sub_from]. destruct (rx_match p (c :: s) []) as [[g rest]|];
    [|discriminate].
  intros E. apply app_eq_nil in E as [E _]. now apply (Hrepl g).
Qed.

Lemma sub_from_ends p repl :
  (forall g, repl g <> []) ->
  (forall g t c, repl g = t ++ [c] -> isspace c = false) ->
  forall s skip,
    (forall t c, s = t ++ [c] -> isspace c = false) ->
    forall t c, sub_from p repl s skip = t ++ [c] -> isspace c = false.
Proof.
  intros Hne Hrepl. induction s as [|x s IH]; intros skip Hs.
  - intros t c E. now destruct t.
  - assert (Hs' : forall t c, s = t ++ [c] -> isspace c = false).
    { intros t c ->. apply (Hs (x :: t) c). reflexivity. }
    cbn [sub_from]. destruct skip as [|k]; [|now apply IH].
    destruct (rx_match p (x :: s) []) as [[g rest]|].
    + apply ends_app; [now apply IH|]. intros _. apply Hrepl.
    + change (x :: sub_from p repl s 0) with ([x] ++ sub_from p repl s 0).
      apply ends_app; [now apply IH|].
      intros E. destruct s as [|y s'];
        [exact Hs | now apply sub_from_nonempty in E].
Qed.

Lemma sub_head p repl s :
  (forall g, match repl g with
             | c :: _ => isspace c = false
             | [] => False
             end) ->
  match s with c :: _ => isspace c = false | [] => True end ->
  match sub p repl s with c :: _ => isspace c = false | [] => True end.
Proof.
  intros Hrepl Hs. unfold sub. destruct s as [|x s]; [exact I|].
  cbn [sub_from]. destruct (rx_match p (x :: s) []) as [[g rest]|]; [|exact Hs].
  specialize (Hrepl g). now destruct (repl g).
Qed.

Lemma fix_common_trimmed s :
  match s with c :: _ => isspace c = false | [] => True end ->
  (forall t c, s = t ++ [c] -> isspace c = false) ->
  match _fix_common_json_issues s with
  | c :: _ => isspace c = false
  | [] => True
  end
  /\ forall t c, _fix_common_json_issues s = t ++ [c] -> isspace c = false.
Proof.
  intros Hhead Hlast. unfold _fix_common_json_issues. cbv zeta.
  assert (Hcolon : forall a g t c,
            a ++ g ++ js "':" = t ++ [c] -> isspace c = false).
  { intros a g t c. replace (js "':") with ([DQUOTE] ++ [COLON]) by reflexivity.
    rewrite !app_assoc. now apply ends_snoc. }
  assert (Hquote : forall a g t c,
            a ++ g ++ js "'" = t ++ [c] -> isspace c = false).
  { intros a g t c. replace (js "'") with [DQUOTE] by reflexivity.
    rewrite !app_assoc. now apply ends_snoc. }
  split.
  - repeat (apply sub_head; [intros g; reflexivity|]). exact Hhead.
  - unfold sub.
    apply sub_from_ends; [discriminate | intros g; apply Hquote |].
    apply sub_from_ends; [discriminate | intros g; apply Hcolon |].
    apply sub_from_ends; [discriminate | intros g; apply Hcolon |].
    apply sub_from_ends; [discriminate | intros g; apply Hcolon |].
    apply sub_from_ends; [discriminate | intros g; apply Hcolon |].
    exact Hlast.
Qed.

Lemma strip_trimmed s :
  match s with c :: _ => isspace c = false | [] => True end ->
  (forall t c, s = t ++ [c] -> isspace c = false) ->
  strip s = s.
Proof.
  intros Hhead Hlast. unfold strip, rstrip.
  assert (E1 : lstrip s = s).
  { destruct s as [|c s']; [reflexivity|]. cbn [lstrip]. now rewrite Hhead. }
  rewrite E1.
  assert (E2 : lstrip (rev s) = rev s).
  { destruct (rev s) as [|c r] eqn:E; [reflexivity|]. cbn [lstrip].
    rewrite (Hlast (rev r) c); [reflexivity|].
    rewrite <- (rev_involutive s), E. reflexivity. }
  rewrite E2. apply rev_involutive.
Qed.

Lemma complete_balanced_again (json_loads : str -> option json) out :
  balanced out -> strip out = out -> json_loads out <> None ->
  _complete_truncated_json json_loads out = Some out.
Proof.
  intros Hb Hs Hl. unfold _complete_truncated_json. rewrite Hs.
  rewrite (find_last_full out Hb).
  destruct out as [|c o];
    [|cbn [length Nat.eqb negb firstn]; now rewrite firstn_all].
  cbn. destruct (json_loads []); [reflexivity | congruence].
Qed.

Lemma complete_truncated_json_closed (json_loads : str -> option json) s out :
  _find_last_complete_structure (strip s) = 0%nat ->
  _complete_truncated_json json_loads s = Some out ->
  balanced out /\ strip out = out /\ json_loads out <> None.
Proof.
  intros Hn Hout. unfold _complete_truncated_json in Hout.
  rewrite Hn in Hout. cbn [Nat.eqb negb] in Hout.
  set (r := strip s) in *.
  destruct ((count LBRACE r - count RBRACE r <? 0)
            || (count LBRACK r - count RBRACK r <? 0)) eqn:Eneg;
    [discriminate|].
  apply orb_false_iff in Eneg as [Eb Ek].
  apply Z.ltb_ge in Eb, Ek. cbv zeta in Hout.
  set (completed := (r ++ times (count LBRACK r - count RBRACK r) RBRACK)
                    ++ times (count LBRACE r - count RBRACE r) RBRACE) in *.
  assert (Hbal : balanced completed).
  { unfold completed. rewrite <- app_assoc.
    apply (depth_closed_by_appending r); assumption. }
  assert (Hhead : match completed with
                  | c :: _ => isspace c = false
                  | [] => True
                  end).
  { unfold completed. destruct (strip_head s) as [E | (x & t & E & Hx)];
      fold r in E; rewrite E; [|exact Hx].
    cbn. exact I. }
  assert (Hlast : forall t c, completed = t ++ [c] -> isspace c = false).
  { destruct (strip_head s) as [E | (x & t0 & E & Hx)]; fold r in E.
    - unfold completed. rewrite E. cbn. intros t c H. now destruct t.
    - assert (Hopen : 0 < count LBRACE r - count RBRACE r
                      \/ 0 < count LBRACK r - count RBRACK r).
      { destruct (Z.eq_dec (count LBRACE r - count RBRACE r) 0) as [Z1|Z1];
          [|lia].
        destruct (Z.eq_dec (count LBRACK r - count RBRACK r) 0) as [Z2|Z2];
          [|lia].
        exfalso. assert (Hr : balanced r).
        { unfold balanced, depth. now rewrite Z1, Z2. }
        rewrite (find_last_full r Hr), E in Hn. discriminate Hn. }
      unfold completed, times.
      destruct (Z.to_nat (count LBRACE r - count RBRACE r)) as [|nb] eqn:Enb.
      + destruct (Z.to_nat (count LBRACK r - count RBRACK r)) as [|nk] eqn:Enk;
          [lia|].
        cbn [repeat]. rewrite app_nil_r.
        replace (RBRACK :: repeat RBRACK nk) with (repeat RBRACK nk ++ [RBRACK])
          by (rewrite <- repeat_cons; reflexivity).
        rewrite app_assoc. now apply ends_snoc.
      + replace (repeat RBRACE (S nb)) with (repeat RBRACE nb ++ [RBRACE])
          by (rewrite <- repeat_cons; reflexivity).
        rewrite app_assoc. now apply ends_snoc. }
  destruct (json_loads completed) eqn:El.
  - injection Hout as <-. split; [exact Hbal|].
    split; [now apply strip_trimmed | congruence].
  - destruct (json_loads (_fix_common_json_issues completed)) eqn:Ef;
      [|discriminate].
    injection Hout as <-.
    destruct (fix_common_trimmed completed Hhead Hlast) as [Hh Hl].
    split; [|split; [now apply strip_trimmed | congruence]].
    unfold balanced, depth in *. rewrite !fix_common_count by tauto.
    exact Hbal.
Qed.

Lemma complete_truncated_json_output (json_loads : str -> option json) s out :
  _complete_truncated_json json_loads s = Some out ->
  _complete_truncated_json json_loads out = Some (strip out)
  /\ (_find_last_complete_structure (strip s) = 0%nat -> strip out = out).
Proof.
  intros Hout.
  destruct (Nat.eq_dec (_find_last_complete_structure (strip s)) 0) as [E|E].
  - destruct (complete_truncated_json_closed json_loads s out E Hout)
      as (Hb & Hs & Hl).
    rewrite Hs. split; [now apply complete_balanced_again | reflexivity].
  - split; [now apply (complete_truncated_json_again json_loads s) | contradiction].
Qed.

Lemma complete_truncated_json_trailing (json_loads : str -> option json) s out :
  _complete_truncated_json json_loads s = Some out ->
  exists spaces,
    out = strip out ++ spaces /\ Forall (fun c => isspace c = true) spaces.
Proof.
  intros Hout.
  destruct (Nat.eq_dec (_find_last_complete_structure (strip s)) 0) as [E|E].
  - destruct (complete_truncated_json_closed json_loads s out E Hout)
      as (_ & Hs & _).
    exists []. rewrite Hs, app_nil_r. split; [reflexivity | constructor].
  - unfold _complete_truncated_json in Hout.
    pose proof E as Hz. apply Nat.eqb_neq in Hz. rewrite Hz in Hout.
    cbn [negb] in Hout. injection Hout as <-.
    destruct (find_last_complete_structure_bounds (strip s)) as (Hlen & _).
    destruct (strip_head s) as [E0 | (x & t & E0 & Hx)]; rewrite E0 in *.
    + exfalso. apply E. reflexivity.
    + destruct (_find_last_complete_structure (x :: t)) as [|n];
        [congruence|].
      cbn [firstn]. unfold strip. cbn [lstrip]. rewrite Hx.
      apply rstrip_split.
Qed.

(** ** Key quoting that changes nothing *)

(** A substitution whose replacement holds a character more often than
    the literals and the group of the match do: the count of that
    character never goes down, and stays the same only when the pattern
    occurs nowhere. *)
Lemma sub_from_grows p x p' repl c k :
  p = Lit x :: p' -> groups p = 1%nat -> outside_stars c p = true ->
  0 < k ->
  (forall g, count c (repl g) = count c (literals p) + count c g + k) ->
  forall s,
    (forall skip, count c (skipn skip s) <= count c (sub_from p repl s skip)) /\
    (count c (sub_from p repl s 0) = count c s -> occurs p s = false).
Proof.
  intros Hp Hg Hout Hk Hrepl.
  induction s as [|y s [IHle IHeq]].
  - split; [intros skip; now destruct skip | reflexivity].
  - assert (Hmatch : forall g rest,
              rx_match p (y :: s) [] = Some (g, rest) ->
              count c (y :: s) + k
              <= count c (repl g
                          ++ sub_from p repl s (length s - length rest))).
    { intros g rest E.
      destruct (rx_match_consumes p _ _ _ _ ltac:(lia) E) as (m & Hs & _ & Hc).
      pose proof (Hc c Hout) as Hcount. rewrite Hg in Hcount. cbn in Hcount.
      assert (Hm : exists m', m = y :: m').
      { subst p. cbn [rx_match] in E.
        destruct m as [|y' m']; [|injection Hs as -> _; eauto].
        cbn in Hs. subst rest.
        destruct (N.eqb y x); [|discriminate].
        destruct (rx_match_consumes p' s [] g (y :: s)) as (m2 & Hs2 & _);
          [cbn in Hg; lia | exact E |].
        apply (f_equal (@length _)) in Hs2. rewrite length_app in Hs2.
        cbn in Hs2. lia. }
      destruct Hm as [m' ->]. injection Hs as ->.
      rewrite count_app, Hrepl.
      replace (length (m' ++ rest) - length rest)%nat with (length m')
        by (rewrite length_app; lia).
      pose proof (IHle (length m')) as Hle.
      rewrite skipn_app, skipn_all, Nat.sub_diag in Hle.
      cbn [skipn app] in Hle.
      change (y :: m' ++ rest) with ((y :: m') ++ rest).
      rewrite count_app. lia. }
    split.
    + intros skip. cbn [sub_from]. destruct skip as [|j]; [|apply IHle].
      cbn [skipn].
      destruct (rx_match p (y :: s) []) as [[g rest]|] eqn:E.
      * pose proof (Hmatch g rest eq_refl). lia.
      * cbn [count]. pose proof (IHle 0%nat) as H0. cbn [skipn] in H0. lia.
    + cbn [sub_from occurs].
      destruct (rx_match p (y :: s) []) as [[g rest]|] eqn:E.
      * pose proof (Hmatch g rest eq_refl). lia.
      * cbn [count]. intros H. apply IHeq. lia.
Qed.

Lemma sub_quotes p x p' repl k s :
  p = Lit x :: p' -> groups p = 1%nat -> outside_stars DQUOTE p = true ->
  0 < k ->
  (forall g, count DQUOTE (repl g)
             = count DQUOTE (literals p) + count DQUOTE g + k) ->
  count DQUOTE s <= count DQUOTE (sub p repl s) /\
  (count DQUOTE (sub p repl s) = count DQUOTE s -> sub p repl s = s).
Proof.
  intros Hp Hg Hout Hk Hrepl.
  destruct (sub_from_grows p x p' repl DQUOTE k Hp Hg Hout Hk Hrepl s)
    as [Hle Heq].
  unfold sub. split; [exact (Hle 0%nat)|].
  intros H. now apply sub_from_no_match, Heq.
Qed.

Lemma sub_unchanged p x p' repl k s :
  p = Lit x :: p' -> groups p = 1%nat -> outside_stars DQUOTE p = true ->
  0 < k ->
  (forall g, count DQUOTE (repl g)
             = count DQUOTE (literals p) + count DQUOTE g + k) ->
  sub p repl s = s -> occurs p s = false.
Proof.
  intros Hp Hg Hout Hk Hrepl H.
  destruct (sub_from_grows p x p' repl DQUOTE k Hp Hg Hout Hk Hrepl s)
    as [_ Heq].
  apply Heq. fold (sub p repl s). now rewrite H.
Qed.

Lemma fix_common_unchanged s :
  _fix_common_json_issues s = s -> pattern_free s = true.
Proof.
  unfold _fix_common_json_issues, pattern_free. cbv zeta.
  set (r1 := fun g => js "[{ '" ++ g ++ js "':").
  set (r2 := fun g => js "{ '" ++ g ++ js "':").
  set (r3 := fun g => js ", '" ++ g ++ js "':").
  set (r4 := fun g => js ": { '" ++ g ++ js "':").
  set (r5 := fun g => js "{ 'name': '" ++ g ++ js "'").
  assert (H1 : forall g, count DQUOTE (r1 g)
                 = count DQUOTE (literals KEY_IN_ARRAY) + count DQUOTE g + 2).
  { intros g. unfold r1. rewrite !count_app.
    set (n := count DQUOTE g). cbv -[Z.add]. lia. }
  assert (H2 : forall g, count DQUOTE (r2 g)
                 = count DQUOTE (literals KEY_AFTER_BRACE) + count DQUOTE g + 2).
  { intros g. unfold r2. rewrite !count_app.
    set (n := count DQUOTE g). cbv -[Z.add]. lia. }
  assert (H3 : forall g, count DQUOTE (r3 g)
                 = count DQUOTE (literals KEY_AFTER_COMMA) + count DQUOTE g + 2).
  { intros g. unfold r3. rewrite !count_app.
    set (n := count DQUOTE g). cbv -[Z.add]. lia. }
  assert (H4 : forall g, count DQUOTE (r4 g)
                 = count DQUOTE (literals KEY_AFTER_COLON) + count DQUOTE g + 2).
  { intros g. unfold r4. rewrite !count_app.
    set (n := count DQUOTE g). cbv -[Z.add]. lia. }
  assert (H5 : forall g, count DQUOTE (r5 g)
                 = count DQUOTE (literals MISSING_KEY) + count DQUOTE g + 1).
  { intros g. unfold r5. rewrite !count_app.
    set (n := count DQUOTE g). cbv -[Z.add]. lia. }
  set (s1 := sub KEY_IN_ARRAY r1 s).
  set (s2 := sub KEY_AFTER_BRACE r2 s1).
  set (s3 := sub KEY_AFTER_COMMA r3 s2).
  set (s4 := sub KEY_AFTER_COLON r4 s3).
  intros Hfix. change (sub MISSING_KEY r5 s4 = s) in Hfix.
  destruct (sub_quotes KEY_IN_ARRAY LBRACK _ r1 2 s eq_refl eq_refl eq_refl
              ltac:(lia) H1) as [L1 E1].
  destruct (sub_quotes KEY_AFTER_BRACE LBRACE _ r2 2 s1 eq_refl eq_refl eq_refl
              ltac:(lia) H2) as [L2 E2].
  destruct (sub_quotes KEY_AFTER_COMMA COMMA _ r3 2 s2 eq_refl eq_refl eq_refl
              ltac:(lia) H3) as [L3 E3].
  destruct (sub_quotes KEY_AFTER_COLON COLON _ r4 2 s3 eq_refl eq_refl eq_refl
              ltac:(lia) H4) as [L4 E4].
  destruct (sub_quotes MISSING_KEY LBRACE _ r5 1 s4 eq_refl eq_refl eq_refl
              ltac:(lia) H5) as [L5 E5].
  fold s1 in L1, E1. fold s2 in L2, E2. fold s3 in L3, E3. fold s4 in L4, E4.
  assert (Hq : count DQUOTE (sub MISSING_KEY r5 s4) = count DQUOTE s)
    by now rewrite Hfix.
  assert (F1 : s1 = s) by (apply E1; lia).
  assert (F2 : s2 = s) by (transitivity s1; [apply E2; lia | exact F1]).
  assert (F3 : s3 = s) by (transitivity s2; [apply E3; lia | exact F2]).
  assert (F4 : s4 = s) by (transitivity s3; [apply E4; lia | exact F3]).
  rewrite (sub_unchanged KEY_IN_ARRAY LBRACK _ r1 2 s eq_refl eq_refl eq_refl
             ltac:(lia) H1 F1).
  rewrite (sub_unchanged KEY_AFTER_BRACE LBRACE _ r2 2 s eq_refl eq_refl eq_refl
             ltac:(lia) H2)
    by (unfold s2 in F2; now rewrite F1 in F2).
  rewrite (sub_unchanged KEY_AFTER_COMMA COMMA _ r3 2 s eq_refl eq_refl eq_refl
             ltac:(lia) H3)
    by (unfold s3 in F3; now rewrite F2 in F3).
  rewrite (sub_unchanged KEY_AFTER_COLON COLON _ r4 2 s eq_refl eq_refl eq_refl
             ltac:(lia) H4)
    by (unfold s4 in F4; now rewrite F3 in F4).
  rewrite (sub_unchanged MISSING_KEY LBRACE _ r5 1 s eq_refl eq_refl eq_refl
             ltac:(lia) H5)
    by (rewrite F4 in Hfix; exact Hfix).
  reflexivity.
Qed.

(** C5, as amended.  Extraction by matching braces applied to its own
    result returns that result.  Key quoting returns a text unchanged
    exactly when none of its five patterns occurs in it.  Completion by
    closing applied to any of its results returns that result without its
    surrounding whitespace, which is whitespace at its end only; it returns
    the result unchanged whenever the result was made by appending closers,
    there being no balanced prefix. *)
Theorem repair_twice (json_loads : str -> option json) :
  (forall s e, _extract_valid_json json_loads s = Some e ->
     _extract_valid_json json_loads e = Some e) /\
  (forall s, _fix_common_json_issues s = s <-> pattern_free s = true) /\
  (forall s out,
     _complete_truncated_json json_loads s = Some out ->
     _complete_truncated_json json_loads out = Some (strip out)
     /\ (exists spaces,
           out = strip out ++ spaces
           /\ Forall (fun c => isspace c = true) spaces)
     /\ (_find_last_complete_structure (strip s) = 0%nat ->
         _complete_truncated_json json_loads out = Some out)).
Proof.
  split; [apply extract_valid_json_idempotent|].
  split.
  - intros s. split; [apply fix_common_unchanged | apply fix_common_pattern_free].
  - intros s out Hout.
    destruct (complete_truncated_json_output json_loads s out Hout)
      as [Hagain Hclosed].
    split; [exact Hagain|].
    split; [now apply (complete_truncated_json_trailing json_loads s)|].
    intros Hn. rewrite Hagain. f_equal. now apply Hclosed.
Qed.

(** C5 as stated fails.  Key quoting applied to its own parseable result
    may change it: a key that holds a brace, a comma and a colon is quoted
    as a whole the first time and split the second time.  An object whose
    string value holds a brace, a word and a colon is valid JSON, and key
    quoting rewrites it into text that no longer parses.  Completion by
    closing, applied to its own parseable result, may return a different
    text. *)
Lemma repair_twice_changes_valid_json :
  ~ (forall s, loads (_fix_common_json_issues s) <> None ->
       _fix_common_json_issues (_fix_common_json_issues s)
       = _fix_common_json_issues s)
  /\ ~ (forall s, loads s <> None ->
          _fix_common_json_issues s = s
          /\ loads (_fix_common_json_issues s) <> None)
  /\ ~ (forall s out, _complete_truncated_json loads s = Some out ->
          loads out <> None -> _complete_truncated_json loads out = Some out).
Proof.
  split; [|split].
  - intros H. specialize (H (js "{1{,::1}")).
    vm_compute in H. discriminate H. discriminate.
  - intros H. destruct (H (js "{'a':'{b:1}'}")) as [Hsame _];
      vm_compute; [discriminate|]. vm_compute in Hsame. discriminate.
  - intros H. specialize (H (js "{} {") (js "{} ") eq_refl).
    vm_compute in H. discriminate H. discriminate.
Qed.

(** Completion by closing on its own results: the truncated reply is
    closed with a bracket and a brace and comes back unchanged; a balanced
    prefix with a space at its end comes back without the space. *)
Example scenario_completion_twice :
  _complete_truncated_json loads TRUNCATED_EXAMPLE
  = Some (TRUNCATED_EXAMPLE ++ js "]}")
  /\ _complete_truncated_json loads (TRUNCATED_EXAMPLE ++ js "]}")
     = Some (TRUNCATED_EXAMPLE ++ js "]}")
  /\ _complete_truncated_json loads (js "{} {") = Some (js "{} ")
  /\ _complete_truncated_json loads (js "{} ") = Some (js "{}").
Proof. vm_compute. repeat split. Qed.
